(** * Versioned key-value store of the coordinator (kv_control_kv.cc)

    A shallow embedding of [KvControl]'s revision encoding, range read,
    put/delete/compact apply steps and of the periodic compaction task,
    followed by the properties of the specification that concern them. *)

From Stdlib Require Import ZArith Lia List String Ascii Bool.
From stdpp Require Import gmap strings list fin_maps sorting.

Local Open Scope Z_scope.

(** ** Machine integers *)

(** [int64_t] values are kept as [Z]; [wrap64] is the two's-complement
    wrap-around of a 64-bit signed integer, [wrap_u32] that of [uint32_t]. *)
Definition wrap64 (z : Z) : Z := (z + 2 ^ 63) mod 2 ^ 64 - 2 ^ 63.
Definition wrap_u32 (z : Z) : Z := z mod 2 ^ 32.
Definition INT64_MAX : Z := 2 ^ 63 - 1.

(** ** Protobuf messages (proto/coordinator_internal.proto, proto/version.proto) *)

Record RevisionInternal := mkRevision { main : Z; sub : Z }.

(** A message that was never assigned reads as all defaults. *)
Definition RevisionInternal_default : RevisionInternal := mkRevision 0 0.

Record Generation := mkGeneration {
  create_revision : option RevisionInternal;
  verison : Z;
  revisions : list RevisionInternal
}.

Definition Generation_default : Generation := mkGeneration None 0 [].

Definition has_create_revision (g : Generation) : bool :=
  match create_revision g with Some _ => true | None => false end.

(** The accessor of an unset sub-message yields the default message. *)
Definition get_create_revision (g : Generation) : RevisionInternal :=
  match create_revision g with Some r => r | None => RevisionInternal_default end.

Record KvIndexInternal := mkKvIndex {
  kvi_id : string;
  kvi_mod_revision : RevisionInternal;
  kvi_generations : list Generation
}.

Definition KvIndexInternal_default : KvIndexInternal :=
  mkKvIndex EmptyString RevisionInternal_default [].

Record KvInternal := mkKvInternal {
  kv_id : string;
  kv_value : string;
  kv_create_revision : RevisionInternal;
  kv_mod_revision : RevisionInternal;
  kv_version : Z;
  kv_lease : Z;
  kv_is_deleted : bool
}.

Definition KvInternal_default : KvInternal :=
  mkKvInternal EmptyString EmptyString RevisionInternal_default
               RevisionInternal_default 0 0 false.

Record KvRevInternal := mkKvRev {
  rev_id : string;
  rev_kv : KvInternal
}.

Definition KvRevInternal_default : KvRevInternal :=
  mkKvRev EmptyString KvInternal_default.

(** [pb::version::Kv], the client-facing key-value. *)
Record Kv := mkKv {
  vkv_key : string;
  vkv_value : string;
  vkv_create_revision : Z;
  vkv_mod_revision : Z;
  vkv_version : Z;
  vkv_lease : Z
}.

Definition Kv_default : Kv := mkKv EmptyString EmptyString 0 0 0 0.

Inductive KvIndexEventType :=
  | KV_INDEX_EVENT_TYPE_PUT
  | KV_INDEX_EVENT_TYPE_DELETE
  | KV_INDEX_EVENT_TYPE_COMPACTION.

(** One [kv_indexes] entry of a [MetaIncrement] (op_type is always UPDATE). *)
Record KvIndexIncrement := mkKvIndexIncrement {
  inc_id : string;
  inc_event_type : KvIndexEventType;
  inc_op_revision : RevisionInternal;
  inc_ignore_lease : bool;
  inc_lease_id : Z;
  inc_ignore_value : bool;
  inc_value : string
}.

Definition MetaIncrement := list KvIndexIncrement.

Inductive EventType := Event_EventType_PUT | Event_EventType_DELETE.

(** ** Status *)

Inductive Status :=
  | OK
  | Err (code : Z) (msg : string).

Definition EINVAL : Z := 22.

Definition ok (s : Status) : bool :=
  match s with OK => true | Err _ _ => false end.

(** ** The serial buffer *)

Module Buf.

(** Modelled from the spec: the [Buf] class of serial/buf.h, whose source
    lies outside this development. The specification fixes the serialized
    revision as [main:8][sep:1][sub:8] whose lexicographic order is the
    numeric order; a buffer is the list of bytes written so far, or still
    to be read. *)
Definition t := list ascii.

(** Modelled from the spec: a fresh write buffer of the given capacity. *)
Definition create (size : nat) : t := [].

(** Modelled from the spec: a read buffer over the bytes of a string. *)
Definition of_string (s : string) : t := list_ascii_of_string s.

(** Modelled from the spec: the low eight bits of an integer, as a byte. *)
Definition byte_of_Z (z : Z) : ascii := ascii_of_N (Z.to_N (Z.land z 255)).

(** Modelled from the spec: the [n] low bytes of the two's-complement
    pattern of [l], most significant first. *)
Fixpoint big_endian (n : nat) (l : Z) : list ascii :=
  match n with
  | O => []
  | S k => byte_of_Z (Z.shiftr l (8 * Z.of_nat k)) :: big_endian k l
  end.

(** Modelled from the spec: [WriteLong] emits the eight bytes of the 64-bit
    pattern, most significant first, which makes byte order the numeric
    order on non-negative values. *)
Definition WriteLong (b : t) (l : Z) : t := b ++ big_endian 8 l.

(** Modelled from the spec: [Write] emits one byte. *)
Definition Write (b : t) (c : ascii) : t := b ++ [c].

(** Modelled from the spec: [GetBytes] returns the bytes written. *)
Definition GetBytes (b : t) : string := string_of_list_ascii b.

(** Modelled from the spec: the unsigned value of a byte sequence, most
    significant byte first. *)
Definition unsigned_of (bytes : list ascii) : Z :=
  fold_left (fun acc c => Z.lor (Z.shiftl acc 8) (Z.of_N (N_of_ascii c))) bytes 0.

(** Modelled from the spec: [ReadLong] consumes eight bytes and returns them
    as a signed 64-bit integer, the inverse of [WriteLong]. *)
Definition ReadLong (b : t) : Z * t :=
  (wrap64 (unsigned_of (take 8 b)), drop 8 b).

(** Modelled from the spec: [Read] consumes one byte. *)
Definition Read (b : t) : ascii * t :=
  (hd zero b, drop 1 b).

End Buf.

(** ** Revision keys (kv_control_kv.cc, lines 46-71) *)

Definition RevisionToString (revision : RevisionInternal) : string :=
  let buf := Buf.create 17 in
  let buf := Buf.WriteLong buf (main revision) in
  let buf := Buf.Write buf "_"%char in
  let buf := Buf.WriteLong buf (sub revision) in
  Buf.GetBytes buf.

Definition StringToRevision (input_string : string) : RevisionInternal :=
  if negb (Nat.eqb (String.length input_string) 17) then RevisionInternal_default
  else
    let buf := Buf.of_string input_string in
    let '(m, buf) := Buf.ReadLong buf in
    let '(_, buf) := Buf.Read buf in
    let '(s, buf) := Buf.ReadLong buf in
    mkRevision m s.

(** Numeric order on [(main, sub)]. *)
Definition revision_lt (r1 r2 : RevisionInternal) : Prop :=
  main r1 < main r2 \/ (main r1 = main r2 /\ sub r1 < sub r2).

(** ** The controller state *)

(** What the meta-writer is asked to persist, in call order. The encoding of
    a message into a (key, value) tuple ([TransformToKvValue]) is kept
    symbolic. *)
Inductive MetaWrite :=
  | MetaPutKvIndex (v : KvIndexInternal)
  | MetaDeleteKvIndex (v : KvIndexInternal)
  | MetaPutKvRev (v : KvRevInternal)
  | MetaDeleteKvRev (v : KvRevInternal).

(** A call of [TriggerOneWatch], recorded with its arguments. *)
Record WatchTrigger := mkWatchTrigger {
  wt_key : string;
  wt_event : EventType;
  wt_new_kv : Kv;
  wt_prev_kv : Kv
}.

(** The members of [KvControl] that the functions below read or write.
    [kv_index_map_], [kv_rev_map_] and [kv_lease_map_] are the safe maps
    (only the presence of a lease id is ever consulted here),
    [meta_writer_] is the log of persisted writes, [one_time_watch_map_]
    holds the keys with a pending one-shot watch and [watch_triggers_]
    the calls made to the watch bus. *)
Record KvControl := mkKvControl {
  kv_index_map_ : gmap string KvIndexInternal;
  kv_rev_map_ : gmap string KvRevInternal;
  kv_lease_map_ : gset Z;
  meta_writer_ : list MetaWrite;
  one_time_watch_map_ : gset string;
  watch_triggers_ : list WatchTrigger
}.

Definition with_kv_index_map (st : KvControl) (m : gmap string KvIndexInternal)
    (w : list MetaWrite) : KvControl :=
  mkKvControl m (kv_rev_map_ st) (kv_lease_map_ st) w
              (one_time_watch_map_ st) (watch_triggers_ st).

Definition with_kv_rev_map (st : KvControl) (m : gmap string KvRevInternal)
    (w : list MetaWrite) : KvControl :=
  mkKvControl (kv_index_map_ st) m (kv_lease_map_ st) w
              (one_time_watch_map_ st) (watch_triggers_ st).

(** Modelled from the spec: [TriggerOneWatch] of the watch bus, whose source
    lies outside this development. Only the call is recorded; the removal of
    the fired subscriptions is left out, no property below depends on it. *)
Definition TriggerOneWatch (st : KvControl) (key : string) (event : EventType)
    (new_kv prev_kv : Kv) : KvControl :=
  mkKvControl (kv_index_map_ st) (kv_rev_map_ st) (kv_lease_map_ st)
              (meta_writer_ st) (one_time_watch_map_ st)
              (watch_triggers_ st ++ [mkWatchTrigger key event new_kv prev_kv]).

(** ** Raw map access (kv_control_kv.cc, lines 73-190) *)

(** Out-parameters are threaded: a failed [Get] leaves the caller's message
    as it was. *)
Definition GetRawKvIndex (st : KvControl) (key : string)
    (kv_index : KvIndexInternal) : Status * KvIndexInternal :=
  match kv_index_map_ st !! key with
  | Some v => (OK, v)
  | None => (Err EINVAL "GetRawKvIndex not found", kv_index)
  end.

Definition PutRawKvIndex (st : KvControl) (key : string)
    (kv_index : KvIndexInternal) : Status * KvControl :=
  (OK, with_kv_index_map st (<[key := kv_index]> (kv_index_map_ st))
                         (meta_writer_ st ++ [MetaPutKvIndex kv_index])).

Definition DeleteRawKvIndex (st : KvControl) (key : string)
    (kv_index : KvIndexInternal) : Status * KvControl :=
  (OK, with_kv_index_map st (delete key (kv_index_map_ st))
                         (meta_writer_ st ++ [MetaDeleteKvIndex kv_index])).

Definition GetRawKvRev (st : KvControl) (revision : RevisionInternal)
    (kv_rev : KvRevInternal) : Status * KvRevInternal :=
  match kv_rev_map_ st !! RevisionToString revision with
  | Some v => (OK, v)
  | None => (Err EINVAL "GetRawKvRev not found", kv_rev)
  end.

Definition PutRawKvRev (st : KvControl) (revision : RevisionInternal)
    (kv_rev : KvRevInternal) : Status * KvControl :=
  (OK, with_kv_rev_map st (<[RevisionToString revision := kv_rev]> (kv_rev_map_ st))
                       (meta_writer_ st ++ [MetaPutKvRev kv_rev])).

Definition DeleteRawKvRev (st : KvControl) (revision : RevisionInternal)
    (kv_rev : KvRevInternal) : Status * KvControl :=
  (OK, with_kv_rev_map st (delete (RevisionToString revision) (kv_rev_map_ st))
                       (meta_writer_ st ++ [MetaDeleteKvRev kv_rev])).

(** ** The ordered safe map *)

Definition key_le (a b : string) : Prop := String.leb a b = true.

#[global] Instance key_le_dec (a b : string) : Decision (key_le a b) :=
  bool_eq_dec (String.leb a b) true.

(** Modelled from the spec: the values [GetRangeValues] of the safe map
    (common/safe_map.h) collects; its source lies outside this development.
    The specification asks for an ordered range with a caller-supplied
    predicate that enumerates keys in ascending lexicographic order: the
    values of the entries with keys from [lower_bound] up to [upper_bound]
    that pass [value_filter], in ascending key order. Whether the entry
    whose key is [upper_bound] itself belongs to the range is not said
    there; [upper_bound_included] decides it. *)
Definition GetRangeValues {V : Type} (upper_bound_included : bool)
    (m : gmap string V) (lower_bound upper_bound : string)
    (value_filter : V -> bool) : list V :=
  map snd
    (List.filter
       (fun kv => String.leb lower_bound (fst kv)
                  && (String.ltb (fst kv) upper_bound
                      || upper_bound_included && String.eqb (fst kv) upper_bound)
                  && value_filter (snd kv))
       (merge_sort (fun x y => key_le (fst x) (fst y)) (map_to_list m))).

(** Modelled from the spec: [GetAllKeys] of the safe map, every key in
    ascending order. *)
Definition GetAllKeys {V : Type} (m : gmap string V) : list string :=
  merge_sort key_le (map fst (map_to_list m)).

(** The one-byte string 0x00 that stands for an unbounded range end. *)
Definition zero_byte_string : string := String zero EmptyString.

Fixpoint string_repeat (n : nat) (c : ascii) : string :=
  match n with
  | O => EmptyString
  | S k => String c (string_repeat k c)
  end.

(** The liveness test shared by the range predicate and the read loop: the
    key index has a latest generation that carries a create revision and at
    least one revision. *)
Definition latest_generation_live (version_kv : KvIndexInternal) : bool :=
  match last (kvi_generations version_kv) with
  | None => false
  | Some latest_generation =>
      negb (negb (has_create_revision latest_generation)
            || Nat.eqb (length (revisions latest_generation)) 0)
  end.

(** The current revision record of a key: the record stored at the mod
    revision of its key index, provided the latest generation is live. *)
Definition current_KvRev (st : KvControl) (key : string) : option KvRevInternal :=
  match kv_index_map_ st !! key with
  | Some kv_index =>
      if latest_generation_live kv_index
      then kv_rev_map_ st !! RevisionToString (kvi_mod_revision kv_index)
      else None
  | None => None
  end.

Section KvControl.

(** gflags of the translation unit; their defaults are 4096, 8192, 1000 and
    false. *)
Variable FLAGS_max_kv_key_size : nat.
Variable FLAGS_max_kv_value_size : nat.
Variable FLAGS_compaction_retention_rev_count : Z.
Variable FLAGS_auto_compaction : bool.

(** [Helper::PrefixNext] and the lease operations [LeaseQuery] and
    [LeaseAddKeys] are defined elsewhere; they are parameters here. Of the
    lease operations only the returned status is used. *)
Variable PrefixNext : string -> string.

(** Two facts about [kv_index_map_.GetRangeValues] that common/safe_map.h
    decides: the int it returns, negative when the scan failed, and whether
    the scan returns the entry whose key is its upper bound. *)
Variable GetRangeValues_ret : KvControl -> string -> string -> Z.
Variable GetRangeValues_upper_bound_included : bool.
Variable LeaseQuery : KvControl -> Z -> Status.
Variable LeaseAddKeys : KvControl -> Z -> string -> Status.

(** ** Range read (kv_control_kv.cc, lines 82-122 and 201-284) *)

(** Lines 85-91: the upper bound of the scan. *)
Definition RangeRawKvIndex_upper_bound (key range_end : string) : string :=
  if String.eqb range_end zero_byte_string
  then string_repeat FLAGS_max_kv_key_size (ascii_of_nat 255)
  else if String.eqb range_end EmptyString then PrefixNext key
  else range_end.

(** A scan that failed is taken to have collected nothing: no caller reads
    [kv_index_values] after a failure. *)
Definition RangeRawKvIndex (st : KvControl) (key range_end : string)
    (kv_index_values : list KvIndexInternal) : Status * list KvIndexInternal :=
  let lower_bound := key in
  let upper_bound := RangeRawKvIndex_upper_bound key range_end in
  let ret := GetRangeValues_ret st lower_bound upper_bound in
  let found :=
    GetRangeValues GetRangeValues_upper_bound_included
      (kv_index_map_ st) lower_bound upper_bound
      (fun version_kv =>
         if negb (latest_generation_live version_kv) then false
         else if String.eqb range_end EmptyString
              then String.eqb key (kvi_id version_kv)
         else if String.eqb range_end zero_byte_string
              then String.leb key (kvi_id version_kv)
         else String.leb key (kvi_id version_kv)
              && String.ltb (kvi_id version_kv) range_end) in
  if ret <? 0 then (Err EINVAL "RangeRawKvIndex failed", kv_index_values)
  else (OK, kv_index_values ++ found).

(** Lines 210-227 of [KvRange]: the key indexes the request resolves to.
    [None] is the early return taken when a point lookup finds nothing. *)
Definition KvRange_lookup (st : KvControl) (key range_end : string)
    : option (Status * list KvIndexInternal) :=
  if String.eqb range_end EmptyString then
    let '(ret, kv_index) := GetRawKvIndex st key KvIndexInternal_default in
    if negb (ok ret) then None
    else Some (OK, [kv_index])
  else Some (RangeRawKvIndex st key range_end []).

Definition Kv_of_KvRev (kv_rev : KvRevInternal) (keys_only : bool) : Kv :=
  let kv_in_rev := rev_kv kv_rev in
  mkKv (kv_id kv_in_rev)
       (if negb keys_only then kv_value kv_in_rev else EmptyString)
       (main (kv_create_revision kv_in_rev))
       (main (kv_mod_revision kv_in_rev))
       (kv_version kv_in_rev)
       (kv_lease kv_in_rev).

(** Lines 229-275: the loop over the resolved key indexes. [limit_count] is
    a [uint32_t]. *)
Fixpoint KvRange_loop (st : KvControl) (limit : Z) (keys_only count_only : bool)
    (kv_index_values : list KvIndexInternal) (limit_count : Z) (kv : list Kv)
    : list Kv :=
  match kv_index_values with
  | [] => kv
  | kv_index_value :: rest =>
      if negb (latest_generation_live kv_index_value)
      then KvRange_loop st limit keys_only count_only rest limit_count kv
      else
        let limit_count := wrap_u32 (limit_count + 1) in
        if limit_count >? limit then kv
        else if count_only
        then KvRange_loop st limit keys_only count_only rest limit_count kv
        else
          let '(ret, kv_rev) :=
            GetRawKvRev st (kvi_mod_revision kv_index_value) KvRevInternal_default in
          if negb (ok ret)
          then KvRange_loop st limit keys_only count_only rest limit_count kv
          else KvRange_loop st limit keys_only count_only rest limit_count
                            (kv ++ [Kv_of_KvRev kv_rev keys_only])
  end.

(** [kv] and [total_count_in_range] are in-out parameters; the result is
    the status with their final values. *)
Definition KvRange (st : KvControl) (key range_end : string) (limit : Z)
    (keys_only count_only : bool) (kv : list Kv) (total_count_in_range : Z)
    : Status * list Kv * Z :=
  let limit := if limit =? 0 then INT64_MAX else limit in
  match KvRange_lookup st key range_end with
  | None => (OK, kv, total_count_in_range)
  | Some (ret, kv_index_values) =>
      if negb (ok ret) then (ret, kv, total_count_in_range)
      else
        let kv := KvRange_loop st limit keys_only count_only kv_index_values 0 kv in
        (OK, kv, Z.of_nat (length kv))
  end.

(** ** KvPut, the client-side step (kv_control_kv.cc, lines 333-458) *)

(** Final values of the in-out parameters of [KvPut], with its status. *)
Record KvPutResult := mkKvPutResult {
  put_status : Status;
  put_sub_revision : Z;
  put_prev_kv : Kv;
  put_lease_grant_id : Z;
  put_meta_increment : MetaIncrement
}.

Definition KvPut (st : KvControl) (key value : string) (lease_id : Z)
    (need_prev_kv ignore_value ignore_lease : bool)
    (main_revision sub_revision : Z) (prev_kv : Kv) (lease_grant_id : Z)
    (meta_increment : MetaIncrement) : KvPutResult :=
  let leave ret lease_grant_id :=
    mkKvPutResult ret sub_revision prev_kv lease_grant_id meta_increment in
  if String.eqb key EmptyString
  then leave (Err EINVAL "KvPut key is empty") lease_grant_id
  else if (FLAGS_max_kv_key_size <? String.length key)%nat
  then leave (Err EINVAL "KvPut key is too long") lease_grant_id
  else if negb ignore_value && String.eqb value EmptyString
  then leave (Err EINVAL "KvPut value is empty") lease_grant_id
  else if negb ignore_value && (FLAGS_max_kv_value_size <? String.length value)%nat
  then leave (Err EINVAL "KvPut value is too long") lease_grant_id
  else
    let check_lease := negb ignore_lease && negb (lease_id =? 0) in
    let ret := if check_lease then LeaseQuery st lease_id else OK in
    if negb (ok ret) then leave ret lease_grant_id
    else
      let lease_grant_id := if check_lease then lease_id else lease_grant_id in
      let '(_, kvs_temp, _) := KvRange st key EmptyString 1 false false [] 0 in
      let found := negb (Nat.eqb (length kvs_temp) 0) in
      if ignore_lease && negb found
      then leave (Err EINVAL "KvPut ignore_lease, but not found key") lease_grant_id
      else
        let lease_grant_id :=
          if found then vkv_lease (hd Kv_default kvs_temp) else lease_grant_id in
        if negb ignore_lease && found && negb (lease_grant_id =? lease_id)
        then leave (Err EINVAL "KvPut lease_id not match") lease_grant_id
        else
          let ret :=
            if negb (lease_grant_id =? 0) then LeaseAddKeys st lease_grant_id key
            else OK in
          if negb (ok ret) then leave ret lease_grant_id
          else
            let prev_kv :=
              if need_prev_kv then
                let kvs_temp :=
                  if found then kvs_temp
                  else snd (fst (KvRange st key EmptyString 1 false false kvs_temp 0)) in
                hd Kv_default kvs_temp
              else prev_kv in
            let kv_index_meta_increment :=
              mkKvIndexIncrement key KV_INDEX_EVENT_TYPE_PUT
                (mkRevision main_revision sub_revision) ignore_lease lease_grant_id
                false (if negb ignore_value then value else EmptyString) in
            mkKvPutResult OK (wrap64 (sub_revision + 1)) prev_kv lease_grant_id
                          (meta_increment ++ [kv_index_meta_increment]).

(** ** KvPutApply (kv_control_kv.cc, lines 535-691) *)

(** Lines 553-606: the key index after the put, the mod revision it had
    before, the create revision and version of the generation written to,
    and the part of [prev_kv] set here. *)
Definition KvPutApply_index (st : KvControl) (key : string)
    (op_revision : RevisionInternal)
    : KvIndexInternal * RevisionInternal * RevisionInternal * Z * Kv :=
  let '(ret, kv_index) := GetRawKvIndex st key KvIndexInternal_default in
  if negb (ok ret) then
    (mkKvIndex key op_revision [mkGeneration (Some op_revision) 1 [op_revision]],
     RevisionInternal_default, op_revision, 1, Kv_default)
  else
    let last_mod_revision := kvi_mod_revision kv_index in
    match last (kvi_generations kv_index) with
    | None =>
        (mkKvIndex (kvi_id kv_index) op_revision
                   [mkGeneration (Some op_revision) 1 [op_revision]],
         last_mod_revision, op_revision, 1, Kv_default)
    | Some latest_generation =>
        let '(latest_generation', prev_kv) :=
          if has_create_revision latest_generation then
            let g := mkGeneration (create_revision latest_generation)
                                  (wrap64 (verison latest_generation + 1))
                                  (revisions latest_generation ++ [op_revision]) in
            (g, mkKv EmptyString EmptyString
                     (main (get_create_revision g))
                     (main (kvi_mod_revision kv_index)) (verison g) 0)
          else
            (mkGeneration (Some op_revision) 1
                          (revisions latest_generation ++ [op_revision]),
             Kv_default) in
        (mkKvIndex (kvi_id kv_index) op_revision
                   (removelast (kvi_generations kv_index) ++ [latest_generation']),
         last_mod_revision, get_create_revision latest_generation',
         verison latest_generation', prev_kv)
    end.

(** Lines 608-639: the revision record read back at the previous mod
    revision, and the lease the new record carries. *)
Definition KvPutApply_kv_rev_last (st : KvControl) (key : string)
    (op_revision : RevisionInternal) : KvRevInternal :=
  let '(_, last_mod_revision, _, _, _) := KvPutApply_index st key op_revision in
  snd (GetRawKvRev st last_mod_revision KvRevInternal_default).

Definition KvPutApply_lease (st : KvControl) (key : string)
    (op_revision : RevisionInternal) (ignore_lease : bool) (lease_id : Z) : Z :=
  if ignore_lease
  then kv_lease (rev_kv (KvPutApply_kv_rev_last st key op_revision))
  else lease_id.

Definition prev_kv_for_watch (prev_kv : Kv) (key : string)
    (kv_rev_last : KvRevInternal) : Kv :=
  if vkv_create_revision prev_kv >? 0
  then mkKv key (kv_value (rev_kv kv_rev_last)) (vkv_create_revision prev_kv)
            (vkv_mod_revision prev_kv) (vkv_version prev_kv)
            (kv_lease (rev_kv kv_rev_last))
  else prev_kv.

Definition KvPutApply (st : KvControl) (key : string)
    (op_revision : RevisionInternal) (ignore_lease : bool) (lease_id : Z)
    (ignore_value : bool) (value : string) : Status * KvControl :=
  let '(kv_index, _, new_create_revision, new_version, prev_kv) :=
    KvPutApply_index st key op_revision in
  let kv_rev_last := KvPutApply_kv_rev_last st key op_revision in
  let kv :=
    mkKvInternal key
      (if negb ignore_value then value else kv_value (rev_kv kv_rev_last))
      new_create_revision op_revision new_version
      (KvPutApply_lease st key op_revision ignore_lease lease_id) false in
  let kv_rev := mkKvRev (RevisionToString op_revision) kv in
  if (kv_lease kv >? 0) && negb (bool_decide (kv_lease kv ∈ kv_lease_map_ st))
  then (Err EINVAL "KvPutApply kv_lease_map_.Exists failed", st)
  else
    let '(_, st1) := PutRawKvIndex st key kv_index in
    let '(ret, st2) := PutRawKvRev st1 op_revision kv_rev in
    if negb (ok ret) then (ret, st2)
    else
      let st3 :=
        if negb (bool_decide (one_time_watch_map_ st2 = ∅)) then
          TriggerOneWatch st2 key Event_EventType_PUT
            (mkKv key (kv_value kv) (main new_create_revision) (main op_revision)
                  new_version (kv_lease kv))
            (prev_kv_for_watch prev_kv key kv_rev_last)
        else st2 in
      (OK, st3).

(** ** KvDeleteApply (kv_control_kv.cc, lines 693-817) *)

(** Lines 716-753, for a key index that was found. *)
Definition KvDeleteApply_index (kv_index : KvIndexInternal)
    (op_revision : RevisionInternal)
    : KvIndexInternal * RevisionInternal * RevisionInternal * Z * Kv :=
  let last_mod_revision := kvi_mod_revision kv_index in
  match last (kvi_generations kv_index) with
  | None =>
      (mkKvIndex (kvi_id kv_index) op_revision [Generation_default],
       last_mod_revision, op_revision, 1, Kv_default)
  | Some latest_generation =>
      if has_create_revision latest_generation then
        let g := mkGeneration (create_revision latest_generation)
                              (wrap64 (verison latest_generation + 1))
                              (revisions latest_generation ++ [op_revision]) in
        (mkKvIndex (kvi_id kv_index) op_revision
                   (removelast (kvi_generations kv_index) ++ [g; Generation_default]),
         last_mod_revision, get_create_revision g, verison g,
         mkKv EmptyString EmptyString (main (get_create_revision g))
              (main (kvi_mod_revision kv_index)) (verison g) 0)
      else
        (mkKvIndex (kvi_id kv_index) op_revision (kvi_generations kv_index),
         last_mod_revision, get_create_revision latest_generation,
         verison latest_generation, Kv_default)
  end.

Definition KvDeleteApply (st : KvControl) (key : string)
    (op_revision : RevisionInternal) : Status * KvControl :=
  let '(ret, kv_index) := GetRawKvIndex st key KvIndexInternal_default in
  if negb (ok ret) then (OK, st)
  else
    let '(kv_index, last_mod_revision, new_create_revision, new_version, prev_kv) :=
      KvDeleteApply_index kv_index op_revision in
    let kv_rev_last := snd (GetRawKvRev st last_mod_revision KvRevInternal_default) in
    let kv :=
      mkKvInternal key EmptyString new_create_revision op_revision new_version 0 true in
    let kv_rev := mkKvRev (RevisionToString op_revision) kv in
    let '(_, st1) := PutRawKvIndex st key kv_index in
    let '(ret, st2) := PutRawKvRev st1 op_revision kv_rev in
    if negb (ok ret) then (ret, st2)
    else
      let st3 :=
        if negb (bool_decide (one_time_watch_map_ st2 = ∅)) then
          TriggerOneWatch st2 key Event_EventType_DELETE
            (mkKv key (kv_value kv) (main new_create_revision) (main op_revision)
                  new_version (kv_lease kv))
            (prev_kv_for_watch prev_kv key kv_rev_last)
        else st2 in
      (OK, st3).

(** ** The compaction task (kv_control_kv.cc, lines 819-912) *)

(** [KvCompact]: the meta increment handed to [SubmitMetaIncrementSync], or
    [None] when nothing is submitted. The outcome of the submission is only
    logged by the caller. *)
Definition KvCompact (keys : list string) (compact_revision : RevisionInternal)
    : option MetaIncrement :=
  match keys with
  | [] => None
  | _ =>
      Some (map (fun key =>
                   mkKvIndexIncrement key KV_INDEX_EVENT_TYPE_COMPACTION
                                      compact_revision false 0 false EmptyString)
                keys)
  end.

(** Lines 850-864: the loop over all keys; [issued] collects the key batches
    passed to [KvCompact] so far. *)
Fixpoint CompactionTask_loop (keys keys_to_compact : list string)
    (issued : list (list string)) : list string * list (list string) :=
  match keys with
  | [] => (keys_to_compact, issued)
  | key :: rest =>
      if (length keys_to_compact <? 50)%nat
      then CompactionTask_loop rest (keys_to_compact ++ [key]) issued
      else CompactionTask_loop rest [] (issued ++ [keys_to_compact])
  end.

(** The key batches [CompactionTask] passes to [KvCompact], in order, paired
    with the compact revision; [now_revision] is what [GetPresentId] returns
    for the next-revision counter. This is the run in which [GetAllKeys]
    succeeds: when it fails the task returns without issuing anything
    (lines 829-833). *)
Definition CompactionTask (st : KvControl) (now_revision : Z)
    : list (list string * RevisionInternal) :=
  if negb FLAGS_auto_compaction then []
  else
    let keys := GetAllKeys (kv_index_map_ st) in
    if now_revision <? FLAGS_compaction_retention_rev_count then []
    else
      let compact_revision :=
        mkRevision (now_revision - FLAGS_compaction_retention_rev_count) 0 in
      let '(keys_to_compact, issued) := CompactionTask_loop keys [] [] in
      let issued :=
        if negb (Nat.eqb (length keys_to_compact) 0)
        then issued ++ [keys_to_compact] else issued in
      map (fun batch => (batch, compact_revision)) issued.

(** The keys named by the increments that a run of the task submits. *)
Definition CompactionTask_submitted (st : KvControl) (now_revision : Z)
    : list MetaIncrement :=
  omap (fun '(batch, compact_revision) => KvCompact batch compact_revision)
       (CompactionTask st now_revision).

(** ** KvCompactApply (kv_control_kv.cc, lines 914-1027) *)

(** Lines 949-955: the revisions of a history generation, split into those
    kept and those to delete; only [main] is compared. *)
Fixpoint compact_revisions (compact_revision : RevisionInternal)
    (revs : list RevisionInternal)
    : list RevisionInternal * list RevisionInternal :=
  match revs with
  | [] => ([], [])
  | kv_revision :: rest =>
      let '(kept, to_delete) := compact_revisions compact_revision rest in
      if main kv_revision <? main compact_revision
      then (kept, kv_revision :: to_delete)
      else (kv_revision :: kept, to_delete)
  end.

(** Lines 982-995: the same split for the latest generation, whose last
    revision is copied whatever its value. *)
Fixpoint compact_latest_revisions (compact_revision : RevisionInternal)
    (revs : list RevisionInternal)
    : list RevisionInternal * list RevisionInternal :=
  match revs with
  | [] => ([], [])
  | [kv_revision] => ([kv_revision], [])
  | kv_revision :: rest =>
      let '(kept, to_delete) := compact_latest_revisions compact_revision rest in
      if main kv_revision <? main compact_revision
      then (kept, kv_revision :: to_delete)
      else (kv_revision :: kept, to_delete)
  end.

(** Lines 937-963: the loop over the generations before the latest one. *)
Fixpoint compact_history (compact_revision : RevisionInternal)
    (history new_generations : list Generation)
    (revisions_to_delete : list RevisionInternal)
    : list Generation * list RevisionInternal :=
  match history with
  | [] => (new_generations, revisions_to_delete)
  | old_generation :: rest =>
      if (0 <? length new_generations)%nat then
        compact_history compact_revision rest
                        (new_generations ++ [old_generation]) revisions_to_delete
      else if has_create_revision old_generation then
        let '(kept, to_delete) :=
          compact_revisions compact_revision (revisions old_generation) in
        let new_generations :=
          if (0 <? length kept)%nat
          then new_generations
               ++ [mkGeneration (Some (get_create_revision old_generation))
                                (verison old_generation) kept]
          else new_generations in
        compact_history compact_revision rest new_generations
                        (revisions_to_delete ++ to_delete)
      else
        compact_history compact_revision rest new_generations revisions_to_delete
  end.

(** Lines 965-1003: the latest generation. *)
Definition compact_latest (compact_revision : RevisionInternal)
    (latest_generation : Generation) (new_generations : list Generation)
    (revisions_to_delete : list RevisionInternal)
    : list Generation * list RevisionInternal :=
  if negb (has_create_revision latest_generation) then
    if (0 <? length new_generations)%nat
    then (new_generations ++ [latest_generation], revisions_to_delete)
    else (new_generations, revisions_to_delete)
  else
    if (0 <? length new_generations)%nat
    then (new_generations ++ [latest_generation], revisions_to_delete)
    else
      let '(kept, to_delete) :=
        compact_latest_revisions compact_revision (revisions latest_generation) in
      let new_generations :=
        if (0 <? length kept)%nat
        then new_generations
             ++ [mkGeneration (Some (get_create_revision latest_generation))
                              (verison latest_generation) kept]
        else new_generations in
      (new_generations, revisions_to_delete ++ to_delete).

(** Lines 926-1003 on a key index with at least one generation: the new
    generations and the revisions to delete. *)
Definition compact_generations (compact_revision : RevisionInternal)
    (generations : list Generation) : list Generation * list RevisionInternal :=
  match last generations with
  | None => ([], [])
  | Some latest_generation =>
      let '(new_generations, revisions_to_delete) :=
        compact_history compact_revision (removelast generations) [] [] in
      compact_latest compact_revision latest_generation new_generations
                     revisions_to_delete
  end.

(** Lines 1016-1024. *)
Fixpoint delete_revisions (st : KvControl) (revisions_to_delete : list RevisionInternal)
    : KvControl :=
  match revisions_to_delete with
  | [] => st
  | kv_revision :: rest =>
      let kv_rev := mkKvRev (RevisionToString kv_revision) KvInternal_default in
      let '(_, st) := DeleteRawKvRev st kv_revision kv_rev in
      delete_revisions st rest
  end.

Definition KvCompactApply (st : KvControl) (key : string)
    (compact_revision : RevisionInternal) : Status * KvControl :=
  let '(ret, kv_index) := GetRawKvIndex st key KvIndexInternal_default in
  if negb (ok ret) then (ret, st)
  else if Nat.eqb (length (kvi_generations kv_index)) 0 then (OK, st)
  else
    let '(new_generations, revisions_to_delete) :=
      compact_generations compact_revision (kvi_generations kv_index) in
    let new_kv_index :=
      mkKvIndex (kvi_id kv_index) (kvi_mod_revision kv_index) new_generations in
    let '(_, st1) :=
      if Nat.eqb (length new_generations) 0
      then DeleteRawKvIndex st key new_kv_index
      else PutRawKvIndex st key new_kv_index in
    (OK, delete_revisions st1 revisions_to_delete).

(** ** KvRangeRawKeys (kv_control_kv.cc, lines 292-321) *)

(** [keys] is an in-out parameter; the point branch pushes [key] as soon as
    a key index is found for it. *)
Definition KvRangeRawKeys (st : KvControl) (key range_end : string)
    (keys : list string) : Status * list string :=
  if String.eqb range_end EmptyString then
    let '(ret, _) := GetRawKvIndex st key KvIndexInternal_default in
    if negb (ok ret) then (OK, keys)
    else (OK, keys ++ [key])
  else
    let '(ret, kv_index_values) := RangeRawKvIndex st key range_end [] in
    if negb (ok ret) then (ret, keys)
    else (OK, keys ++ map kvi_id kv_index_values).

(** ** KvDeleteRange (kv_control_kv.cc, lines 469-533) *)

(** [LeaseRemoveMultiLeaseKeys] is defined with the lease operations; it is
    a parameter, of which only the returned status is used. *)
Variable LeaseRemoveMultiLeaseKeys : KvControl -> gmap Z (gset string) -> Status.

(** Lines 490-512: one DELETE entry per key-value to delete, and the keys to
    detach from their leases ([insert_or_assign] of a one-key set). *)
Fixpoint KvDeleteRange_loop (kvs_to_delete : list Kv) (main_revision sub_revision : Z)
    (keys_to_remove_lease : gmap Z (gset string)) (meta_increment : MetaIncrement)
    : Z * gmap Z (gset string) * MetaIncrement :=
  match kvs_to_delete with
  | [] => (sub_revision, keys_to_remove_lease, meta_increment)
  | kv_to_delete :: rest =>
      let kv_index_meta_increment :=
        mkKvIndexIncrement (vkv_key kv_to_delete) KV_INDEX_EVENT_TYPE_DELETE
          (mkRevision main_revision sub_revision) false 0 false EmptyString in
      let meta_increment := meta_increment ++ [kv_index_meta_increment] in
      let sub_revision := wrap64 (sub_revision + 1) in
      if vkv_lease kv_to_delete =? 0
      then KvDeleteRange_loop rest main_revision sub_revision
                              keys_to_remove_lease meta_increment
      else KvDeleteRange_loop rest main_revision sub_revision
             (<[vkv_lease kv_to_delete := {[vkv_key kv_to_delete]}]>
                keys_to_remove_lease)
             meta_increment
  end.

(** Final values of the in-out parameters of [KvDeleteRange], with its
    status; [del_lease_keys] is the argument of the call to
    [LeaseRemoveMultiLeaseKeys], when that call is made. *)
Record KvDeleteRangeResult := mkKvDeleteRangeResult {
  del_status : Status;
  del_sub_revision : Z;
  del_deleted_count : Z;
  del_prev_kvs : list Kv;
  del_meta_increment : MetaIncrement;
  del_lease_keys : option (gmap Z (gset string))
}.

Definition KvDeleteRange (st : KvControl) (key range_end : string)
    (need_prev_kv : bool) (main_revision sub_revision : Z)
    (need_lease_remove_keys : bool) (deleted_count : Z) (prev_kvs : list Kv)
    (meta_increment : MetaIncrement) : KvDeleteRangeResult :=
  let key_only := negb need_prev_kv in
  let '(ret, kvs_to_delete, _) :=
    KvRange st key range_end INT64_MAX key_only false [] 0 in
  if negb (ok ret)
  then mkKvDeleteRangeResult ret sub_revision deleted_count prev_kvs
                             meta_increment None
  else
    let '(sub_revision, keys_to_remove_lease, meta_increment) :=
      KvDeleteRange_loop kvs_to_delete main_revision sub_revision ∅ meta_increment in
    let call := need_lease_remove_keys
                && negb (bool_decide (keys_to_remove_lease = ∅)) in
    let ret := if call then LeaseRemoveMultiLeaseKeys st keys_to_remove_lease else OK in
    let lease_keys := if call then Some keys_to_remove_lease else None in
    if negb (ok ret)
    then mkKvDeleteRangeResult ret sub_revision deleted_count prev_kvs
                               meta_increment lease_keys
    else
      let deleted_count :=
        if negb (Nat.eqb (length kvs_to_delete) 0)
        then Z.of_nat (length kvs_to_delete) else deleted_count in
      let prev_kvs := if need_prev_kv then kvs_to_delete else prev_kvs in
      mkKvDeleteRangeResult OK sub_revision deleted_count prev_kvs
                            meta_increment lease_keys.

(** ** Notions used to state the properties *)

(** The key indexes a range request resolves to ([[]] on the early
    returns). *)
Definition KvRange_lookup_values (st : KvControl) (key range_end : string)
    : list KvIndexInternal :=
  match KvRange_lookup st key range_end with
  | Some (ret, kv_index_values) => if ok ret then kv_index_values else []
  | None => []
  end.

(** Every key index is stored under its own id. *)
Definition keyed (st : KvControl) : Prop :=
  map_Forall (fun k kv_index => kvi_id kv_index = k) (kv_index_map_ st).

(** The specification's count for a range: the keys of the full range whose
    latest generation is live. *)
Definition spec_in_range (key range_end k : string) : bool :=
  if String.eqb range_end EmptyString then String.eqb k key
  else if String.eqb range_end zero_byte_string then String.leb key k
  else String.leb key k && String.ltb k range_end.

Definition spec_total_count_in_range (st : KvControl) (key range_end : string) : Z :=
  Z.of_nat
    (length
       (List.filter
          (fun kv => spec_in_range key range_end (fst kv)
                     && latest_generation_live (snd kv))
          (map_to_list (kv_index_map_ st)))).

(** All revisions listed by a key index, oldest first. *)
Definition all_revisions (generations : list Generation) : list RevisionInternal :=
  concat (map revisions generations).

(** A revision is at or above the compact revision; the code compares the
    main revision only. [keeps] and [drops] are the two sides of that test. *)
Definition keeps (compact_revision r : RevisionInternal) : bool :=
  negb (main r <? main compact_revision).

Definition drops (compact_revision r : RevisionInternal) : bool :=
  main r <? main compact_revision.

Definition at_or_above (compact_revision r : RevisionInternal) : Prop :=
  main compact_revision <= main r.

(** The specification's reading of generation retention: every generation
    kept by compaction contains a revision at or above the compact
    revision. *)
Definition compact_retains_only_claim (compact_revision : RevisionInternal)
    (new_generations : list Generation) : Prop :=
  forall g, g ∈ new_generations ->
            exists r, r ∈ revisions g /\ at_or_above compact_revision r.

(** The shape key indexes have in every state built by the apply steps:
    there is at least one generation, a generation carries revisions exactly
    when it has a create revision, only the latest generation may be a
    tombstone, and main revisions never decrease along the history. *)
Record KvIndex_wf (generations : list Generation) : Prop := mkKvIndex_wf {
  wf_nonempty : generations <> [];
  wf_open_nonempty :
    forall g, g ∈ generations -> has_create_revision g = true <-> revisions g <> [];
  wf_history_open :
    forall g, g ∈ removelast generations -> has_create_revision g = true;
  wf_sorted :
    StronglySorted (fun a b => main a <= main b) (all_revisions generations)
}.

(** The generations a state lists for a key ([[]] for an unknown key). *)
Definition generations_of (st : KvControl) (key : string) : list Generation :=
  match kv_index_map_ st !! key with
  | Some kv_index => kvi_generations kv_index
  | None => []
  end.

(** The generations of a key after a put that went through, and after a
    delete of a known key, as lines 571-604 and 718-751 leave them. *)
Definition generations_after_put (generations : list Generation)
    (op_revision : RevisionInternal) : list Generation :=
  match last generations with
  | None => [mkGeneration (Some op_revision) 1 [op_revision]]
  | Some latest_generation =>
      removelast generations
      ++ [if has_create_revision latest_generation
          then mkGeneration (create_revision latest_generation)
                            (wrap64 (verison latest_generation + 1))
                            (revisions latest_generation ++ [op_revision])
          else mkGeneration (Some op_revision) 1
                            (revisions latest_generation ++ [op_revision])]
  end.

Definition generations_after_delete (generations : list Generation)
    (op_revision : RevisionInternal) : list Generation :=
  match last generations with
  | None => [Generation_default]
  | Some latest_generation =>
      if has_create_revision latest_generation
      then removelast generations
           ++ [mkGeneration (create_revision latest_generation)
                            (wrap64 (verison latest_generation + 1))
                            (revisions latest_generation ++ [op_revision]);
               Generation_default]
      else generations
  end.

(** Every key index of a state is well formed. *)
Definition KvControl_wf (st : KvControl) : Prop :=
  forall key kv_index,
    kv_index_map_ st !! key = Some kv_index ->
    KvIndex_wf (kvi_generations kv_index).

(** A boolean check of [KvIndex_wf], for concrete key indexes. *)
Definition KvIndex_wf_check (generations : list Generation) : bool :=
  negb (Nat.eqb (length generations) 0)
  && forallb (fun g => Bool.eqb (has_create_revision g)
                                (negb (Nat.eqb (length (revisions g)) 0)))
             generations
  && forallb has_create_revision (removelast generations)
  && bool_decide (StronglySorted (fun a b => main a <= main b)
                                 (all_revisions generations)).

(** The first generation kept by the history loop has a create revision and a
    non-empty list of revisions, all at or above the compact revision. *)
Definition clean_head (R : RevisionInternal) (generations : list Generation) : Prop :=
  match generations with
  | [] => True
  | g :: _ =>
      has_create_revision g = true /\ revisions g <> []
      /\ Forall (fun r => main R <= main r) (revisions g)
  end.

(** Invariants of the history of one key between two puts: the latest
    generation is open and holds revision [r1]; it holds [r1] and no earlier
    generation does; the latest generation, if there is one, does not hold
    [r1]; every recorded revision is below [bound]. *)
Definition latest_holds (r1 : RevisionInternal) (generations : list Generation) : Prop :=
  exists lg, last generations = Some lg /\ has_create_revision lg = true
             /\ r1 ∈ revisions lg.

Definition alone_in_latest (r1 : RevisionInternal) (generations : list Generation)
    : Prop :=
  latest_holds r1 generations /\ r1 ∉ all_revisions (removelast generations).

Definition latest_free (r1 : RevisionInternal) (generations : list Generation) : Prop :=
  forall lg, last generations = Some lg -> r1 ∉ revisions lg.

Definition revisions_below (bound : RevisionInternal) (generations : list Generation)
    : Prop :=
  forall r, r ∈ all_revisions generations -> revision_lt r bound.

(** Two revisions lie in the same generation. *)
Definition in_same_generation (generations : list Generation)
    (r1 r2 : RevisionInternal) : Prop :=
  exists g, g ∈ generations /\ r1 ∈ revisions g /\ r2 ∈ revisions g.

(** Modelled from the spec: the commands of the apply engine
    (kv_control_fsm.cc lies outside this development), restricted to PUT
    and DELETE; each command carries its revision. *)
Inductive Command :=
  | CmdPut (key : string) (op_revision : RevisionInternal) (ignore_lease : bool)
           (lease_id : Z) (ignore_value : bool) (value : string)
  | CmdDelete (key : string) (op_revision : RevisionInternal).

Definition cmd_revision (c : Command) : RevisionInternal :=
  match c with
  | CmdPut _ r _ _ _ _ => r
  | CmdDelete _ r => r
  end.

Definition is_delete_of (key : string) (c : Command) : bool :=
  match c with
  | CmdPut _ _ _ _ _ _ => false
  | CmdDelete k _ => String.eqb k key
  end.

(** Modelled from the spec: the dispatch of the apply engine on one
    command; a command whose apply fails leaves the state as it was. *)
Definition apply_command (st : KvControl) (c : Command) : KvControl :=
  match c with
  | CmdPut key r ignore_lease lease_id ignore_value value =>
      snd (KvPutApply st key r ignore_lease lease_id ignore_value value)
  | CmdDelete key r => snd (KvDeleteApply st key r)
  end.

Definition apply_commands (st : KvControl) (cs : list Command) : KvControl :=
  fold_left apply_command cs st.

(** Modelled from the spec: what the apply engine runs between two puts, a
    PUT or DELETE command or the compaction of one key at a compact
    revision. *)
Inductive Step :=
  | StepCommand (c : Command)
  | StepCompact (key : string) (compact_revision : RevisionInternal).

Definition apply_step (st : KvControl) (s : Step) : KvControl :=
  match s with
  | StepCommand c => apply_command st c
  | StepCompact key compact_revision => snd (KvCompactApply st key compact_revision)
  end.

Definition apply_steps (st : KvControl) (steps : list Step) : KvControl :=
  fold_left apply_step steps st.

(** The step deletes [key]; the step compacts [key] at a revision whose main
    revision is above that of [r1]. *)
Definition step_deletes (key : string) (s : Step) : bool :=
  match s with
  | StepCommand c => is_delete_of key c
  | StepCompact _ _ => false
  end.

Definition step_compacts_above (key : string) (r1 : RevisionInternal) (s : Step)
    : bool :=
  match s with
  | StepCommand _ => false
  | StepCompact k compact_revision =>
      String.eqb k key && (main r1 <? main compact_revision)
  end.

(** The specification's reading of generation sharing: after a put at [r1],
    the steps and a put at [r2], both puts being applied, [r2] lies in the
    generation of [r1] exactly when no step deleted the key. *)
Definition put_generation_claim (st : KvControl) (key : string)
    (r1 : RevisionInternal) (value1 : string) (steps : list Step)
    (r2 : RevisionInternal) (value2 : string) : Prop :=
  let st1 := snd (KvPutApply st key r1 false 0 false value1) in
  let st2 := apply_steps st1 steps in
  let st3 := snd (KvPutApply st2 key r2 false 0 false value2) in
  fst (KvPutApply st key r1 false 0 false value1) = OK ->
  fst (KvPutApply st2 key r2 false 0 false value2) = OK ->
  (in_same_generation (generations_of st3 key) r1 r2 <->
   forall s, s ∈ steps -> step_deletes key s = false).

(** No key index of the state lists a main revision above [m]. *)
Definition revisions_bounded (st : KvControl) (m : Z) : Prop :=
  forall key x, x ∈ all_revisions (generations_of st key) -> main x <= m.

(** ** Sample data *)

Definition KvControl_empty : KvControl := mkKvControl ∅ ∅ ∅ [] ∅ [].

Definition default_max_kv_key_size : nat := Z.to_nat 4096.
Definition default_max_kv_value_size : nat := Z.to_nat 8192.
Definition default_compaction_retention_rev_count : Z := 1000.

(** Stand-ins for the parameters of the section above: a lease operation
    succeeds exactly on a lease id of the registry, and the prefix successor,
    which no range read reaches, is the identity. Where nothing else is
    said, the scan of the key-index map does not fail and leaves out the
    entry at its upper bound. *)
Definition LeaseQuery_sample (st : KvControl) (lease_id : Z) : Status :=
  if bool_decide (lease_id ∈ kv_lease_map_ st) then OK
  else Err EINVAL "lease not found".

Definition LeaseAddKeys_sample (st : KvControl) (lease_id : Z) (key : string) : Status :=
  LeaseQuery_sample st lease_id.

Definition PrefixNext_sample (key : string) : string := key.

(** A scan of the key-index map that does not fail, and one that fails. *)
Definition GetRangeValues_ret_sample (st : KvControl)
    (lower_bound upper_bound : string) : Z := 0.

Definition GetRangeValues_ret_failed (st : KvControl)
    (lower_bound upper_bound : string) : Z := -1.

(** Two live keys, "a" written at revision (1,0) and "b" at (2,0). *)
Definition two_live_keys : KvControl :=
  apply_commands KvControl_empty
    [CmdPut "a" (mkRevision 1 0) false 0 false "1";
     CmdPut "b" (mkRevision 2 0) false 0 false "2"].

(** A key written at revision (1,0) and deleted at revision (2,0). *)
Definition put_then_delete : KvControl :=
  apply_commands KvControl_empty
    [CmdPut "k" (mkRevision 1 0) false 0 false "v";
     CmdDelete "k" (mkRevision 2 0)].

(** Next to "a", a live key of [default_max_kv_key_size] bytes 0xff and a
    live key one byte longer. *)
Definition all_ff_key (n : nat) : string := string_repeat n (ascii_of_nat 255).

Definition with_all_ff_keys : KvControl :=
  apply_commands KvControl_empty
    [CmdPut "a" (mkRevision 1 0) false 0 false "1";
     CmdPut (all_ff_key default_max_kv_key_size) (mkRevision 2 0) false 0 false "2";
     CmdPut (all_ff_key (S default_max_kv_key_size)) (mkRevision 3 0) false 0 false "3"].

(** Fifty-one keys "a", "aa", "aaa", ..., each written once. *)
Definition nth_key (n : nat) : string := string_repeat (S n) "a"%char.

Definition fifty_one_keys : KvControl :=
  apply_commands KvControl_empty
    (map (fun n => CmdPut (nth_key n) (mkRevision (Z.of_nat (S n)) 0) false 0 false "v")
         (seq 0 51)).

(** ** States built by the apply functions *)

(** The states that [KvPutApply], [KvDeleteApply] and [KvCompactApply] build
    from a store without keys, paired with the highest main revision a put
    or a delete has used so far; puts and deletes arrive in the order of
    their main revisions. *)
Inductive reachable : KvControl -> Z -> Prop :=
  | reachable_start leases watches m :
      reachable (mkKvControl ∅ ∅ leases [] watches []) m
  | reachable_put st m key r ignore_lease lease_id ignore_value value :
      reachable st m -> m <= main r ->
      reachable (snd (KvPutApply st key r ignore_lease lease_id ignore_value value))
                (main r)
  | reachable_delete st m key r :
      reachable st m -> m <= main r ->
      reachable (snd (KvDeleteApply st key r)) (main r)
  | reachable_compact st m key R :
      reachable st m ->
      reachable (snd (KvCompactApply st key R)) m.

(** The two maps as the meta-writer log describes them: every logged put
    and delete is replayed under the id its message carries. *)
Definition replay_write
    (maps : gmap string KvIndexInternal * gmap string KvRevInternal)
    (w : MetaWrite) : gmap string KvIndexInternal * gmap string KvRevInternal :=
  match w with
  | MetaPutKvIndex v => (<[kvi_id v := v]> (fst maps), snd maps)
  | MetaDeleteKvIndex v => (delete (kvi_id v) (fst maps), snd maps)
  | MetaPutKvRev v => (fst maps, <[rev_id v := v]> (snd maps))
  | MetaDeleteKvRev v => (fst maps, delete (rev_id v) (snd maps))
  end.

Definition replay (log : list MetaWrite)
    : gmap string KvIndexInternal * gmap string KvRevInternal :=
  fold_left replay_write log (∅, ∅).

Definition mirrored (st : KvControl) : Prop :=
  replay (meta_writer_ st) = (kv_index_map_ st, kv_rev_map_ st).

(** ** Reads *)

(** What a read that is not cut short returns for one key index: the record
    at its mod revision, when the latest generation is live and the record
    exists. *)
Definition KvRange_read (st : KvControl) (keys_only : bool)
    (kv_index : KvIndexInternal) : option Kv :=
  if latest_generation_live kv_index
  then match kv_rev_map_ st !! RevisionToString (kvi_mod_revision kv_index) with
       | Some kv_rev => Some (Kv_of_KvRev kv_rev keys_only)
       | None => None
       end
  else None.

(** A key-value with its value left unset. *)
Definition without_value (kv : Kv) : Kv :=
  mkKv (vkv_key kv) EmptyString (vkv_create_revision kv) (vkv_mod_revision kv)
       (vkv_version kv) (vkv_lease kv).

(** ** Further sample data *)

(** A key written once, and a key written at revisions (1,0) and (2,0). *)
Definition put_once : KvControl :=
  apply_commands KvControl_empty [CmdPut "k" (mkRevision 1 0) false 0 false "v"].

Definition put_twice : KvControl :=
  apply_commands KvControl_empty
    [CmdPut "k" (mkRevision 1 0) false 0 false "v";
     CmdPut "k" (mkRevision 2 0) false 0 false "w"].

(** A store whose lease registry holds lease 5, with the keys "a" and "b"
    written under that lease; and the same store after the lease has left
    the registry. *)
Definition two_leased_keys : KvControl :=
  apply_commands (mkKvControl ∅ ∅ {[5]} [] ∅ [])
    [CmdPut "a" (mkRevision 1 0) false 5 false "1";
     CmdPut "b" (mkRevision 2 0) false 5 false "2"].

Definition lease_revoked : KvControl :=
  mkKvControl (kv_index_map_ two_leased_keys) (kv_rev_map_ two_leased_keys) ∅
              (meta_writer_ two_leased_keys) ∅ [].

(** A stand-in for the lease removal: it succeeds exactly when every lease
    it is given is in the registry. *)
Definition LeaseRemoveMultiLeaseKeys_sample (st : KvControl)
    (keys_to_remove_lease : gmap Z (gset string)) : Status :=
  if bool_decide (dom keys_to_remove_lease ⊆ kv_lease_map_ st) then OK
  else Err EINVAL "lease not found".

(** A store with a one-time watch pending on "k", after "k" was written
    once. *)
Definition watched_put_once : KvControl :=
  apply_commands (mkKvControl ∅ ∅ ∅ [] {["k"%string]} [])
    [CmdPut "k" (mkRevision 1 0) false 0 false "v"].

(** * Properties *)

(** ** Revision keys *)

Lemma N_of_byte_of_Z z : N_of_ascii (Buf.byte_of_Z z) = Z.to_N (z mod 256).
Proof.
  unfold Buf.byte_of_Z. change 255 with (Z.ones 8).
  rewrite Z.land_ones by lia. change (2 ^ 8) with 256.
  apply N_ascii_embedding.
  assert (0 <= z mod 256 < 256) by (apply Z.mod_pos_bound; lia).
  lia.
Qed.

Lemma big_endian_length n l : length (Buf.big_endian n l) = n.
Proof. induction n; simpl; congruence. Qed.

Lemma big_endian_mod n j l :
  (n <= j)%nat -> Buf.big_endian n (l mod 2 ^ (8 * Z.of_nat j)) = Buf.big_endian n l.
Proof.
  induction n as [|k IH]; intros Hj; [reflexivity|].
  simpl Buf.big_endian. rewrite IH by lia. f_equal.
  unfold Buf.byte_of_Z. f_equal. f_equal.
  apply Z.bits_inj'. intros i Hi.
  rewrite !Z.land_spec, !Z.shiftr_spec by lia.
  destruct (Z.testbit 255 i) eqn:E; [|now rewrite !andb_false_r].
  rewrite !andb_true_r.
  apply Z.mod_pow2_bits_low.
  assert (i < 8).
  { destruct (Z.ltb_spec i 8); [lia|].
    change 255 with (Z.ones 8) in E. rewrite Z.ones_spec_high in E by lia. discriminate. }
  lia.
Qed.

Lemma big_endian_head k l :
  0 <= l < 2 ^ (8 * Z.of_nat (S k)) ->
  N_of_ascii (Buf.byte_of_Z (Z.shiftr l (8 * Z.of_nat k))) = Z.to_N (l / 2 ^ (8 * Z.of_nat k)).
Proof.
  intros Hl. rewrite N_of_byte_of_Z, Z.shiftr_div_pow2 by lia.
  f_equal. apply Z.mod_small.
  assert (Hp : 0 < 2 ^ (8 * Z.of_nat k)) by (apply Z.pow_pos_nonneg; lia).
  split; [apply Z.div_pos; lia|].
  apply Z.div_lt_upper_bound; [lia|].
  replace (8 * Z.of_nat (S k)) with (8 * Z.of_nat k + 8) in Hl by lia.
  rewrite Z.pow_add_r in Hl by lia. change (2 ^ 8) with 256 in Hl. lia.
Qed.

Lemma big_endian_compare k : forall a b l1 l2,
  0 <= a < 2 ^ (8 * Z.of_nat k) -> 0 <= b < 2 ^ (8 * Z.of_nat k) ->
  String.compare (string_of_list_ascii (Buf.big_endian k a ++ l1))
                 (string_of_list_ascii (Buf.big_endian k b ++ l2)) =
  match a ?= b with
  | Eq => String.compare (string_of_list_ascii l1) (string_of_list_ascii l2)
  | c => c
  end.
Proof.
  induction k as [|k IH]; intros a b l1 l2 Ha Hb.
  - simpl in *. assert (a = 0) by lia. assert (b = 0) by lia. subst. reflexivity.
  - cbn [Buf.big_endian app string_of_list_ascii String.compare].
    unfold Ascii.compare. rewrite !big_endian_head by assumption.
    set (p := 2 ^ (8 * Z.of_nat k)) in *.
    assert (Hp : 0 < p) by (apply Z.pow_pos_nonneg; lia).
    assert (Hqa : 0 <= a / p) by (apply Z.div_pos; lia).
    assert (Hqb : 0 <= b / p) by (apply Z.div_pos; lia).
    rewrite Z2N.inj_compare by assumption.
    pose proof (Z.div_mod a p ltac:(lia)) as Ea.
    pose proof (Z.div_mod b p ltac:(lia)) as Eb.
    pose proof (Z.mod_pos_bound a p Hp) as Ra.
    pose proof (Z.mod_pos_bound b p Hp) as Rb.
    destruct (Z.compare_spec (a / p) (b / p)) as [Hq|Hq|Hq].
    + rewrite <- (big_endian_mod k k a), <- (big_endian_mod k k b) by lia.
      fold p. rewrite IH by (fold p; assumption).
      replace (a ?= b) with (a mod p ?= b mod p); [reflexivity|].
      destruct (Z.compare_spec (a mod p) (b mod p)); symmetry;
        [apply Z.compare_eq_iff|apply Z.compare_lt_iff|apply Z.compare_gt_iff]; nia.
    + replace (a ?= b) with Lt; [reflexivity|]. symmetry. apply Z.compare_lt_iff. nia.
    + replace (a ?= b) with Gt; [reflexivity|]. symmetry. apply Z.compare_gt_iff. nia.
Qed.

Lemma lor_shiftl_byte acc c :
  Z.lor (Z.shiftl acc 8) (Z.of_N (N_of_ascii c)) = acc * 256 + Z.of_N (N_of_ascii c).
Proof.
  pose proof (N_ascii_bounded c) as Hc.
  set (b := Z.of_N (N_of_ascii c)). assert (Hb : 0 <= b < 2 ^ 8) by (subst b; simpl; lia).
  rewrite Z.shiftl_mul_pow2 by lia. change (2 ^ 8) with 256 in *.
  rewrite <- Z.lxor_lor, <- Z.add_nocarry_lxor; try reflexivity.
  all: apply Z.bits_inj'; intros i Hi; rewrite Z.land_spec, Z.bits_0.
  all: destruct (Z.ltb_spec i 8).
  all: try (replace (acc * 256) with (Z.shiftl acc 8) by (rewrite Z.shiftl_mul_pow2; lia);
            rewrite Z.shiftl_spec_low by lia; reflexivity).
  all: replace (Z.testbit b i) with false; [apply andb_false_r|].
  all: symmetry; destruct (Z.eq_dec b 0) as [->|]; [apply Z.bits_0|].
  all: apply Z.bits_above_log2; [lia|].
  all: apply Z.log2_lt_pow2; [lia|].
  all: apply Z.lt_le_trans with (2 ^ 8); [lia|apply Z.pow_le_mono_r; lia].
Qed.

Lemma unsigned_of_big_endian k : forall l acc,
  fold_left (fun acc c => Z.lor (Z.shiftl acc 8) (Z.of_N (N_of_ascii c)))
            (Buf.big_endian k l) acc
  = acc * 2 ^ (8 * Z.of_nat k) + l mod 2 ^ (8 * Z.of_nat k).
Proof.
  induction k as [|k IH]; intros l acc.
  - simpl. rewrite Z.mod_1_r. lia.
  - cbn [Buf.big_endian fold_left]. rewrite IH, lor_shiftl_byte, N_of_byte_of_Z.
    rewrite Z2N.id by (apply Z.mod_pos_bound; lia).
    rewrite Z.shiftr_div_pow2 by lia.
    set (p := 2 ^ (8 * Z.of_nat k)).
    assert (Hp : 0 < p) by (apply Z.pow_pos_nonneg; lia).
    replace (2 ^ (8 * Z.of_nat (S k))) with (p * 256).
    2:{ subst p. replace (8 * Z.of_nat (S k)) with (8 * Z.of_nat k + 8) by lia.
        rewrite Z.pow_add_r by lia. reflexivity. }
    rewrite (Z.rem_mul_r l p 256) by lia. lia.
Qed.

Lemma length_string_of_list_ascii l : String.length (string_of_list_ascii l) = length l.
Proof. induction l; simpl; congruence. Qed.

Lemma RevisionToString_bytes r :
  RevisionToString r =
  string_of_list_ascii (Buf.big_endian 8 (main r) ++ "_"%char :: Buf.big_endian 8 (sub r) ++ []).
Proof.
  unfold RevisionToString, Buf.GetBytes, Buf.WriteLong, Buf.Write, Buf.create.
  rewrite app_nil_l, <- !app_assoc, app_nil_r. reflexivity.
Qed.

Lemma RevisionToString_length r : String.length (RevisionToString r) = 17%nat.
Proof.
  rewrite RevisionToString_bytes, length_string_of_list_ascii.
  rewrite length_app. cbn [length]. rewrite length_app, !big_endian_length. reflexivity.
Qed.

Lemma RevisionToString_compare r1 r2 :
  0 <= main r1 < 2 ^ 64 -> 0 <= sub r1 < 2 ^ 64 ->
  0 <= main r2 < 2 ^ 64 -> 0 <= sub r2 < 2 ^ 64 ->
  String.compare (RevisionToString r1) (RevisionToString r2) =
  match main r1 ?= main r2 with
  | Eq => sub r1 ?= sub r2
  | c => c
  end.
Proof.
  intros Hm1 Hs1 Hm2 Hs2. rewrite !RevisionToString_bytes.
  rewrite (big_endian_compare 8) by assumption.
  destruct (main r1 ?= main r2); try reflexivity.
  cbn [string_of_list_ascii String.compare]. 
  change (Ascii.compare "_" "_") with Eq. cbv iota.
  rewrite (big_endian_compare 8) by assumption.
  simpl. destruct (sub r1 ?= sub r2); reflexivity.
Qed.

Lemma wrap64_mod l : - 2 ^ 63 <= l < 2 ^ 63 -> wrap64 (l mod 2 ^ 64) = l.
Proof.
  intros Hl. unfold wrap64.
  rewrite Zplus_mod_idemp_l.
  rewrite Z.mod_small; lia.
Qed.

Lemma ReadLong_big_endian l rest :
  - 2 ^ 63 <= l < 2 ^ 63 ->
  Buf.ReadLong (Buf.big_endian 8 l ++ rest) = (l, rest).
Proof.
  intros Hl. unfold Buf.ReadLong, Buf.unsigned_of.
  rewrite take_app_length' by (symmetry; apply big_endian_length).
  rewrite drop_app_length' by (symmetry; apply big_endian_length).
  rewrite unsigned_of_big_endian. rewrite Z.mul_0_l, Z.add_0_l.
  change (8 * Z.of_nat 8) with 64. rewrite wrap64_mod by assumption. reflexivity.
Qed.

Lemma StringToRevision_RevisionToString r :
  - 2 ^ 63 <= main r < 2 ^ 63 -> - 2 ^ 63 <= sub r < 2 ^ 63 ->
  StringToRevision (RevisionToString r) = r.
Proof.
  intros Hm Hs. unfold StringToRevision.
  rewrite RevisionToString_length. cbn [Nat.eqb negb].
  rewrite RevisionToString_bytes. unfold Buf.of_string.
  rewrite list_ascii_of_string_of_list_ascii.
  rewrite ReadLong_big_endian by assumption.
  cbn [Buf.Read drop]. rewrite drop_0, ReadLong_big_endian by assumption.
  destruct r; reflexivity.
Qed.

(** C9: for revisions whose main and sub lie in [0, 2^63), the serialized
    form has exactly 17 bytes and is lexicographically smaller exactly when
    the revision is numerically smaller as a (main, sub) pair. *)
Theorem RevisionToString_order_iff r1 r2 :
  0 <= main r1 < 2 ^ 63 -> 0 <= sub r1 < 2 ^ 63 ->
  0 <= main r2 < 2 ^ 63 -> 0 <= sub r2 < 2 ^ 63 ->
  String.length (RevisionToString r1) = 17%nat /\
  String.length (RevisionToString r2) = 17%nat /\
  (String.ltb (RevisionToString r1) (RevisionToString r2) = true <-> revision_lt r1 r2).
Proof.
  intros Hm1 Hs1 Hm2 Hs2. split; [apply RevisionToString_length|].
  split; [apply RevisionToString_length|].
  unfold String.ltb, revision_lt. rewrite RevisionToString_compare by lia.
  destruct (Z.compare_spec (main r1) (main r2)) as [Hm|Hm|Hm];
    [destruct (Z.compare_spec (sub r1) (sub r2)) as [Hsub|Hsub|Hsub]|..];
    split; intros Hlt; try discriminate; try lia; try reflexivity.
Qed.

(** C10: decoding the serialized form of a revision with non-negative main
    and sub gives the revision back, and any input whose length is not 17
    decodes to the zero revision. *)
Theorem StringToRevision_roundtrip :
  (forall r, 0 <= main r < 2 ^ 63 -> 0 <= sub r < 2 ^ 63 ->
             StringToRevision (RevisionToString r) = r) /\
  (forall input_string, String.length input_string <> 17%nat ->
             StringToRevision input_string = mkRevision 0 0).
Proof.
  split.
  - intros r Hm Hs. apply StringToRevision_RevisionToString; lia.
  - intros s Hs. unfold StringToRevision.
    destruct (Nat.eqb_spec (String.length s) 17); [contradiction|reflexivity].
Qed.

(** ** KvPutApply and the lease registry *)

Lemma KvPutApply_lease_supplied st key op_revision lease_id :
  KvPutApply_lease st key op_revision false lease_id = lease_id.
Proof. reflexivity. Qed.

Lemma KvPutApply_last_mod_revision st key op_revision kv_index :
  kv_index_map_ st !! key = Some kv_index ->
  KvPutApply_kv_rev_last st key op_revision =
  snd (GetRawKvRev st (kvi_mod_revision kv_index) KvRevInternal_default).
Proof.
  intros Hidx.
  unfold KvPutApply_kv_rev_last, KvPutApply_index, GetRawKvIndex.
  rewrite Hidx. cbn [ok negb].
  destruct (last (kvi_generations kv_index)) as [g|]; [|reflexivity].
  destruct (has_create_revision g); reflexivity.
Qed.

Lemma KvPutApply_lease_previous st key op_revision lease_id kv_index kv_rev :
  kv_index_map_ st !! key = Some kv_index ->
  kv_rev_map_ st !! RevisionToString (kvi_mod_revision kv_index) = Some kv_rev ->
  KvPutApply_lease st key op_revision true lease_id = kv_lease (rev_kv kv_rev).
Proof.
  intros Hidx Hrev. unfold KvPutApply_lease.
  rewrite (KvPutApply_last_mod_revision _ _ _ _ Hidx).
  unfold GetRawKvRev. rewrite Hrev. reflexivity.
Qed.

Lemma KvPutApply_lease_missing st key op_revision ignore_lease lease_id
    ignore_value value :
  KvPutApply_lease st key op_revision ignore_lease lease_id > 0 ->
  KvPutApply_lease st key op_revision ignore_lease lease_id ∉ kv_lease_map_ st ->
  KvPutApply st key op_revision ignore_lease lease_id ignore_value value
  = (Err EINVAL "KvPutApply kv_lease_map_.Exists failed", st).
Proof.
  intros Hpos Hmiss. unfold KvPutApply.
  destruct (KvPutApply_index st key op_revision) as [[[[kv_index lm] cr] v] pk].
  cbn [kv_lease].
  rewrite (bool_decide_eq_false_2 _ Hmiss).
  destruct (Z.gtb_spec (KvPutApply_lease st key op_revision ignore_lease lease_id) 0);
    [reflexivity|lia].
Qed.

(** C2: let [lease] be the lease a put resolves to: without ignore_lease
    the supplied lease id; with ignore_lease the lease of the revision
    record that the revision map holds at the mod revision of the key's
    index. When [lease] is positive and not in the lease registry,
    KvPutApply returns an error and the whole controller state, both maps
    and the meta-writer log included, is exactly what it was. *)
Theorem KvPutApply_lease_not_found st key op_revision (ignore_lease : bool)
    lease_id ignore_value value lease :
  (if ignore_lease
   then exists kv_index kv_rev,
          kv_index_map_ st !! key = Some kv_index
          /\ kv_rev_map_ st !! RevisionToString (kvi_mod_revision kv_index)
             = Some kv_rev
          /\ kv_lease (rev_kv kv_rev) = lease
   else lease_id = lease) ->
  lease > 0 ->
  lease ∉ kv_lease_map_ st ->
  KvPutApply st key op_revision ignore_lease lease_id ignore_value value
  = (Err EINVAL "KvPutApply kv_lease_map_.Exists failed", st).
Proof.
  intros Hresolved Hpos Hmiss.
  assert (Hlease : KvPutApply_lease st key op_revision ignore_lease lease_id = lease).
  { destruct ignore_lease.
    - destruct Hresolved as (kv_index & kv_rev & Hidx & Hrev & Hl).
      rewrite (KvPutApply_lease_previous st key op_revision lease_id kv_index kv_rev
                 Hidx Hrev). exact Hl.
    - rewrite KvPutApply_lease_supplied. exact Hresolved. }
  apply KvPutApply_lease_missing; rewrite Hlease; assumption.
Qed.

(** ** Point reads *)

Lemma KvRange_point st key limit keys_only count_only kv total :
  KvRange st key EmptyString limit keys_only count_only kv total =
  match kv_index_map_ st !! key with
  | None => (OK, kv, total)
  | Some kv_index =>
      let kv' := KvRange_loop st (if limit =? 0 then INT64_MAX else limit)
                              keys_only count_only [kv_index] 0 kv in
      (OK, kv', Z.of_nat (length kv'))
  end.
Proof.
  unfold KvRange, KvRange_lookup, GetRawKvIndex. cbn [String.eqb].
  destruct (kv_index_map_ st !! key); reflexivity.
Qed.

Lemma KvRange_point_current st key :
  snd (fst (KvRange st key EmptyString 1 false false [] 0)) =
  match current_KvRev st key with
  | Some kv_rev => [Kv_of_KvRev kv_rev false]
  | None => []
  end.
Proof.
  rewrite KvRange_point. unfold current_KvRev.
  destruct (kv_index_map_ st !! key) as [kv_index|]; [|reflexivity].
  cbn [fst snd KvRange_loop Z.eqb].
  destruct (latest_generation_live kv_index); [|reflexivity].
  cbn [negb]. change (wrap_u32 (0 + 1) >? 1) with false. cbv iota.
  unfold GetRawKvRev.
  destruct (kv_rev_map_ st !! RevisionToString (kvi_mod_revision kv_index));
    reflexivity.
Qed.

(** ** KvPut *)

(** The checks of KvPut on the value and on the current record: a put of
    the empty value without ignore_value is rejected; with ignore_value the
    value is never examined, so the outcome is the same for the empty value
    as for any other one; and a put with ignore_lease is rejected when the
    key has no current revision record. *)
Lemma KvPut_value_and_lease_checks st key lease_id need_prev_kv
    main_revision sub_revision prev_kv lease_grant_id meta_increment :
  (forall ignore_lease,
      ok (put_status (KvPut st key EmptyString lease_id need_prev_kv false ignore_lease
                            main_revision sub_revision prev_kv lease_grant_id
                            meta_increment)) = false)
  /\ (forall ignore_lease value value',
      KvPut st key value lease_id need_prev_kv true ignore_lease
            main_revision sub_revision prev_kv lease_grant_id meta_increment
      = KvPut st key value' lease_id need_prev_kv true ignore_lease
              main_revision sub_revision prev_kv lease_grant_id meta_increment)
  /\ (forall ignore_value value,
      current_KvRev st key = None ->
      ok (put_status (KvPut st key value lease_id need_prev_kv ignore_value true
                            main_revision sub_revision prev_kv lease_grant_id
                            meta_increment)) = false).
Proof.
  split; [|split].
  - intros ignore_lease. unfold KvPut.
    destruct (String.eqb key EmptyString); [reflexivity|].
    destruct (FLAGS_max_kv_key_size <? String.length key)%nat; reflexivity.
  - intros ignore_lease value value'. unfold KvPut. reflexivity.
  - intros ignore_value value Hcur. unfold KvPut.
    destruct (String.eqb key EmptyString); [reflexivity|].
    destruct (FLAGS_max_kv_key_size <? String.length key)%nat; [reflexivity|].
    destruct (negb ignore_value && String.eqb value EmptyString); [reflexivity|].
    destruct (negb ignore_value && (FLAGS_max_kv_value_size <? String.length value)%nat);
      [reflexivity|].
    cbn [negb andb ok].
    pose proof (KvRange_point_current st key) as Hpt. rewrite Hcur in Hpt.
    destruct (KvRange st key EmptyString 1 false false [] 0) as [[ret kvs] total].
    cbn [fst snd] in Hpt. subst kvs. reflexivity.
Qed.

(** ** What KvRange reports as the total *)

Lemma KvRange_total_is_returned_size st key range_end limit keys_only count_only
    kv total kv_index_values :
  KvRange_lookup st key range_end = Some (OK, kv_index_values) ->
  exists kv',
    KvRange st key range_end limit keys_only count_only kv total
    = (OK, kv', Z.of_nat (length kv')).
Proof.
  intros Hlookup. unfold KvRange. rewrite Hlookup. cbn [ok negb].
  eexists. reflexivity.
Qed.

(** ** Compaction: splitting revisions *)

Lemma compact_revisions_kept R revs :
  Forall (fun r => main R <= main r) (fst (compact_revisions R revs)).
Proof.
  induction revs as [|r revs IH]; cbn [compact_revisions]; [constructor|].
  destruct (compact_revisions R revs) as [kept del]. cbn [fst] in IH.
  destruct (Z.ltb_spec (main r) (main R)); cbn [fst]; [assumption|].
  constructor; [lia|assumption].
Qed.

Lemma compact_revisions_clean R revs :
  Forall (fun r => main R <= main r) revs ->
  compact_revisions R revs = (revs, []).
Proof.
  induction 1 as [|r revs Hr _ IH]; cbn [compact_revisions]; [reflexivity|].
  rewrite IH. destruct (Z.ltb_spec (main r) (main R)); [lia|reflexivity].
Qed.

Lemma compact_latest_revisions_nonempty R revs :
  revs <> [] -> fst (compact_latest_revisions R revs) <> [].
Proof.
  induction revs as [|r revs IH]; [congruence|]. intros _.
  destruct revs as [|r' revs]; [discriminate|].
  change (compact_latest_revisions R (r :: r' :: revs))
    with (let '(kept, to_delete) := compact_latest_revisions R (r' :: revs) in
          if main r <? main R then (kept, r :: to_delete)
          else (r :: kept, to_delete)).
  destruct (compact_latest_revisions R (r' :: revs)) as [kept del].
  cbn [fst] in IH.
  destruct (main r <? main R); cbn [fst]; [apply IH|]; discriminate.
Qed.

Lemma compact_latest_revisions_idem R revs :
  compact_latest_revisions R (fst (compact_latest_revisions R revs))
  = (fst (compact_latest_revisions R revs), []).
Proof.
  induction revs as [|r revs IH]; [reflexivity|].
  destruct revs as [|r' revs]; [reflexivity|].
  pose proof (compact_latest_revisions_nonempty R (r' :: revs) ltac:(discriminate)) as Hne.
  change (compact_latest_revisions R (r :: r' :: revs))
    with (let '(kept, to_delete) := compact_latest_revisions R (r' :: revs) in
          if main r <? main R then (kept, r :: to_delete)
          else (r :: kept, to_delete)).
  destruct (compact_latest_revisions R (r' :: revs)) as [kept del].
  cbn [fst] in IH, Hne.
  destruct (Z.ltb_spec (main r) (main R)); cbn [fst]; [exact IH|].
  destruct kept as [|k kept]; [congruence|].
  change (compact_latest_revisions R (r :: k :: kept))
    with (let '(kept', to_delete) := compact_latest_revisions R (k :: kept) in
          if main r <? main R then (kept', r :: to_delete)
          else (r :: kept', to_delete)).
  rewrite IH. destruct (Z.ltb_spec (main r) (main R)); [lia|reflexivity].
Qed.

(** ** Compaction: the generations *)

Lemma compact_history_started R history : forall new_generations to_delete,
  new_generations <> [] ->
  compact_history R history new_generations to_delete
  = (new_generations ++ history, to_delete).
Proof.
  induction history as [|h t IH]; intros ng del Hne; cbn [compact_history].
  - rewrite app_nil_r. reflexivity.
  - destruct ng as [|g ng]; [congruence|]. cbn [length Nat.ltb Nat.leb].
    rewrite IH by (destruct ng; discriminate).
    rewrite <- app_assoc. reflexivity.
Qed.

Lemma length_pos_nonempty {A} (l : list A) : (0 <? length l)%nat = true <-> l <> [].
Proof. destruct l; cbn; split; congruence. Qed.

Lemma compact_history_clean_head R history : forall to_delete,
  clean_head R (fst (compact_history R history [] to_delete)).
Proof.
  induction history as [|h t IH]; intros del; cbn [compact_history length Nat.ltb Nat.leb];
    [exact I|].
  destruct (has_create_revision h); [|apply IH].
  pose proof (compact_revisions_kept R (revisions h)) as Hkept.
  destruct (compact_revisions R (revisions h)) as [kept d]. cbn [fst] in Hkept.
  destruct kept as [|k kept]; cbn [length Nat.ltb Nat.leb]; [apply IH|].
  rewrite compact_history_started by discriminate.
  cbn [app fst clean_head revisions has_create_revision create_revision].
  repeat split; [discriminate|assumption].
Qed.

Lemma generation_rebuild g :
  has_create_revision g = true ->
  mkGeneration (Some (get_create_revision g)) (verison g) (revisions g) = g.
Proof.
  destruct g as [[c|] v revs]; cbn; [reflexivity|discriminate].
Qed.

Lemma compact_history_fixed R g rest :
  clean_head R (g :: rest) ->
  compact_history R (g :: rest) [] [] = (g :: rest, []).
Proof.
  intros (Hc & Hne & Hall). cbn [compact_history length Nat.ltb Nat.leb].
  rewrite Hc, (compact_revisions_clean R _ Hall).
  destruct (revisions g) as [|r revs] eqn:Hrevs; [congruence|].
  cbn [length Nat.ltb Nat.leb]. rewrite <- Hrevs, generation_rebuild by assumption.
  rewrite compact_history_started by discriminate. reflexivity.
Qed.

Lemma compact_generations_fixed R generations :
  fst (compact_generations R generations) <> [] ->
  compact_generations R (fst (compact_generations R generations))
  = (fst (compact_generations R generations), []).
Proof.
  destruct (compact_generations R generations) as [ng2 del2] eqn:Hcg.
  cbn [fst]. intros Hne. unfold compact_generations in Hcg.
  destruct (last generations) as [lg|]; [|injection Hcg as <- <-; congruence].
  pose proof (compact_history_clean_head R (removelast generations) []) as Hclean.
  destruct (compact_history R (removelast generations) [] []) as [ng del].
  cbn [fst] in Hclean. unfold compact_latest in Hcg.
  assert (Hstarted : ng <> [] ->
            compact_generations R (ng ++ [lg]) = (ng ++ [lg], [])).
  { intros Hng. unfold compact_generations.
    rewrite last_snoc, removelast_last.
    destruct ng as [|g rest]; [congruence|].
    rewrite (compact_history_fixed R g rest Hclean).
    unfold compact_latest. cbn [length Nat.ltb Nat.leb].
    destruct (negb (has_create_revision lg)); reflexivity. }
  destruct ng as [|g rest].
  - cbn [length Nat.ltb Nat.leb app] in Hcg.
    destruct (has_create_revision lg) eqn:Hlg; cbn [negb] in Hcg;
      [|injection Hcg as <- <-; congruence].
    pose proof (compact_latest_revisions_idem R (revisions lg)) as Hidem.
    destruct (compact_latest_revisions R (revisions lg)) as [kept d].
    cbn [fst] in Hidem.
    destruct kept as [|k kept]; cbn [length Nat.ltb Nat.leb] in Hcg;
      injection Hcg as <- <-; [congruence|].
    unfold compact_generations.
    cbn [last removelast compact_history compact_latest has_create_revision
         create_revision negb length Nat.ltb Nat.leb revisions verison
         get_create_revision app].
    rewrite Hidem. reflexivity.
  - cbn [length Nat.ltb Nat.leb] in Hcg.
    destruct (negb (has_create_revision lg)); injection Hcg as <- <-;
      apply Hstarted; discriminate.
Qed.

Lemma delete_revisions_kv_index_map to_delete : forall st,
  kv_index_map_ (delete_revisions st to_delete) = kv_index_map_ st.
Proof.
  induction to_delete as [|r l IH]; intros st; cbn [delete_revisions]; [reflexivity|].
  unfold DeleteRawKvRev. rewrite IH. reflexivity.
Qed.

Lemma KvCompactApply_outcome st key R :
  let st1 := snd (KvCompactApply st key R) in
  st1 = st
  \/ kv_index_map_ st1 !! key = None
  \/ exists kv_index,
       kv_index_map_ st1 !! key = Some kv_index
       /\ kvi_generations kv_index <> []
       /\ compact_generations R (kvi_generations kv_index)
          = (kvi_generations kv_index, []).
Proof.
  cbv zeta. unfold KvCompactApply, GetRawKvIndex.
  destruct (kv_index_map_ st !! key) as [kv_index|] eqn:Hidx; cbn [ok negb snd];
    [|left; reflexivity].
  destruct (Nat.eqb_spec (length (kvi_generations kv_index)) 0) as [Hlen|Hlen];
    cbn [snd]; [left; reflexivity|].
  pose proof (compact_generations_fixed R (kvi_generations kv_index)) as Hfix.
  destruct (compact_generations R (kvi_generations kv_index)) as [ng del].
  cbn [fst] in Hfix. right.
  destruct ng as [|g rest]; cbn [length Nat.eqb DeleteRawKvIndex PutRawKvIndex snd];
    rewrite delete_revisions_kv_index_map; cbn [with_kv_index_map kv_index_map_].
  - left. apply lookup_delete_eq.
  - right. eexists. split; [apply lookup_insert_eq|].
    cbn [kvi_generations]. split; [discriminate|]. apply Hfix. discriminate.
Qed.

(** C7: compacting a key a second time at the same revision leaves the
    key-index map and the revision map as the first compaction left them. *)
Theorem KvCompactApply_idempotent st key compact_revision :
  let st1 := snd (KvCompactApply st key compact_revision) in
  let st2 := snd (KvCompactApply st1 key compact_revision) in
  kv_index_map_ st2 = kv_index_map_ st1 /\ kv_rev_map_ st2 = kv_rev_map_ st1.
Proof.
  cbv zeta.
  destruct (KvCompactApply_outcome st key compact_revision)
    as [Hsame|[Hnone|(kv_index & Hidx & Hne & Hfix)]].
  - rewrite Hsame at 1 3. rewrite Hsame. split; reflexivity.
  - set (st1 := snd (KvCompactApply st key compact_revision)) in *.
    unfold KvCompactApply at 1 2, GetRawKvIndex. rewrite Hnone.
    split; reflexivity.
  - set (st1 := snd (KvCompactApply st key compact_revision)) in *.
    unfold KvCompactApply at 1 2, GetRawKvIndex. rewrite Hidx. cbn [ok negb].
    destruct (kvi_generations kv_index) as [|g rest] eqn:Hgens; [congruence|].
    cbn [length Nat.eqb]. rewrite Hfix.
    cbn [length Nat.eqb PutRawKvIndex delete_revisions snd with_kv_index_map
         kv_index_map_ kv_rev_map_].
    split; [|reflexivity]. apply insert_id. rewrite Hidx, <- Hgens.
    destruct kv_index; reflexivity.
Qed.

(** ** Range lookups *)

Lemma GetRangeValues_elem {V : Type} upper_bound_included (m : gmap string V)
    lower_bound upper_bound (value_filter : V -> bool) (v : V) :
  v ∈ GetRangeValues upper_bound_included m lower_bound upper_bound value_filter <->
  exists k, m !! k = Some v /\ key_le lower_bound k
            /\ (String.ltb k upper_bound = true
                \/ upper_bound_included = true /\ k = upper_bound)
            /\ value_filter v = true.
Proof.
  unfold GetRangeValues. rewrite list_elem_of_In, in_map_iff. split.
  - intros ([k v'] & Hv & Hin). cbn [snd] in Hv. subst v'.
    apply filter_In in Hin as [Hin Hp]. cbn [fst snd] in Hp.
    apply list_elem_of_In in Hin. rewrite merge_sort_Permutation in Hin.
    apply elem_of_map_to_list in Hin.
    apply andb_prop in Hp as [Hp Hf]. apply andb_prop in Hp as [Hlo Hhi].
    exists k. split; [assumption|]. split; [assumption|]. split; [|assumption].
    apply orb_prop in Hhi as [Hhi|Hhi]; [left; assumption|right].
    apply andb_prop in Hhi as [Hinc Heq]. apply String.eqb_eq in Heq. auto.
  - intros (k & Hk & Hlo & Hhi & Hf). exists (k, v). split; [reflexivity|].
    apply filter_In. split.
    + apply list_elem_of_In. rewrite merge_sort_Permutation.
      apply elem_of_map_to_list. assumption.
    + cbn [fst snd]. unfold key_le in Hlo. rewrite Hlo, Hf.
      destruct Hhi as [Hhi|[Hinc Heq]].
      * rewrite Hhi. reflexivity.
      * rewrite Hinc, (proj2 (String.eqb_eq _ _) Heq), orb_true_r. reflexivity.
Qed.





(** ** Compaction: what is kept and what is deleted *)

Lemma keeps_iff R r : keeps R r = true <-> at_or_above R r.
Proof.
  unfold keeps, at_or_above.
  destruct (Z.ltb_spec (main r) (main R)); cbn; split; (lia || congruence).
Qed.

Lemma drops_iff R r : drops R r = true <-> main r < main R.
Proof. unfold drops. apply Z.ltb_lt. Qed.

Lemma compact_revisions_filter R revs :
  compact_revisions R revs = (List.filter (keeps R) revs, List.filter (drops R) revs).
Proof.
  induction revs as [|r revs IH]; cbn [compact_revisions List.filter]; [reflexivity|].
  rewrite IH. unfold keeps, drops. destruct (main r <? main R); reflexivity.
Qed.

Lemma compact_latest_revisions_snoc R init l :
  compact_latest_revisions R (init ++ [l])
  = (List.filter (keeps R) init ++ [l], List.filter (drops R) init).
Proof.
  induction init as [|r init IH]; [reflexivity|].
  cbn [app]. destruct (init ++ [l]) as [|x rest] eqn:E.
  { destruct init; discriminate. }
  change (compact_latest_revisions R (r :: x :: rest))
    with (let '(kept, to_delete) := compact_latest_revisions R (x :: rest) in
          if main r <? main R then (kept, r :: to_delete)
          else (r :: kept, to_delete)).
  rewrite IH. cbn [List.filter]. unfold keeps, drops.
  destruct (main r <? main R); reflexivity.
Qed.

Lemma all_revisions_app l1 l2 :
  all_revisions (l1 ++ l2) = all_revisions l1 ++ all_revisions l2.
Proof. unfold all_revisions. rewrite map_app, concat_app. reflexivity. Qed.

Lemma all_revisions_cons g l :
  all_revisions (g :: l) = revisions g ++ all_revisions l.
Proof. reflexivity. Qed.

Lemma elem_of_all_revisions r generations :
  r ∈ all_revisions generations <-> exists g, g ∈ generations /\ r ∈ revisions g.
Proof.
  induction generations as [|g l IH].
  - cbn. split; [intros H; inversion H|intros (g & Hg & _); inversion Hg].
  - rewrite all_revisions_cons, elem_of_app, IH. split.
    + intros [H|(g' & Hg' & Hr)]; [exists g|exists g']; split; auto;
        [apply list_elem_of_here|apply list_elem_of_further; assumption].
    + intros (g' & Hg' & Hr). apply elem_of_cons in Hg' as [->|Hg']; [left|right]; eauto.
Qed.

Lemma elem_of_List_filter {A} (f : A -> bool) l x :
  x ∈ List.filter f l <-> x ∈ l /\ f x = true.
Proof. rewrite !list_elem_of_In. apply filter_In. Qed.

(** The history loop, started with nothing kept: either every history
    generation lies below the compact revision and all of it is deleted, or
    the loop keeps the part of a first generation that reaches the compact
    revision and copies what follows. *)
Lemma compact_history_from_empty R history : forall to_delete,
  (forall g, g ∈ history -> has_create_revision g = true) ->
  (compact_history R history [] to_delete
     = ([], to_delete ++ all_revisions history)
   /\ Forall (fun r => main r < main R) (all_revisions history))
  \/ exists pre h t,
       history = pre ++ h :: t
       /\ List.filter (keeps R) (revisions h) <> []
       /\ Forall (fun r => main r < main R) (all_revisions pre)
       /\ compact_history R history [] to_delete
          = (mkGeneration (Some (get_create_revision h)) (verison h)
                          (List.filter (keeps R) (revisions h)) :: t,
             to_delete ++ all_revisions pre ++ List.filter (drops R) (revisions h)).
Proof.
  induction history as [|h t IH]; intros del Hopen.
  - left. cbn. rewrite app_nil_r. split; [reflexivity|constructor].
  - cbn [compact_history length Nat.ltb Nat.leb].
    rewrite (Hopen h) by apply list_elem_of_here.
    rewrite compact_revisions_filter.
    destruct (List.filter (keeps R) (revisions h)) as [|k kept] eqn:Hkept;
      cbn [length Nat.ltb Nat.leb].
    + assert (Hall : Forall (fun r => main r < main R) (revisions h)).
      { apply Forall_forall. intros r Hr.
        destruct (Z.ltb_spec (main r) (main R)) as [|Hge]; [assumption|].
        assert (r ∈ List.filter (keeps R) (revisions h)) as Hin.
        { apply elem_of_List_filter. split; [assumption|]. apply keeps_iff.
          unfold at_or_above. lia. }
        rewrite Hkept in Hin. inversion Hin. }
      assert (Hdrop : List.filter (drops R) (revisions h) = revisions h).
      { clear -Hall. induction Hall as [|r l Hr _ IHl]; [reflexivity|].
        cbn [List.filter]. apply drops_iff in Hr. rewrite Hr, IHl. reflexivity. }
      rewrite Hdrop.
      destruct (IH (del ++ revisions h))
        as [[Heq Hbelow]|(pre & h' & t' & Hhist & Hne & Hbelow & Heq)].
      { intros g Hg. apply Hopen. apply list_elem_of_further. assumption. }
      * left. rewrite Heq, all_revisions_cons, <- app_assoc.
        split; [reflexivity|]. apply Forall_app. split; assumption.
      * right. exists (h :: pre), h', t'. rewrite Hhist.
        split; [reflexivity|]. split; [assumption|].
        rewrite all_revisions_cons. split; [apply Forall_app; split; assumption|].
        rewrite <- Hhist, Heq, <- !app_assoc. reflexivity.
    + right. exists [], h, t. rewrite <- Hkept.
      split; [reflexivity|]. split; [rewrite Hkept; discriminate|].
      split; [constructor|].
      rewrite compact_history_started by (rewrite Hkept; discriminate).
      reflexivity.
Qed.

Lemma compact_generations_wf R history lg :
  KvIndex_wf (history ++ [lg]) ->
  (has_create_revision lg = false /\ revisions lg = []
   /\ Forall (fun r => main r < main R) (all_revisions history)
   /\ compact_generations R (history ++ [lg]) = ([], all_revisions history))
  \/ (exists init l,
        has_create_revision lg = true /\ revisions lg = init ++ [l]
        /\ Forall (fun r => main r < main R) (all_revisions history)
        /\ compact_generations R (history ++ [lg])
           = ([mkGeneration (Some (get_create_revision lg)) (verison lg)
                            (List.filter (keeps R) init ++ [l])],
              all_revisions history ++ List.filter (drops R) init))
  \/ (exists pre h t,
        history = pre ++ h :: t
        /\ List.filter (keeps R) (revisions h) <> []
        /\ Forall (fun r => main r < main R) (all_revisions pre)
        /\ compact_generations R (history ++ [lg])
           = (mkGeneration (Some (get_create_revision h)) (verison h)
                           (List.filter (keeps R) (revisions h)) :: t ++ [lg],
              all_revisions pre ++ List.filter (drops R) (revisions h))).
Proof.
  intros Hwf. destruct Hwf as [Hnonempty Hopen Hhist Hsorted]. rewrite removelast_last in Hhist.
  unfold compact_generations. rewrite last_snoc, removelast_last.
  destruct (compact_history_from_empty R history [] Hhist)
    as [[Heq Hbelow]|(pre & h & t & Hsplit & Hne & Hbelow & Heq)];
    rewrite Heq; cbn [app]; unfold compact_latest.
  - cbn [length Nat.ltb Nat.leb].
    pose proof (Hopen lg ltac:(apply elem_of_app; right; apply list_elem_of_here))
      as Hlg.
    destruct (has_create_revision lg) eqn:Hc; cbn [negb].
    + right; left.
      assert (Hrne : revisions lg <> []) by (apply Hlg; reflexivity).
      destruct (proj2 (last_is_Some _) Hrne) as [l Hl].
      apply last_Some in Hl as [init Hinit]. exists init, l.
      rewrite Hinit, compact_latest_revisions_snoc.
      rewrite length_app. cbn [length]. rewrite Nat.add_1_r. cbn [Nat.ltb Nat.leb].
      repeat split; assumption.
    + left. repeat split; try assumption.
      destruct (revisions lg) as [|r revs]; [reflexivity|].
      assert (false = true) by (apply Hlg; discriminate). discriminate.
  - right; right. exists pre, h, t. cbn [length Nat.ltb Nat.leb].
    repeat split; try assumption.
    destruct (negb (has_create_revision lg)); reflexivity.
Qed.

(** What compaction does to the generations of a well-formed key index. *)
Lemma compact_generations_spec R generations new_generations to_delete :
  KvIndex_wf generations ->
  compact_generations R generations = (new_generations, to_delete) ->
  (forall g, g ∈ new_generations ->
             (exists r, r ∈ revisions g /\ at_or_above R r)
             \/ last new_generations = Some g)
  /\ (forall g r, g ∈ new_generations -> r ∈ revisions g ->
                  at_or_above R r
                  \/ (last new_generations = Some g /\ last (revisions g) = Some r))
  /\ (forall lg r, last generations = Some lg -> last (revisions lg) = Some r ->
                   exists g, last new_generations = Some g
                             /\ last (revisions g) = Some r)
  /\ (forall lg, last generations = Some lg -> has_create_revision lg = false ->
                 new_generations = []
                 \/ exists kept, kept <> [] /\ new_generations = kept ++ [lg])
  /\ (forall r, r ∈ all_revisions generations ->
                r ∈ all_revisions new_generations \/ r ∈ to_delete)
  /\ (forall r, r ∈ to_delete -> main r < main R)
  /\ (forall g', g' ∈ new_generations ->
                 exists g, g ∈ generations
                           /\ create_revision g' = create_revision g
                           /\ verison g' = verison g
                           /\ forall r, r ∈ revisions g' -> r ∈ revisions g).
Proof.
  intros Hwf Hcg.
  destruct (proj2 (last_is_Some _) (wf_nonempty _ Hwf)) as [lg Hlast].
  apply last_Some in Hlast as [history ->].
  assert (Hcreate : forall g, has_create_revision g = true ->
                              Some (get_create_revision g) = create_revision g).
  { intros [[c|] v revs]; cbn; congruence. }
  destruct (compact_generations_wf R history lg Hwf)
    as [(Hc & Hrevs & Hbelow & Heq)
       |[(init & l & Hc & Hrevs & Hbelow & Heq)
        |(pre & h & t & Hsplit & Hne & Hbelow & Heq)]];
    rewrite Heq in Hcg; injection Hcg as <- <-.
  - (* everything lies below the compact revision and the key is deleted *)
    repeat split.
    + intros g Hg. inversion Hg.
    + intros g r Hg. inversion Hg.
    + intros lg' r Hl Hr. rewrite last_snoc in Hl. injection Hl as <-.
      rewrite Hrevs in Hr. discriminate.
    + intros. left. reflexivity.
    + intros r Hr. right. rewrite all_revisions_app, all_revisions_cons, Hrevs in Hr.
      cbn in Hr. rewrite app_nil_r in Hr. assumption.
    + intros r Hr. rewrite Forall_forall in Hbelow. apply Hbelow.
      assumption.
    + intros g Hg. inversion Hg.
  - (* only the latest generation survives *)
    set (g' := mkGeneration (Some (get_create_revision lg)) (verison lg)
                            (List.filter (keeps R) init ++ [l])).
    repeat split.
    + intros g Hg. apply list_elem_of_singleton in Hg as ->. right. reflexivity.
    + intros g r Hg Hr. apply list_elem_of_singleton in Hg as ->.
      cbn [g' revisions] in *. apply elem_of_app in Hr as [Hr|Hr].
      * left. apply keeps_iff. apply elem_of_List_filter in Hr. tauto.
      * right. apply list_elem_of_singleton in Hr as ->.
        split; [reflexivity|apply last_snoc].
    + intros lg' r Hl Hr. rewrite last_snoc in Hl. injection Hl as <-.
      rewrite Hrevs, last_snoc in Hr. injection Hr as <-.
      exists g'. split; [reflexivity|apply last_snoc].
    + intros lg' Hl Hc'. rewrite last_snoc in Hl. injection Hl as <-. congruence.
    + intros r Hr.
      rewrite all_revisions_app, all_revisions_cons, Hrevs in Hr. cbn in Hr.
      rewrite app_nil_r in Hr. rewrite elem_of_app.
      unfold all_revisions. cbn. rewrite app_nil_r, !elem_of_app, !elem_of_List_filter.
      apply elem_of_app in Hr as [Hr|Hr]; [tauto|].
      apply elem_of_app in Hr as [Hr|Hr]; [|tauto].
      unfold keeps, drops. destruct (main r <? main R); cbn; tauto.
    + intros r Hr. apply elem_of_app in Hr as [Hr|Hr].
      * rewrite Forall_forall in Hbelow. apply Hbelow, Hr.
      * apply elem_of_List_filter in Hr as [_ Hr]. apply drops_iff, Hr.
    + intros g Hg. apply list_elem_of_singleton in Hg as ->. exists lg.
      split; [apply elem_of_app; right; apply list_elem_of_here|].
      split; [apply Hcreate, Hc|]. split; [reflexivity|].
      intros r Hr. cbn [g' revisions] in Hr. rewrite Hrevs.
      apply elem_of_app in Hr as [Hr|Hr]; apply elem_of_app; [left|right; assumption].
      apply elem_of_List_filter in Hr. tauto.
  - (* a history generation reaches the compact revision *)
    subst history.
    assert (Hkept : exists r0, r0 ∈ List.filter (keeps R) (revisions h)).
    { destruct (List.filter (keeps R) (revisions h)) as [|r0 kept]; [congruence|].
      exists r0. apply list_elem_of_here. }
    destruct Hkept as [r0 Hkept].
    pose proof (proj1 (elem_of_List_filter _ _ _) Hkept) as [Hr0 Hk0].
    apply keeps_iff in Hk0.
    set (h' := mkGeneration (Some (get_create_revision h)) (verison h)
                            (List.filter (keeps R) (revisions h))).
    assert (Hh : has_create_revision h = true).
    { apply (wf_history_open _ Hwf). rewrite removelast_last.
      apply elem_of_app. right. apply list_elem_of_here. }
    assert (Hlater : forall r, r ∈ all_revisions (t ++ [lg]) -> at_or_above R r).
    { intros r Hr.
      pose proof (wf_sorted _ Hwf) as Hsorted.
      rewrite <- app_assoc, all_revisions_app in Hsorted.
      apply StronglySorted_app_1_r in Hsorted.
      change ((h :: t) ++ [lg]) with (h :: (t ++ [lg])) in Hsorted.
      rewrite all_revisions_cons in Hsorted.
      pose proof (StronglySorted_app_1_elem_of _ _ _ _ _ Hsorted Hr0 Hr) as Hle.
      unfold at_or_above in *. cbn beta in Hle. lia. }
    assert (Hlast : last (h' :: t ++ [lg]) = Some lg).
    { change (h' :: t ++ [lg]) with ((h' :: t) ++ [lg]). apply last_snoc. }
    repeat split.
    + intros g Hg. apply elem_of_cons in Hg as [->|Hg].
      * left. exists r0. split; assumption.
      * apply elem_of_app in Hg as [Hg|Hg].
        -- left.
           assert (Hgo : has_create_revision g = true).
           { apply (wf_history_open _ Hwf). rewrite removelast_last.
             apply elem_of_app. right. apply list_elem_of_further, Hg. }
           assert (Hgn : revisions g <> []).
           { apply (wf_open_nonempty _ Hwf g); [|assumption].
             apply elem_of_app. left. apply elem_of_app. right.
             apply list_elem_of_further, Hg. }
           destruct (revisions g) as [|r revs] eqn:Hrev; [congruence|].
           exists r. split; [apply list_elem_of_here|]. apply Hlater.
           apply elem_of_all_revisions. exists g.
           split; [apply elem_of_app; left; assumption|].
           rewrite Hrev. apply list_elem_of_here.
        -- right. apply list_elem_of_singleton in Hg as ->. assumption.
    + intros g r Hg Hr. left. apply elem_of_cons in Hg as [->|Hg].
      * apply keeps_iff. cbn [h' revisions] in Hr.
        apply elem_of_List_filter in Hr. tauto.
      * apply Hlater. apply elem_of_all_revisions. eauto.
    + intros lg' r Hl Hr. rewrite last_snoc in Hl. injection Hl as <-.
      exists lg. split; assumption.
    + intros lg' Hl _. rewrite last_snoc in Hl. injection Hl as <-.
      right. exists (h' :: t). split; [discriminate|reflexivity].
    + intros r Hr.
      rewrite <- app_assoc, all_revisions_app in Hr.
      change ((h :: t) ++ [lg]) with (h :: (t ++ [lg])) in Hr.
      rewrite all_revisions_cons in Hr.
      rewrite all_revisions_cons. cbn [h' revisions].
      rewrite !elem_of_app, !elem_of_List_filter.
      apply elem_of_app in Hr as [Hr|Hr]; [tauto|].
      apply elem_of_app in Hr as [Hr|Hr]; [|tauto].
      unfold keeps, drops. destruct (main r <? main R); cbn; tauto.
    + intros r Hr. apply elem_of_app in Hr as [Hr|Hr].
      * rewrite Forall_forall in Hbelow. apply Hbelow, Hr.
      * apply elem_of_List_filter in Hr as [_ Hr]. apply drops_iff, Hr.
    + intros g Hg. apply elem_of_cons in Hg as [->|Hg].
      * exists h. split; [apply elem_of_app; left; apply elem_of_app; right;
                          apply list_elem_of_here|].
        split; [apply Hcreate, Hh|]. split; [reflexivity|].
        intros r Hr. cbn [h' revisions] in Hr. apply elem_of_List_filter in Hr. tauto.
      * exists g. split; [|auto].
        rewrite <- app_assoc. apply elem_of_app. right.
        apply list_elem_of_further, Hg.
Qed.

Lemma delete_revisions_keeps_absent to_delete : forall st k,
  kv_rev_map_ st !! k = None ->
  kv_rev_map_ (delete_revisions st to_delete) !! k = None.
Proof.
  induction to_delete as [|r l IH]; intros st k Hk; cbn [delete_revisions]; [assumption|].
  unfold DeleteRawKvRev. apply IH. cbn [with_kv_rev_map kv_rev_map_].
  rewrite lookup_delete. case_decide; [reflexivity|assumption].
Qed.

Lemma delete_revisions_erased to_delete : forall st r,
  r ∈ to_delete ->
  kv_rev_map_ (delete_revisions st to_delete) !! RevisionToString r = None.
Proof.
  induction to_delete as [|r' l IH]; intros st r Hr; [inversion Hr|].
  cbn [delete_revisions]. unfold DeleteRawKvRev.
  apply elem_of_cons in Hr as [->|Hr]; [|apply IH, Hr].
  apply delete_revisions_keeps_absent. cbn [with_kv_rev_map kv_rev_map_].
  apply lookup_delete_eq.
Qed.

Lemma KvCompactApply_generations st key R kv_index :
  kv_index_map_ st !! key = Some kv_index ->
  kvi_generations kv_index <> [] ->
  let '(new_generations, to_delete) :=
    compact_generations R (kvi_generations kv_index) in
  let st' := snd (KvCompactApply st key R) in
  generations_of st' key = new_generations
  /\ (new_generations = [] -> kv_index_map_ st' !! key = None)
  /\ (forall r, r ∈ to_delete -> kv_rev_map_ st' !! RevisionToString r = None).
Proof.
  intros Hidx Hne. unfold KvCompactApply, generations_of, GetRawKvIndex.
  rewrite Hidx. cbn [ok negb].
  destruct (kvi_generations kv_index) as [|g0 gens] eqn:Hgens; [congruence|].
  cbn [length Nat.eqb].
  destruct (compact_generations R (g0 :: gens)) as [ng del].
  destruct ng as [|g rest]; cbn [length Nat.eqb DeleteRawKvIndex PutRawKvIndex snd];
    rewrite delete_revisions_kv_index_map; cbn [with_kv_index_map kv_index_map_].
  - rewrite lookup_delete_eq. repeat split. intros r Hr.
    apply delete_revisions_erased, Hr.
  - rewrite lookup_insert_eq. cbn [kvi_generations]. repeat split.
    + discriminate.
    + intros r Hr. apply delete_revisions_erased, Hr.
Qed.

(** C3 (amended): compacting a well-formed key index at revision R keeps
    only generations that hold a revision with main >= R.main, apart from
    the most recent generation of the result; a tombstone is kept exactly
    when an earlier generation survives; in the kept generations only
    revisions with main >= R.main remain, except the final revision of the
    most recent generation, which always remains; every revision with
    main >= R.main remains; every revision removed from the key index is
    erased from the revision map; and when no generation survives the key
    index entry is erased. *)
Theorem KvCompactApply_retention st key R kv_index :
  kv_index_map_ st !! key = Some kv_index ->
  KvIndex_wf (kvi_generations kv_index) ->
  let st' := snd (KvCompactApply st key R) in
  let old_generations := generations_of st key in
  let new_generations := generations_of st' key in
  (forall g, g ∈ new_generations ->
             (exists r, r ∈ revisions g /\ at_or_above R r)
             \/ last new_generations = Some g)
  /\ (forall lg, last old_generations = Some lg -> has_create_revision lg = false ->
                 new_generations = []
                 \/ exists kept, kept <> [] /\ new_generations = kept ++ [lg])
  /\ (forall g r, g ∈ new_generations -> r ∈ revisions g ->
                  at_or_above R r
                  \/ (last new_generations = Some g /\ last (revisions g) = Some r))
  /\ (forall lg r, last old_generations = Some lg -> last (revisions lg) = Some r ->
                   exists g, last new_generations = Some g
                             /\ last (revisions g) = Some r)
  /\ (forall r, r ∈ all_revisions old_generations -> at_or_above R r ->
                r ∈ all_revisions new_generations)
  /\ (forall g', g' ∈ new_generations ->
                 exists g, g ∈ old_generations
                           /\ create_revision g' = create_revision g
                           /\ verison g' = verison g
                           /\ forall r, r ∈ revisions g' -> r ∈ revisions g)
  /\ (forall r, r ∈ all_revisions old_generations ->
                r ∉ all_revisions new_generations ->
                kv_rev_map_ st' !! RevisionToString r = None)
  /\ (new_generations = [] -> kv_index_map_ st' !! key = None).
Proof.
  intros Hidx Hwf. cbv zeta.
  pose proof (KvCompactApply_generations st key R kv_index Hidx (wf_nonempty _ Hwf))
    as Hstate.
  destruct (compact_generations R (kvi_generations kv_index)) as [ng del] eqn:Hcg.
  destruct Hstate as (Hnew & Herased_index & Herased).
  rewrite Hnew. unfold generations_of at 1 2 3 4 5. rewrite Hidx.
  destruct (compact_generations_spec R _ _ _ Hwf Hcg)
    as (Ha & Hb & Hfinal & Htomb & Hpart & Hdel & Hprov).
  repeat split; try assumption.
  - intros r Hr Habove. destruct (Hpart r Hr) as [|Hin]; [assumption|].
    apply Hdel in Hin. unfold at_or_above in Habove. lia.
  - intros r Hr Hnot. destruct (Hpart r Hr) as [|Hin]; [contradiction|].
    apply Herased, Hin.
Qed.

(** ** Puts and deletes: the generations of a key *)

Lemma KvPutApply_index_generations st key op_revision :
  let '(kv_index, _, _, _, _) := KvPutApply_index st key op_revision in
  kvi_generations kv_index
  = generations_after_put (generations_of st key) op_revision.
Proof.
  unfold KvPutApply_index, generations_of, generations_after_put, GetRawKvIndex.
  destruct (kv_index_map_ st !! key) as [kv_index|]; cbn [ok negb last];
    [|reflexivity].
  destruct (last (kvi_generations kv_index)) as [lg|]; [|reflexivity].
  destruct (has_create_revision lg); reflexivity.
Qed.

Lemma KvPutApply_failed st key op_revision ignore_lease lease_id ignore_value value :
  fst (KvPutApply st key op_revision ignore_lease lease_id ignore_value value) <> OK ->
  snd (KvPutApply st key op_revision ignore_lease lease_id ignore_value value) = st.
Proof.
  unfold KvPutApply.
  destruct (KvPutApply_index st key op_revision) as [[[[kv_index lm] cr] v] pk].
  match goal with |- context [if ?c then _ else _] => destruct c end;
    cbn [fst snd PutRawKvIndex PutRawKvRev ok negb]; congruence.
Qed.

Lemma KvPutApply_applied st key op_revision ignore_lease lease_id ignore_value value :
  fst (KvPutApply st key op_revision ignore_lease lease_id ignore_value value) = OK ->
  let st' := snd (KvPutApply st key op_revision ignore_lease lease_id ignore_value value) in
  generations_of st' key = generations_after_put (generations_of st key) op_revision
  /\ forall k, k <> key -> kv_index_map_ st' !! k = kv_index_map_ st !! k.
Proof.
  pose proof (KvPutApply_index_generations st key op_revision) as Hgens.
  unfold KvPutApply.
  destruct (KvPutApply_index st key op_revision) as [[[[kv_index lm] cr] v] pk].
  match goal with |- context [if ?c then _ else _] => destruct c end;
    cbn [fst snd PutRawKvIndex PutRawKvRev ok negb]; [discriminate|].
  intros _.
  match goal with |- context [if ?c then _ else _] => destruct c end;
    cbn [snd]; unfold generations_of at 1,
      TriggerOneWatch, with_kv_rev_map, with_kv_index_map; cbn [kv_index_map_];
    rewrite lookup_insert_eq, Hgens;
    (split; [reflexivity|intros k Hk; apply lookup_insert_ne; congruence]).
Qed.

Lemma KvDeleteApply_unknown st key op_revision :
  kv_index_map_ st !! key = None ->
  snd (KvDeleteApply st key op_revision) = st.
Proof.
  intros Hidx. unfold KvDeleteApply, GetRawKvIndex. rewrite Hidx. reflexivity.
Qed.

Lemma KvDeleteApply_applied st key op_revision kv_index :
  kv_index_map_ st !! key = Some kv_index ->
  let st' := snd (KvDeleteApply st key op_revision) in
  generations_of st' key = generations_after_delete (generations_of st key) op_revision
  /\ forall k, k <> key -> kv_index_map_ st' !! k = kv_index_map_ st !! k.
Proof.
  intros Hidx. unfold KvDeleteApply, GetRawKvIndex, generations_of at 2.
  rewrite Hidx. cbn [ok negb].
  assert (Hgens : kvi_generations (fst (fst (fst (fst (KvDeleteApply_index kv_index op_revision)))))
                  = generations_after_delete (kvi_generations kv_index) op_revision).
  { unfold KvDeleteApply_index, generations_after_delete.
    destruct (last (kvi_generations kv_index)) as [lg|]; [|reflexivity].
    destruct (has_create_revision lg); reflexivity. }
  destruct (KvDeleteApply_index kv_index op_revision) as [[[[kv_index' lm] cr] v] pk].
  cbn [fst] in Hgens. cbn [PutRawKvIndex PutRawKvRev ok negb].
  match goal with |- context [if ?c then _ else _] => destruct c end;
    cbn [snd]; unfold generations_of at 1,
      TriggerOneWatch, with_kv_rev_map, with_kv_index_map; cbn [kv_index_map_];
    rewrite lookup_insert_eq, Hgens;
    (split; [reflexivity|intros k Hk; apply lookup_insert_ne; congruence]).
Qed.

Lemma generations_of_other st st' key :
  kv_index_map_ st' !! key = kv_index_map_ st !! key ->
  generations_of st' key = generations_of st key.
Proof. unfold generations_of. intros ->. reflexivity. Qed.

Lemma revision_lt_irrefl r : ~ revision_lt r r.
Proof. unfold revision_lt. lia. Qed.

Lemma revision_lt_trans r1 r2 r3 :
  revision_lt r1 r2 -> revision_lt r2 r3 -> revision_lt r1 r3.
Proof. unfold revision_lt. lia. Qed.

Lemma generations_after_put_last generations r :
  exists lg', last (generations_after_put generations r) = Some lg'
    /\ has_create_revision lg' = true
    /\ (exists old, revisions lg' = old ++ [r]
                    /\ match last generations with
                       | Some lg => old = revisions lg
                       | None => old = []
                       end)
    /\ generations_after_put generations r = removelast generations ++ [lg'].
Proof.
  unfold generations_after_put.
  destruct (last generations) as [lg|] eqn:Hlast.
  - eexists. rewrite last_snoc. split; [reflexivity|].
    destruct (has_create_revision lg) eqn:Hc; cbn [has_create_revision create_revision revisions].
    + destruct lg as [[c|] v revs]; cbn in *; [|discriminate]. eauto 10.
    + eauto 10.
  - apply last_None in Hlast. subst. eexists. split; [reflexivity|].
    cbn. split; [reflexivity|]. split; [exists []; split; reflexivity|reflexivity].
Qed.

Lemma elem_of_removelast {A} (l : list A) x : x ∈ removelast l -> x ∈ l.
Proof.
  destruct (last l) as [y|] eqn:Hlast.
  - apply last_Some in Hlast as [l' ->]. rewrite removelast_last.
    intros H. apply elem_of_app. left. assumption.
  - apply last_None in Hlast. subst. intros H. inversion H.
Qed.

Lemma all_revisions_removelast generations lg :
  last generations = Some lg ->
  all_revisions generations = all_revisions (removelast generations) ++ revisions lg.
Proof.
  intros Hlast. apply last_Some in Hlast as [l' ->].
  rewrite removelast_last, all_revisions_app, all_revisions_cons.
  cbn. rewrite app_nil_r. reflexivity.
Qed.

Lemma revisions_below_after_put bound generations r :
  revisions_below bound generations -> revision_lt r bound ->
  revisions_below bound (generations_after_put generations r).
Proof.
  intros Hbelow Hr x Hx.
  destruct (generations_after_put_last generations r)
    as (lg' & _ & _ & (old & Hrevs & Hold) & Heq).
  rewrite Heq, all_revisions_app, all_revisions_cons, Hrevs in Hx.
  cbn in Hx. rewrite app_nil_r in Hx.
  apply elem_of_app in Hx as [Hx|Hx].
  - apply Hbelow. apply elem_of_all_revisions in Hx as (g & Hg & Hx).
    apply elem_of_all_revisions. exists g. split; [apply elem_of_removelast, Hg|assumption].
  - apply elem_of_app in Hx as [Hx|Hx].
    + destruct (last generations) as [lg|] eqn:Hlast; subst old; [|inversion Hx].
      apply Hbelow. rewrite (all_revisions_removelast _ _ Hlast).
      apply elem_of_app. right. assumption.
    + apply list_elem_of_singleton in Hx as ->. assumption.
Qed.

Lemma revisions_below_after_delete bound generations r :
  revisions_below bound generations -> revision_lt r bound ->
  revisions_below bound (generations_after_delete generations r).
Proof.
  intros Hbelow Hr x Hx. unfold generations_after_delete in Hx.
  destruct (last generations) as [lg|] eqn:Hlast.
  - destruct (has_create_revision lg); [|apply Hbelow, Hx].
    rewrite all_revisions_app in Hx. cbn in Hx. rewrite app_nil_r in Hx.
    unfold revisions_below in Hbelow.
    rewrite (all_revisions_removelast _ _ Hlast) in Hbelow.
    apply elem_of_app in Hx as [Hx|Hx].
    + apply Hbelow, elem_of_app. left. assumption.
    + apply elem_of_app in Hx as [Hx|Hx].
      * apply Hbelow, elem_of_app. right. assumption.
      * apply list_elem_of_singleton in Hx as ->. assumption.
  - cbn in Hx. inversion Hx.
Qed.

Lemma latest_holds_after_put r1 generations r :
  latest_holds r1 generations -> latest_holds r1 (generations_after_put generations r).
Proof.
  intros (lg & Hlast & Hc & Hr1).
  destruct (generations_after_put_last generations r)
    as (lg' & Hlast' & Hc' & (old & Hrevs & Hold) & _).
  rewrite Hlast in Hold. subst old.
  exists lg'. repeat split; try assumption.
  rewrite Hrevs. apply elem_of_app. left. assumption.
Qed.

Lemma latest_holds_first_put r1 generations :
  latest_holds r1 (generations_after_put generations r1).
Proof.
  destruct (generations_after_put_last generations r1)
    as (lg' & Hlast' & Hc' & (old & Hrevs & _) & _).
  exists lg'. repeat split; try assumption.
  rewrite Hrevs. apply elem_of_app. right. apply list_elem_of_here.
Qed.

Lemma apply_command_generations st c key :
  let generations := generations_of st key in
  let generations' := generations_of (apply_command st c) key in
  (is_delete_of key c = false ->
   generations' = generations
   \/ generations' = generations_after_put generations (cmd_revision c))
  /\ (is_delete_of key c = true ->
      generations' = generations
      \/ generations' = generations_after_delete generations (cmd_revision c))
  /\ (is_delete_of key c = true -> generations <> [] ->
      generations' = generations_after_delete generations (cmd_revision c)).
Proof.
  cbv zeta. destruct c as [k r il l iv v|k r]; cbn [apply_command is_delete_of cmd_revision].
  - split; [|split; discriminate]. intros _.
    destruct (fst (KvPutApply st k r il l iv v)) eqn:Hret.
    + destruct (KvPutApply_applied st k r il l iv v Hret) as [Hgens Hother].
      destruct (decide (k = key)) as [->|Hne]; [right; assumption|left].
      apply generations_of_other, Hother. congruence.
    + left. rewrite KvPutApply_failed by (rewrite Hret; discriminate). reflexivity.
  - destruct (String.eqb_spec k key) as [->|Hne].
    + split; [discriminate|].
      destruct (kv_index_map_ st !! key) as [kv_index|] eqn:Hidx.
      * destruct (KvDeleteApply_applied st key r kv_index Hidx) as [Hgens _].
        split; intros; [right|]; assumption.
      * rewrite KvDeleteApply_unknown by assumption.
        split; [left; reflexivity|]. intros _ Hgens.
        unfold generations_of in Hgens. rewrite Hidx in Hgens. congruence.
    + split; [|split; discriminate]. intros _. left.
      destruct (kv_index_map_ st !! k) as [kv_index|] eqn:Hidx.
      * destruct (KvDeleteApply_applied st k r kv_index Hidx) as [_ Hother].
        apply generations_of_other, Hother. congruence.
      * rewrite KvDeleteApply_unknown by assumption. reflexivity.
Qed.

(** *** Compaction, seen on the generations of the key *)

Lemma compact_history_revisions R history : forall new_generations to_delete x,
  x ∈ all_revisions (fst (compact_history R history new_generations to_delete)) ->
  x ∈ all_revisions new_generations \/ x ∈ all_revisions history.
Proof.
  induction history as [|g rest IH]; intros ng del x Hx; cbn [compact_history] in Hx.
  - left. exact Hx.
  - rewrite all_revisions_cons.
    destruct (0 <? length ng)%nat.
    + apply IH in Hx as [Hx|Hx]; [|right; apply elem_of_app; right; exact Hx].
      rewrite all_revisions_app in Hx. apply elem_of_app in Hx as [Hx|Hx];
        [left; exact Hx|right].
      unfold all_revisions in Hx. cbn [map concat] in Hx. rewrite app_nil_r in Hx.
      apply elem_of_app. left. exact Hx.
    + destruct (has_create_revision g).
      * rewrite compact_revisions_filter in Hx.
        destruct (0 <? length (List.filter (keeps R) (revisions g)))%nat.
        -- apply IH in Hx as [Hx|Hx]; [|right; apply elem_of_app; right; exact Hx].
           rewrite all_revisions_app in Hx. apply elem_of_app in Hx as [Hx|Hx];
             [left; exact Hx|right].
           unfold all_revisions in Hx. cbn [map concat revisions] in Hx.
           rewrite app_nil_r in Hx. apply elem_of_List_filter in Hx as [Hx _].
           apply elem_of_app. left. exact Hx.
        -- apply IH in Hx as [Hx|Hx]; [left; exact Hx|right].
           apply elem_of_app. right. exact Hx.
      * apply IH in Hx as [Hx|Hx]; [left; exact Hx|right].
        apply elem_of_app. right. exact Hx.
Qed.

Lemma compact_latest_revisions_kept R revs :
  fst (compact_latest_revisions R revs)
  = match last revs with
    | Some l => List.filter (keeps R) (removelast revs) ++ [l]
    | None => []
    end.
Proof.
  destruct (last revs) as [l|] eqn:Hlast.
  - apply last_Some in Hlast as [init ->].
    rewrite compact_latest_revisions_snoc, removelast_last. reflexivity.
  - apply last_None in Hlast. subst revs. reflexivity.
Qed.

(** What compaction leaves of a list of generations that ends in [lg]:
    kept history followed by [lg] unchanged; or, when no history is kept,
    [lg] alone with the revisions kept of it, provided it is open and lists
    a revision; or nothing. *)
Lemma compact_generations_shape R history lg :
  let generations' := fst (compact_generations R (history ++ [lg])) in
  (exists kept_history,
      kept_history <> [] /\ generations' = kept_history ++ [lg]
      /\ forall x, x ∈ all_revisions kept_history -> x ∈ all_revisions history)
  \/ (has_create_revision lg = true
      /\ (exists l, last (revisions lg) = Some l
                    /\ generations'
                       = [mkGeneration (Some (get_create_revision lg)) (verison lg)
                            (List.filter (keeps R) (removelast (revisions lg))
                             ++ [l])]))
  \/ ((has_create_revision lg = false \/ revisions lg = []) /\ generations' = []).
Proof.
  cbv zeta. unfold compact_generations. rewrite last_snoc, removelast_last.
  pose proof (compact_history_revisions R history [] []) as Hsub.
  destruct (compact_history R history [] []) as [ng del]. cbn [fst] in Hsub.
  assert (Hsub' : forall x, x ∈ all_revisions ng -> x ∈ all_revisions history).
  { intros x Hx. destruct (Hsub x Hx) as [Hnil|Hin]; [inversion Hnil|exact Hin]. }
  unfold compact_latest.
  destruct ng as [|g ng'].
  - cbn [length Nat.ltb Nat.leb app].
    destruct (has_create_revision lg) eqn:Hc; cbn [negb fst].
    + pose proof (compact_latest_revisions_kept R (revisions lg)) as Hkept.
      destruct (compact_latest_revisions R (revisions lg)) as [kept to_delete].
      cbn [fst] in Hkept. cbn [fst].
      destruct (last (revisions lg)) as [l|] eqn:Hlast.
      * right. left. split; [reflexivity|]. exists l. split; [reflexivity|].
        rewrite Hkept, length_app. cbn [length].
        rewrite Nat.add_1_r. reflexivity.
      * right. right. apply last_None in Hlast. rewrite Hkept. cbn.
        split; [right; assumption|reflexivity].
    + right. right. split; [left; reflexivity|reflexivity].
  - left. exists (g :: ng'). split; [discriminate|].
    split; [|exact Hsub'].
    destruct (has_create_revision lg); reflexivity.
Qed.

Lemma compact_generations_nil R : compact_generations R [] = ([], []).
Proof. reflexivity. Qed.

Lemma compact_generations_revisions R generations x :
  x ∈ all_revisions (fst (compact_generations R generations)) ->
  x ∈ all_revisions generations.
Proof.
  destruct (last generations) as [lg|] eqn:Hlast.
  2:{ apply last_None in Hlast. subst. intros Hx. exact Hx. }
  apply last_Some in Hlast as [history ->]. intros Hx.
  rewrite all_revisions_app.
  destruct (compact_generations_shape R history lg)
    as [(kept & _ & Heq & Hsub)|[(_ & l & Hlast & Heq)|(_ & Heq)]];
    cbv zeta in Heq; rewrite Heq in Hx.
  - rewrite all_revisions_app in Hx. apply elem_of_app in Hx as [Hx|Hx];
      apply elem_of_app; [left; apply Hsub, Hx|right; exact Hx].
  - apply elem_of_app. right. unfold all_revisions in Hx |- *.
    cbn [map concat revisions] in Hx |- *. rewrite app_nil_r in Hx |- *.
    apply last_Some in Hlast as [init Hrevs]. rewrite Hrevs, removelast_last in Hx.
    rewrite Hrevs. apply elem_of_app in Hx as [Hx|Hx]; apply elem_of_app;
      [left; apply elem_of_List_filter in Hx; tauto|right; exact Hx].
  - inversion Hx.
Qed.

Lemma KvCompactApply_generations_of st key R k :
  generations_of (snd (KvCompactApply st key R)) k
  = if String.eqb k key
    then fst (compact_generations R (generations_of st key))
    else generations_of st k.
Proof.
  unfold KvCompactApply, GetRawKvIndex.
  destruct (String.eqb_spec k key) as [->|Hne].
  - unfold generations_of at 2.
    destruct (kv_index_map_ st !! key) as [kv_index|] eqn:Hidx; cbn [ok negb snd].
    2:{ unfold generations_of. rewrite Hidx. reflexivity. }
    destruct (Nat.eqb_spec (length (kvi_generations kv_index)) 0) as [Hlen|Hlen].
    { cbn [snd]. unfold generations_of. rewrite Hidx.
      destruct (kvi_generations kv_index); [reflexivity|discriminate]. }
    destruct (compact_generations R (kvi_generations kv_index)) as [ng del].
    cbn [fst]. unfold generations_of.
    destruct ng as [|g rest]; cbn [length Nat.eqb DeleteRawKvIndex PutRawKvIndex snd];
      rewrite delete_revisions_kv_index_map; cbn [with_kv_index_map kv_index_map_].
    + rewrite lookup_delete_eq. reflexivity.
    + rewrite lookup_insert_eq. reflexivity.
  - destruct (kv_index_map_ st !! key) as [kv_index|] eqn:Hidx; cbn [ok negb snd];
      [|reflexivity].
    destruct (Nat.eqb (length (kvi_generations kv_index)) 0); [reflexivity|].
    destruct (compact_generations R (kvi_generations kv_index)) as [ng del].
    unfold generations_of.
    destruct (Nat.eqb (length ng) 0); cbn [DeleteRawKvIndex PutRawKvIndex snd];
      rewrite delete_revisions_kv_index_map; cbn [with_kv_index_map kv_index_map_];
      [rewrite lookup_delete_ne by congruence|rewrite lookup_insert_ne by congruence];
      reflexivity.
Qed.

(** *** The three invariants along puts, deletes and compactions *)

Lemma revision_same_or_not (a b : RevisionInternal) : a = b \/ a <> b.
Proof.
  destruct a as [ma sa], b as [mb sb].
  destruct (Z.eq_dec ma mb) as [->|Hm]; [|right; congruence].
  destruct (Z.eq_dec sa sb) as [->|Hs]; [left; reflexivity|right; congruence].
Qed.

Lemma removelast_revisions generations x :
  x ∈ all_revisions (removelast generations) -> x ∈ all_revisions generations.
Proof.
  destruct (last generations) as [lg|] eqn:Hlast.
  - rewrite (all_revisions_removelast _ _ Hlast). intros Hx.
    apply elem_of_app. left. exact Hx.
  - apply last_None in Hlast. subst. intros Hx. exact Hx.
Qed.

Lemma generations_after_put_removelast generations r :
  removelast (generations_after_put generations r) = removelast generations.
Proof.
  destruct (generations_after_put_last generations r) as (lg' & _ & _ & _ & ->).
  apply removelast_last.
Qed.

Lemma alone_in_latest_first_put r1 generations :
  r1 ∉ all_revisions generations ->
  alone_in_latest r1 (generations_after_put generations r1).
Proof.
  intros Hfresh. split; [apply latest_holds_first_put|].
  rewrite generations_after_put_removelast. intros Hin.
  apply Hfresh, removelast_revisions, Hin.
Qed.

Lemma alone_in_latest_after_put r1 generations r :
  alone_in_latest r1 generations ->
  alone_in_latest r1 (generations_after_put generations r).
Proof.
  intros [Hholds Hfresh]. split; [apply latest_holds_after_put, Hholds|].
  rewrite generations_after_put_removelast. exact Hfresh.
Qed.

Lemma all_revisions_after_put generations r x :
  x ∈ all_revisions (generations_after_put generations r) <->
  x ∈ all_revisions generations \/ x = r.
Proof.
  destruct (generations_after_put_last generations r)
    as (lg' & _ & _ & (old & Hrevs & Hold) & ->).
  rewrite all_revisions_app. unfold all_revisions at 2. cbn [map concat].
  rewrite app_nil_r, Hrevs, !elem_of_app, list_elem_of_singleton.
  destruct (last generations) as [lg|] eqn:Hlast.
  - rewrite (all_revisions_removelast _ _ Hlast), elem_of_app. subst old. tauto.
  - apply last_None in Hlast. subst generations old. cbn [removelast].
    split; [intros [H|[H|H]]; auto; inversion H|intros [H|H]; auto].
Qed.

Lemma latest_free_after_put r1 generations r :
  r <> r1 -> latest_free r1 generations ->
  latest_free r1 (generations_after_put generations r).
Proof.
  intros Hne Hfree lg' Hlast' Hin.
  destruct (generations_after_put_last generations r)
    as (lg'' & Hlast'' & _ & (old & Hrevs & Hold) & _).
  rewrite Hlast'' in Hlast'. injection Hlast' as <-.
  rewrite Hrevs in Hin. apply elem_of_app in Hin as [Hin|Hin].
  - destruct (last generations) as [lg|] eqn:Hlast; subst old;
      [exact (Hfree lg Hlast Hin)|inversion Hin].
  - apply list_elem_of_singleton in Hin. congruence.
Qed.

Lemma latest_free_after_delete r1 generations r :
  latest_holds r1 generations \/ latest_free r1 generations ->
  latest_free r1 (generations_after_delete generations r).
Proof.
  unfold generations_after_delete. intros Hwhich lg' Hlast'.
  destruct (last generations) as [lg|] eqn:Hlast.
  - destruct (has_create_revision lg) eqn:Hc.
    + change (removelast generations ++ [?a; ?b])
        with (removelast generations ++ [a] ++ [b]) in Hlast'.
      rewrite app_assoc, last_snoc in Hlast'. injection Hlast' as <-.
      cbn. apply not_elem_of_nil.
    + destruct Hwhich as [(lg0 & Hlast0 & Hc0 & _)|Hfree].
      * rewrite Hlast in Hlast0. injection Hlast0 as <-. congruence.
      * apply Hfree. congruence.
  - cbn in Hlast'. injection Hlast' as <-. cbn. apply not_elem_of_nil.
Qed.

Lemma latest_free_gone r1 generations :
  r1 ∉ all_revisions generations -> latest_free r1 generations.
Proof.
  intros Hgone lg Hlast Hin. apply Hgone.
  rewrite (all_revisions_removelast _ _ Hlast). apply elem_of_app. right. exact Hin.
Qed.

Lemma latest_free_compact r1 R generations :
  latest_free r1 generations ->
  latest_free r1 (fst (compact_generations R generations)).
Proof.
  intros Hfree.
  destruct (last generations) as [lg|] eqn:Hlast.
  2:{ apply last_None in Hlast. subst. exact Hfree. }
  specialize (Hfree lg Hlast).
  apply last_Some in Hlast as [history ->].
  destruct (compact_generations_shape R history lg)
    as [(kept & _ & Heq & _)|[(_ & l & Hl & Heq)|(_ & Heq)]];
    cbv zeta in Heq; rewrite Heq; intros lg' Hlast'.
  - rewrite last_snoc in Hlast'. injection Hlast' as <-. exact Hfree.
  - cbn in Hlast'. injection Hlast' as <-. cbn [revisions]. intros Hin.
    apply Hfree. apply last_Some in Hl as [init Hrevs].
    rewrite Hrevs, removelast_last in Hin. rewrite Hrevs.
    apply elem_of_app in Hin as [Hin|Hin]; apply elem_of_app;
      [left; apply elem_of_List_filter in Hin; tauto|right; exact Hin].
  - discriminate.
Qed.

Lemma alone_in_latest_compact r1 R generations :
  alone_in_latest r1 generations ->
  (alone_in_latest r1 (fst (compact_generations R generations))
   \/ r1 ∉ all_revisions (fst (compact_generations R generations)))
  /\ (main R <= main r1 ->
      alone_in_latest r1 (fst (compact_generations R generations))).
Proof.
  intros [(lg & Hlast & Hc & Hin) Hfresh].
  apply last_Some in Hlast as [history ->]. rewrite removelast_last in Hfresh.
  assert (Hmain :
    alone_in_latest r1 (fst (compact_generations R (history ++ [lg])))
    \/ (main r1 < main R
        /\ r1 ∉ all_revisions (fst (compact_generations R (history ++ [lg]))))).
  { destruct (compact_generations_shape R history lg)
      as [(kept & Hne & Heq & Hsub)|[(_ & l & Hl & Heq)|([Hno|Hno] & _)]];
      try (cbv zeta in Heq; rewrite Heq).
    - left. split.
      + exists lg. rewrite last_snoc. auto.
      + rewrite removelast_last. intros Hk. apply Hfresh, Hsub, Hk.
    - apply last_Some in Hl as [init Hrevs]. rewrite Hrevs, removelast_last.
      rewrite Hrevs in Hin.
      assert (Hkept_in : r1 ∈ List.filter (keeps R) init ++ [l] ->
        alone_in_latest r1
          [mkGeneration (Some (get_create_revision lg)) (verison lg)
             (List.filter (keeps R) init ++ [l])]).
      { intros Hkept. split; [|cbn; apply not_elem_of_nil].
        eexists. split; [reflexivity|]. split; [reflexivity|exact Hkept]. }
      apply elem_of_app in Hin as [Hin|Hin].
      + destruct (Z.ltb_spec (main r1) (main R)) as [Hlt|Hge].
        * destruct (revision_same_or_not r1 l) as [->|Hnl].
          -- left. apply Hkept_in, elem_of_app. right. apply list_elem_of_here.
          -- right. split; [exact Hlt|].
             unfold all_revisions. cbn [map concat revisions]. rewrite app_nil_r.
             intros Hk. apply elem_of_app in Hk as [Hk|Hk].
             ++ apply elem_of_List_filter in Hk as [_ Hk].
                apply keeps_iff in Hk. unfold at_or_above in Hk. lia.
             ++ apply list_elem_of_singleton in Hk. contradiction.
        * left. apply Hkept_in, elem_of_app. left.
          apply elem_of_List_filter. split; [exact Hin|].
          apply keeps_iff. exact Hge.
      + left. apply Hkept_in, elem_of_app. right. exact Hin.
    - congruence.
    - rewrite Hno in Hin. inversion Hin. }
  split.
  - destruct Hmain as [Halone|[_ Hgone]]; [left|right]; assumption.
  - intros Hle. destruct Hmain as [Halone|[Hlt _]]; [assumption|lia].
Qed.

(** *** The history of one key along a list of steps *)

Lemma apply_step_generations st s key :
  let generations := generations_of st key in
  let generations' := generations_of (apply_step st s) key in
  match s with
  | StepCommand c =>
      (is_delete_of key c = false ->
       generations' = generations
       \/ generations' = generations_after_put generations (cmd_revision c))
      /\ (is_delete_of key c = true ->
          generations' = generations
          \/ generations' = generations_after_delete generations (cmd_revision c))
      /\ (is_delete_of key c = true -> generations <> [] ->
          generations' = generations_after_delete generations (cmd_revision c))
  | StepCompact k compact_revision =>
      generations'
      = if String.eqb k key
        then fst (compact_generations compact_revision generations)
        else generations
  end.
Proof.
  cbv zeta. destruct s as [c|k R]; cbn [apply_step].
  - apply apply_command_generations.
  - rewrite KvCompactApply_generations_of, String.eqb_sym.
    destruct (String.eqb_spec k key) as [->|_]; reflexivity.
Qed.

(** The key's history along steps whose puts and deletes have revisions
    strictly between [r1] and [bound]. *)
Lemma apply_steps_generations key r1 bound steps : forall st,
  (forall c, StepCommand c ∈ steps ->
             revision_lt r1 (cmd_revision c) /\ revision_lt (cmd_revision c) bound) ->
  revisions_below bound (generations_of st key) ->
  revisions_below bound (generations_of (apply_steps st steps) key)
  /\ (latest_free r1 (generations_of st key) ->
      latest_free r1 (generations_of (apply_steps st steps) key))
  /\ (r1 ∉ all_revisions (generations_of st key) ->
      r1 ∉ all_revisions (generations_of (apply_steps st steps) key))
  /\ (alone_in_latest r1 (generations_of st key) ->
      if forallb (fun s => negb (step_deletes key s)) steps
      then (alone_in_latest r1 (generations_of (apply_steps st steps) key)
            \/ r1 ∉ all_revisions (generations_of (apply_steps st steps) key))
           /\ (forallb (fun s => negb (step_compacts_above key r1 s)) steps = true ->
               alone_in_latest r1 (generations_of (apply_steps st steps) key))
      else latest_free r1 (generations_of (apply_steps st steps) key)).
Proof.
  induction steps as [|s steps IH]; intros st Hrevs Hbelow.
  - cbn. split; [assumption|]. split; [auto|]. split; [auto|].
    intros Halone. split; [left; assumption|intros _; assumption].
  - assert (Hrevs' : forall c, StepCommand c ∈ steps ->
              revision_lt r1 (cmd_revision c) /\ revision_lt (cmd_revision c) bound).
    { intros c Hc. apply Hrevs, list_elem_of_further, Hc. }
    pose proof (apply_step_generations st s key) as Hstep. cbv zeta in Hstep.
    cbn [apply_steps fold_left forallb].
    change (fold_left apply_step steps (apply_step st s))
      with (apply_steps (apply_step st s) steps).
    set (G := generations_of st key) in *.
    set (G' := generations_of (apply_step st s) key) in *.
    assert (Hfacts :
      revisions_below bound G'
      /\ (latest_free r1 G -> latest_free r1 G')
      /\ (r1 ∉ all_revisions G -> r1 ∉ all_revisions G')
      /\ (alone_in_latest r1 G ->
          if step_deletes key s then latest_free r1 G'
          else (alone_in_latest r1 G' \/ r1 ∉ all_revisions G')
               /\ (step_compacts_above key r1 s = false -> alone_in_latest r1 G'))).
    { destruct s as [c|k R]; cbn [step_deletes step_compacts_above].
      - pose proof (Hrevs c ltac:(apply list_elem_of_here)) as [Hgt Hlt].
        assert (Hne : cmd_revision c <> r1).
        { intros Heq. rewrite Heq in Hgt. exact (revision_lt_irrefl _ Hgt). }
        destruct Hstep as (Hput & Hdel & Hdel').
        destruct (is_delete_of key c) eqn:Hd.
        + split; [|split; [|split]].
          * destruct (Hdel eq_refl) as [->| ->];
              [assumption|apply revisions_below_after_delete; assumption].
          * intros Hfree. destruct (Hdel eq_refl) as [->| ->];
              [assumption|apply latest_free_after_delete; right; assumption].
          * intros Hgone. destruct (Hdel eq_refl) as [->| ->]; [assumption|].
            intros Hin. unfold generations_after_delete in Hin.
            destruct (last G) as [lg|] eqn:Hlast; [|inversion Hin].
            destruct (has_create_revision lg); [|contradiction].
            change (removelast G ++ [?a; ?b]) with (removelast G ++ [a] ++ [b]) in Hin.
            rewrite app_assoc, !all_revisions_app in Hin.
            unfold all_revisions in Hin at 2 3. cbn [map concat revisions] in Hin.
            rewrite ?app_nil_r in Hin. cbn [Generation_default revisions] in Hin.
            rewrite ?app_nil_r in Hin.
            apply Hgone. rewrite (all_revisions_removelast _ _ Hlast).
            apply elem_of_app in Hin as [Hin|Hin]; [apply elem_of_app; left; exact Hin|].
            apply elem_of_app in Hin as [Hin|Hin]; [apply elem_of_app; right; exact Hin|].
            apply list_elem_of_singleton in Hin. congruence.
          * intros Halone. destruct Halone as [Hholds _].
            assert (HG : G <> []).
            { destruct Hholds as (lg & Hlast & _). intros ->. discriminate. }
            rewrite (Hdel' eq_refl HG). apply latest_free_after_delete. left.
            exact Hholds.
        + split; [|split; [|split]].
          * destruct (Hput eq_refl) as [->| ->];
              [assumption|apply revisions_below_after_put; assumption].
          * intros Hfree. destruct (Hput eq_refl) as [->| ->];
              [assumption|apply latest_free_after_put; assumption].
          * intros Hgone. destruct (Hput eq_refl) as [->| ->]; [assumption|].
            rewrite all_revisions_after_put. intros [Hin|Heq]; [contradiction|].
            congruence.
          * intros Halone.
            assert (Halone' : alone_in_latest r1 G').
            { destruct (Hput eq_refl) as [->| ->];
                [assumption|apply alone_in_latest_after_put; assumption]. }
            split; [left; assumption|intros _; assumption].
      - destruct (String.eqb_spec k key) as [->|Hk]; rewrite Hstep.
        + split; [|split; [|split]].
          * intros x Hx. apply Hbelow, (compact_generations_revisions R), Hx.
          * apply latest_free_compact.
          * intros Hgone Hin. apply Hgone, (compact_generations_revisions R), Hin.
          * intros Halone.
            destruct (alone_in_latest_compact r1 R G Halone) as (Hor & Hkeep).
            cbn [andb]. split; [exact Hor|]. intros Habove.
            apply Hkeep. apply Z.ltb_ge. exact Habove.
        + cbn [andb]. split; [assumption|]. split; [auto|]. split; [auto|].
          intros Halone. split; [left; assumption|intros _; assumption]. }
    destruct Hfacts as (Hbelow' & Hfree' & Hgone' & Halone').
    destruct (IH (apply_step st s) Hrevs' Hbelow') as (IHb & IHf & IHg & IHa).
    fold G' in IHf, IHg, IHa.
    split; [assumption|]. split; [auto|]. split; [auto|].
    intros Halone. specialize (Halone' Halone).
    destruct (step_deletes key s); cbn [negb andb].
    + apply IHf, Halone'.
    + destruct Halone' as ([Hal|Hgo] & Hkeep).
      * specialize (IHa Hal).
        destruct (forallb (fun s0 => negb (step_deletes key s0)) steps);
          [|exact IHa].
        destruct IHa as (Hor & Hkeep').
        split; [exact Hor|]. intros Hnone.
        apply andb_prop in Hnone as [_ Hrest]. apply Hkeep', Hrest.
      * destruct (forallb (fun s0 => negb (step_deletes key s0)) steps).
        -- split; [right; apply IHg, Hgo|]. intros Hnone.
           apply andb_prop in Hnone as [Hs _]. apply negb_true_iff in Hs.
           specialize (IHa (Hkeep Hs)). destruct IHa as (_ & Hkeep').
           exfalso. destruct (Hkeep Hs) as [Hholds _].
           apply Hgo. destruct Hholds as (lg & Hlast & _ & Hin).
           rewrite (all_revisions_removelast _ _ Hlast). apply elem_of_app.
           right. exact Hin.
        -- apply IHf, latest_free_gone, Hgo.
Qed.

(** C4 (amended): take a put of [key] at revision r1 that is applied, then
    any puts, deletes and compactions, the puts and deletes with revisions
    strictly between r1 and r2, then a put of [key] at r2 that is applied,
    the revisions recorded for [key] beforehand being below r1. Afterwards
    r2 lies in the same generation of the key index as r1 exactly when no
    step in between is a delete of [key] and r1 is still listed by the key
    index; without a delete of [key], r1 is still listed when no step in
    between compacts [key] at a revision whose main revision is above that
    of r1. Moreover a put applied right after a delete, in whatever state
    the delete found the key, leaves as latest generation one that has the
    put's revision as create revision and as last revision, and version 1;
    if the delete found the key live, the pre-delete generation stays in
    the history, closed by the delete revision, and the new generation
    lists the put's revision alone. *)
Theorem put_generation_iff_no_delete st key r1 il1 l1 iv1 v1 steps r2 il2 l2 iv2 v2 :
  revisions_below r1 (generations_of st key) ->
  revision_lt r1 r2 ->
  (forall c, StepCommand c ∈ steps -> revision_lt r1 (cmd_revision c)
                                      /\ revision_lt (cmd_revision c) r2) ->
  let st1 := snd (KvPutApply st key r1 il1 l1 iv1 v1) in
  let st2 := apply_steps st1 steps in
  let st3 := snd (KvPutApply st2 key r2 il2 l2 iv2 v2) in
  fst (KvPutApply st key r1 il1 l1 iv1 v1) = OK ->
  fst (KvPutApply st2 key r2 il2 l2 iv2 v2) = OK ->
  (in_same_generation (generations_of st3 key) r1 r2 <->
   (forall s, s ∈ steps -> step_deletes key s = false)
   /\ r1 ∈ all_revisions (generations_of st3 key))
  /\ ((forall s, s ∈ steps -> step_deletes key s = false) ->
      (forall s, s ∈ steps -> step_compacts_above key r1 s = false) ->
      r1 ∈ all_revisions (generations_of st3 key))
  /\ (forall s rd rp il l iv v,
        let s1 := snd (KvDeleteApply s key rd) in
        let s2 := snd (KvPutApply s1 key rp il l iv v) in
        fst (KvPutApply s1 key rp il l iv v) = OK ->
        (exists lg', last (generations_of s2 key) = Some lg'
                     /\ create_revision lg' = Some rp
                     /\ verison lg' = 1
                     /\ last (revisions lg') = Some rp)
        /\ (forall lg, last (generations_of s key) = Some lg ->
                       has_create_revision lg = true ->
                       generations_of s2 key
                       = removelast (generations_of s key)
                         ++ [mkGeneration (create_revision lg)
                                          (wrap64 (verison lg + 1))
                                          (revisions lg ++ [rd]);
                             mkGeneration (Some rp) 1 [rp]])).
Proof.
  intros Hbelow Hlt Hsteps st1 st2 st3 Hput1 Hput2.
  assert (Hne : r1 <> r2).
  { intros Heq. rewrite Heq in Hlt. exact (revision_lt_irrefl _ Hlt). }
  destruct (KvPutApply_applied st key r1 il1 l1 iv1 v1 Hput1) as [Hgens1 _].
  fold st1 in Hgens1.
  assert (Hbelow1 : revisions_below r2 (generations_of st1 key)).
  { rewrite Hgens1. apply revisions_below_after_put; [|assumption].
    intros r Hr. apply (revision_lt_trans _ r1); [apply Hbelow, Hr|assumption]. }
  assert (Halone1 : alone_in_latest r1 (generations_of st1 key)).
  { rewrite Hgens1. apply alone_in_latest_first_put. intros Hin.
    exact (revision_lt_irrefl _ (Hbelow r1 Hin)). }
  destruct (apply_steps_generations key r1 r2 steps st1 Hsteps Hbelow1)
    as (Hbelow2 & _ & _ & Halone2).
  specialize (Halone2 Halone1). fold st2 in Hbelow2, Halone2.
  destruct (KvPutApply_applied st2 key r2 il2 l2 iv2 v2 Hput2) as [Hgens3 _].
  fold st3 in Hgens3.
  destruct (generations_after_put_last (generations_of st2 key) r2)
    as (lg' & Hlast' & _ & (old & Hrevs & Hold) & Heq).
  assert (Hlisted : r1 ∈ all_revisions (generations_of st3 key) <->
                    r1 ∈ all_revisions (generations_of st2 key)).
  { rewrite Hgens3, all_revisions_after_put. split; [|auto].
    intros [Hin|Hr]; [exact Hin|congruence]. }
  assert (Hshared : in_same_generation (generations_of st3 key) r1 r2 <->
                    exists lg, last (generations_of st2 key) = Some lg
                               /\ r1 ∈ revisions lg).
  { rewrite Hgens3, Heq. split.
    - intros (g & Hg & Hg1 & Hg2). apply elem_of_app in Hg as [Hg|Hg].
      + exfalso. apply (revision_lt_irrefl r2), Hbelow2, removelast_revisions,
          elem_of_all_revisions.
        exists g. split; assumption.
      + apply list_elem_of_singleton in Hg as ->. rewrite Hrevs in Hg1.
        apply elem_of_app in Hg1 as [Hg1|Hg1].
        * destruct (last (generations_of st2 key)) as [lg|]; subst old;
            [exists lg; auto|inversion Hg1].
        * apply list_elem_of_singleton in Hg1. contradiction.
    - intros (lg & Hlast & Hin). rewrite Hlast in Hold. subst old.
      exists lg'. split; [apply elem_of_app; right; apply list_elem_of_here|].
      rewrite Hrevs. split; apply elem_of_app;
        [left; assumption|right; apply list_elem_of_here]. }
  assert (Hall : forallb (fun s => negb (step_deletes key s)) steps = true <->
                 forall s, s ∈ steps -> step_deletes key s = false).
  { rewrite forallb_forall. split.
    - intros H s Hs. apply negb_true_iff, H, list_elem_of_In, Hs.
    - intros H s Hs. apply negb_true_iff, H, list_elem_of_In, Hs. }
  split; [|split].
  - rewrite Hshared, Hlisted, <- Hall.
    destruct (forallb (fun s => negb (step_deletes key s)) steps).
    + destruct Halone2 as ([[Hholds _]|Hgone] & _).
      * destruct Hholds as (lg & Hlast & _ & Hin). split.
        -- intros _. split; [reflexivity|].
           rewrite (all_revisions_removelast _ _ Hlast). apply elem_of_app.
           right. exact Hin.
        -- intros _. exists lg. auto.
      * split.
        -- intros (lg & Hlast & Hin). exfalso. apply Hgone.
           rewrite (all_revisions_removelast _ _ Hlast). apply elem_of_app.
           right. exact Hin.
        -- intros [_ Hin]. contradiction.
    + split.
      * intros (lg & Hlast & Hin). exfalso. exact (Halone2 lg Hlast Hin).
      * intros [Hf _]. discriminate.
  - intros Hnodel Hnocompact. apply Hlisted.
    apply Hall in Hnodel. rewrite Hnodel in Halone2.
    destruct Halone2 as (_ & Hkeep).
    destruct Hkeep as [(lg & Hlast & _ & Hin) _].
    { apply forallb_forall. intros s Hs.
      apply negb_true_iff, Hnocompact, list_elem_of_In, Hs. }
    rewrite (all_revisions_removelast _ _ Hlast). apply elem_of_app.
    right. exact Hin.
  - intros s rd rp il l iv v s1 s2 Hput.
    destruct (KvPutApply_applied s1 key rp il l iv v Hput) as [Hgens2 _].
    fold s2 in Hgens2.
    assert (Hgens1' : generations_of s1 key = generations_of s key
                      /\ generations_of s key = []
                      \/ generations_of s1 key
                         = generations_after_delete (generations_of s key) rd).
    { destruct (kv_index_map_ s !! key) as [kv_index|] eqn:Hidx.
      - right. apply (KvDeleteApply_applied s key rd kv_index Hidx).
      - left. subst s1. rewrite KvDeleteApply_unknown by assumption.
        unfold generations_of. rewrite Hidx. split; reflexivity. }
    split.
    + rewrite Hgens2. unfold generations_after_put.
      destruct Hgens1' as [[-> ->]| ->].
      * cbn. eexists. repeat split.
      * unfold generations_after_delete.
        destruct (last (generations_of s key)) as [lg|] eqn:Hlast.
        -- destruct (has_create_revision lg) eqn:Hc.
           ++ change (removelast (generations_of s key) ++ [?a; ?b])
                with (removelast (generations_of s key) ++ [a] ++ [b]).
              rewrite app_assoc, last_snoc. cbn [has_create_revision
                create_revision Generation_default]. rewrite last_snoc.
              eexists. repeat split.
           ++ rewrite Hlast, Hc, last_snoc. eexists.
              split; [reflexivity|]. cbn [create_revision verison revisions].
              repeat split. apply last_snoc.
        -- cbn. eexists. repeat split.
    + intros lg Hlast Hc.
      destruct Hgens1' as [[_ Hnil]|Hgens1'];
        [rewrite Hnil in Hlast; discriminate|].
      rewrite Hgens2, Hgens1'. unfold generations_after_delete. rewrite Hlast, Hc.
      unfold generations_after_put.
      change (removelast (generations_of s key) ++ [?a; ?b])
        with (removelast (generations_of s key) ++ [a] ++ [b]).
      rewrite app_assoc, last_snoc, removelast_last. cbn [has_create_revision
        create_revision Generation_default revisions app].
      rewrite <- app_assoc. reflexivity.
Qed.

(** ** Well-formed key indexes *)

Lemma KvIndex_wf_check_sound generations :
  KvIndex_wf_check generations = true -> KvIndex_wf generations.
Proof.
  unfold KvIndex_wf_check. intros H.
  apply andb_prop in H as [H Hsorted]. apply andb_prop in H as [H Hhist].
  apply andb_prop in H as [Hne Hopen].
  rewrite forallb_forall in Hopen, Hhist. constructor.
  - intros ->. discriminate.
  - intros g Hg. apply list_elem_of_In, Hopen in Hg.
    destruct (has_create_revision g), (revisions g); cbn in Hg; split;
      congruence.
  - intros g Hg. apply Hhist, list_elem_of_In, Hg.
  - apply bool_decide_eq_true in Hsorted. assumption.
Qed.

Lemma KvIndex_wf_first_put r :
  KvIndex_wf (generations_after_put [] r).
Proof.
  apply KvIndex_wf_check_sound. cbn.
  apply bool_decide_eq_true. repeat constructor.
Qed.

Lemma StronglySorted_snoc {A} (R : A -> A -> Prop) l x :
  StronglySorted R l -> (forall y, y ∈ l -> R y x) -> StronglySorted R (l ++ [x]).
Proof.
  intros Hl Hx. apply StronglySorted_app. split; [|split].
  - intros y z Hy Hz. apply list_elem_of_singleton in Hz as ->. apply Hx, Hy.
  - assumption.
  - repeat constructor.
Qed.

Lemma KvIndex_wf_after_put generations r :
  KvIndex_wf generations ->
  (forall x, x ∈ all_revisions generations -> main x <= main r) ->
  KvIndex_wf (generations_after_put generations r).
Proof.
  intros Hwf Hle.
  destruct (generations_after_put_last generations r)
    as (lg' & Hlast' & Hc' & (old & Hrevs & Hold) & Heq).
  destruct (proj2 (last_is_Some _) (wf_nonempty _ Hwf)) as [lg Hlast].
  rewrite Hlast in Hold. subst old. rewrite Heq. constructor.
  - destruct (removelast generations); discriminate.
  - intros g Hg. apply elem_of_app in Hg as [Hg|Hg].
    + apply (wf_open_nonempty _ Hwf), elem_of_removelast, Hg.
    + apply list_elem_of_singleton in Hg as ->. rewrite Hc', Hrevs.
      split; [intros _; destruct (revisions lg); discriminate|reflexivity].
  - rewrite removelast_last. apply (wf_history_open _ Hwf).
  - rewrite all_revisions_app, all_revisions_cons, Hrevs. cbn [all_revisions map concat].
    rewrite app_nil_r, app_assoc, <- (all_revisions_removelast _ _ Hlast).
    apply StronglySorted_snoc; [apply (wf_sorted _ Hwf)|assumption].
Qed.

Lemma KvIndex_wf_after_delete generations r :
  KvIndex_wf generations ->
  (forall x, x ∈ all_revisions generations -> main x <= main r) ->
  KvIndex_wf (generations_after_delete generations r).
Proof.
  intros Hwf Hle. unfold generations_after_delete.
  destruct (proj2 (last_is_Some _) (wf_nonempty _ Hwf)) as [lg Hlast].
  rewrite Hlast. destruct (has_create_revision lg) eqn:Hc; [|assumption].
  set (g' := mkGeneration (create_revision lg) (wrap64 (verison lg + 1))
                          (revisions lg ++ [r])).
  assert (Hg' : has_create_revision g' = true) by exact Hc.
  change (removelast generations ++ [g'; Generation_default])
    with (removelast generations ++ [g'] ++ [Generation_default]).
  rewrite app_assoc. constructor.
  - destruct (removelast generations ++ [g']); discriminate.
  - intros g Hg. apply elem_of_app in Hg as [Hg|Hg].
    + apply elem_of_app in Hg as [Hg|Hg].
      * apply (wf_open_nonempty _ Hwf), elem_of_removelast, Hg.
      * apply list_elem_of_singleton in Hg as ->. rewrite Hg'. cbn [g' revisions].
        split; [intros _; destruct (revisions lg); discriminate|reflexivity].
    + apply list_elem_of_singleton in Hg as ->. cbn. split; congruence.
  - rewrite removelast_last. intros g Hg. apply elem_of_app in Hg as [Hg|Hg].
    + apply (wf_history_open _ Hwf), Hg.
    + apply list_elem_of_singleton in Hg as ->. assumption.
  - rewrite !all_revisions_app. cbn [all_revisions map concat g' revisions].
    rewrite !app_nil_r, app_assoc, <- (all_revisions_removelast _ _ Hlast).
    apply StronglySorted_snoc; [apply (wf_sorted _ Hwf)|assumption].
Qed.


Lemma StronglySorted_List_filter {A} (R : A -> A -> Prop) (f : A -> bool) l :
  StronglySorted R l -> StronglySorted R (List.filter f l).
Proof.
  induction 1 as [|x l Hl IH Hx]; cbn [List.filter]; [constructor|].
  destruct (f x); [|assumption]. constructor; [assumption|].
  rewrite Forall_forall in *. intros y Hy. apply Hx.
  apply elem_of_List_filter in Hy. tauto.
Qed.

Lemma KvIndex_wf_compact R generations :
  KvIndex_wf generations ->
  fst (compact_generations R generations) <> [] ->
  KvIndex_wf (fst (compact_generations R generations)).
Proof.
  intros Hwf Hne.
  destruct (proj2 (last_is_Some _) (wf_nonempty _ Hwf)) as [lg Hlast].
  apply last_Some in Hlast as [history ->].
  pose proof (wf_sorted _ Hwf) as Hsorted.
  destruct (compact_generations_wf R history lg Hwf)
    as [(Hc & Hrevs & Hbelow & Heq)
       |[(init & l & Hc & Hrevs & Hbelow & Heq)
        |(pre & h & t & Hsplit & Hkept & Hbelow & Heq)]];
    rewrite Heq in *; cbn [fst] in *; [congruence| |].
  - rewrite all_revisions_app, all_revisions_cons, Hrevs in Hsorted.
    apply StronglySorted_app_1_r, StronglySorted_app_1_l in Hsorted.
    constructor.
    + discriminate.
    + intros g Hg. apply list_elem_of_singleton in Hg as ->. cbn.
      split; [intros _; destruct (List.filter (keeps R) init); discriminate|reflexivity].
    + intros g Hg. inversion Hg.
    + unfold all_revisions. cbn. rewrite app_nil_r.
      apply StronglySorted_app in Hsorted as (Hcross & Hinit & _).
      apply StronglySorted_snoc; [apply StronglySorted_List_filter, Hinit|].
      intros y Hy. apply elem_of_List_filter in Hy as [Hy _].
      apply Hcross; [assumption|apply list_elem_of_here].
  - subst history.
    assert (Hh : has_create_revision h = true).
    { apply (wf_history_open _ Hwf). rewrite removelast_last.
      apply elem_of_app. right. apply list_elem_of_here. }
    rewrite <- app_assoc, all_revisions_app in Hsorted.
    apply StronglySorted_app_1_r in Hsorted.
    change ((h :: t) ++ [lg]) with (h :: (t ++ [lg])) in Hsorted.
    rewrite all_revisions_cons in Hsorted.
    constructor.
    + discriminate.
    + intros g Hg. apply elem_of_cons in Hg as [->|Hg].
      * cbn. split; [intros _; assumption|reflexivity].
      * apply (wf_open_nonempty _ Hwf). rewrite <- app_assoc.
        apply elem_of_app. right. apply list_elem_of_further, Hg.
    + change (?a :: t ++ [lg]) with ((a :: t) ++ [lg]). rewrite removelast_last.
      intros g Hg. apply elem_of_cons in Hg as [->|Hg]; [reflexivity|].
      apply (wf_history_open _ Hwf). rewrite removelast_last.
      apply elem_of_app. right. apply list_elem_of_further, Hg.
    + rewrite all_revisions_cons. cbn [revisions].
      apply StronglySorted_app in Hsorted as (Hcross & Hhrev & Hrest).
      apply StronglySorted_app. split; [|split].
      * intros x y Hx Hy. apply elem_of_List_filter in Hx as [Hx _]. auto.
      * apply StronglySorted_List_filter, Hhrev.
      * assumption.
Qed.

(** ** The invariants of the controller state *)

Lemma KvControl_wf_empty : KvControl_wf KvControl_empty.
Proof. intros key kv_index H. cbn in H. rewrite lookup_empty in H. discriminate. Qed.

Lemma generations_of_known st key kv_index :
  kv_index_map_ st !! key = Some kv_index ->
  generations_of st key = kvi_generations kv_index.
Proof. unfold generations_of. intros ->. reflexivity. Qed.

Lemma KvControl_wf_generations st key :
  KvControl_wf st ->
  generations_of st key = [] \/ KvIndex_wf (generations_of st key).
Proof.
  intros Hwf. unfold generations_of.
  destruct (kv_index_map_ st !! key) as [kv_index|] eqn:Hidx; [|left; reflexivity].
  right. apply (Hwf key), Hidx.
Qed.

Lemma KvControl_wf_step st st' key :
  KvControl_wf st ->
  (forall k, k <> key -> kv_index_map_ st' !! k = kv_index_map_ st !! k) ->
  (generations_of st' key <> [] -> KvIndex_wf (generations_of st' key)) ->
  (forall kv_index, kv_index_map_ st' !! key = Some kv_index ->
                    kvi_generations kv_index <> []) ->
  KvControl_wf st'.
Proof.
  intros Hwf Hother Hkey Hne k kv_index Hidx.
  destruct (decide (k = key)) as [->|Hk].
  - rewrite <- (generations_of_known _ _ _ Hidx). apply Hkey.
    rewrite (generations_of_known _ _ _ Hidx). apply Hne, Hidx.
  - rewrite Hother in Hidx by assumption. apply (Hwf k), Hidx.
Qed.

Lemma generations_after_put_nonempty generations r :
  generations_after_put generations r <> [].
Proof.
  unfold generations_after_put. destruct (last generations);
    [destruct (removelast generations)|]; discriminate.
Qed.

(** A put whose main revision is not below the ones recorded for the key
    keeps every key index well formed. *)
Lemma KvPutApply_preserves_wf st key r ignore_lease lease_id ignore_value value :
  KvControl_wf st ->
  (forall x, x ∈ all_revisions (generations_of st key) -> main x <= main r) ->
  KvControl_wf (snd (KvPutApply st key r ignore_lease lease_id ignore_value value)).
Proof.
  intros Hwf Hle.
  destruct (fst (KvPutApply st key r ignore_lease lease_id ignore_value value)) eqn:Hret.
  2:{ rewrite KvPutApply_failed by (rewrite Hret; discriminate). assumption. }
  destruct (KvPutApply_applied st key r ignore_lease lease_id ignore_value value Hret)
    as [Hgens Hother].
  apply (KvControl_wf_step st _ key Hwf Hother).
  - intros _. rewrite Hgens.
    destruct (KvControl_wf_generations st key Hwf) as [Hnil|Hkey].
    + rewrite Hnil. apply KvIndex_wf_first_put.
    + apply KvIndex_wf_after_put; assumption.
  - intros kv_index Hidx. rewrite <- (generations_of_known _ _ _ Hidx), Hgens.
    apply generations_after_put_nonempty.
Qed.

Lemma KvDeleteApply_preserves_wf st key r :
  KvControl_wf st ->
  (forall x, x ∈ all_revisions (generations_of st key) -> main x <= main r) ->
  KvControl_wf (snd (KvDeleteApply st key r)).
Proof.
  intros Hwf Hle.
  destruct (kv_index_map_ st !! key) as [kv_index|] eqn:Hidx.
  2:{ rewrite KvDeleteApply_unknown by assumption. assumption. }
  destruct (KvDeleteApply_applied st key r kv_index Hidx) as [Hgens Hother].
  assert (Hkey : KvIndex_wf (generations_of (snd (KvDeleteApply st key r)) key)).
  { rewrite Hgens. apply KvIndex_wf_after_delete; [|assumption].
    rewrite (generations_of_known _ _ _ Hidx). apply (Hwf key), Hidx. }
  apply (KvControl_wf_step st _ key Hwf Hother).
  - intros _. assumption.
  - intros kv_index' Hidx'. rewrite <- (generations_of_known _ _ _ Hidx').
    apply (wf_nonempty _ Hkey).
Qed.

Lemma KvCompactApply_preserves_wf st key R :
  KvControl_wf st -> KvControl_wf (snd (KvCompactApply st key R)).
Proof.
  intros Hwf.
  destruct (kv_index_map_ st !! key) as [kv_index|] eqn:Hidx.
  2:{ unfold KvCompactApply, GetRawKvIndex. rewrite Hidx. assumption. }
  pose proof (Hwf key kv_index Hidx) as Hkey.
  pose proof (KvCompactApply_generations st key R kv_index Hidx (wf_nonempty _ Hkey))
    as Hstate.
  pose proof (KvIndex_wf_compact R _ Hkey) as Hcompact.
  destruct (compact_generations R (kvi_generations kv_index)) as [ng del] eqn:Hcg.
  cbn [fst] in Hcompact. destruct Hstate as (Hnew & Herased & _).
  apply (KvControl_wf_step st _ key Hwf).
  - intros k Hk. unfold KvCompactApply, GetRawKvIndex. rewrite Hidx. cbn [ok negb].
    destruct (Nat.eqb (length (kvi_generations kv_index)) 0); [reflexivity|].
    rewrite Hcg.
    destruct (Nat.eqb (length ng) 0);
      cbn [DeleteRawKvIndex PutRawKvIndex snd];
      rewrite delete_revisions_kv_index_map; cbn [with_kv_index_map kv_index_map_];
      [apply lookup_delete_ne|apply lookup_insert_ne]; congruence.
  - rewrite Hnew. assumption.
  - intros kv_index' Hidx' Hnil.
    rewrite <- (generations_of_known _ _ _ Hidx'), Hnew in Hnil.
    rewrite (Herased Hnil) in Hidx'. discriminate.
Qed.


Lemma keyed_empty : keyed KvControl_empty.
Proof. apply map_Forall_empty. Qed.

Lemma keyed_insert st st' key kv_index :
  keyed st -> kvi_id kv_index = key ->
  kv_index_map_ st' = <[key := kv_index]> (kv_index_map_ st) ->
  keyed st'.
Proof.
  unfold keyed. intros Hkeyed Hid ->. apply map_Forall_insert_2; assumption.
Qed.

Lemma KvPutApply_preserves_keyed st key r ignore_lease lease_id ignore_value value :
  keyed st ->
  keyed (snd (KvPutApply st key r ignore_lease lease_id ignore_value value)).
Proof.
  intros Hkeyed. unfold KvPutApply.
  assert (Hid : kvi_id (fst (fst (fst (fst (KvPutApply_index st key r))))) = key).
  { unfold KvPutApply_index, GetRawKvIndex.
    destruct (kv_index_map_ st !! key) as [kv_index|] eqn:Hidx; cbn [ok negb];
      [|reflexivity].
    pose proof (Hkeyed key kv_index Hidx) as Hk. cbn beta in Hk.
    destruct (last (kvi_generations kv_index)) as [lg|]; [|exact Hk].
    destruct (has_create_revision lg); exact Hk. }
  destruct (KvPutApply_index st key r) as [[[[kv_index lm] cr] v] pk].
  cbn [fst] in Hid.
  match goal with |- context [if ?c then _ else _] => destruct c end;
    cbn [snd PutRawKvIndex PutRawKvRev ok negb]; [assumption|].
  match goal with |- context [if ?c then _ else _] => destruct c end;
    apply (keyed_insert st _ key kv_index Hkeyed Hid); reflexivity.
Qed.

Lemma KvDeleteApply_preserves_keyed st key r :
  keyed st -> keyed (snd (KvDeleteApply st key r)).
Proof.
  intros Hkeyed. unfold KvDeleteApply, GetRawKvIndex.
  destruct (kv_index_map_ st !! key) as [kv_index|] eqn:Hidx; cbn [ok negb snd];
    [|assumption].
  assert (Hid : kvi_id (fst (fst (fst (fst (KvDeleteApply_index kv_index r))))) = key).
  { pose proof (Hkeyed key kv_index Hidx) as Hk. cbn beta in Hk.
    unfold KvDeleteApply_index.
    destruct (last (kvi_generations kv_index)) as [lg|]; [|exact Hk].
    destruct (has_create_revision lg); exact Hk. }
  destruct (KvDeleteApply_index kv_index r) as [[[[kv_index' lm] cr] v] pk].
  cbn [fst] in Hid. cbn [PutRawKvIndex PutRawKvRev ok negb].
  match goal with |- context [if ?c then _ else _] => destruct c end;
    apply (keyed_insert st _ key kv_index' Hkeyed Hid); reflexivity.
Qed.

Lemma KvCompactApply_preserves_keyed st key R :
  keyed st -> keyed (snd (KvCompactApply st key R)).
Proof.
  intros Hkeyed. unfold KvCompactApply, GetRawKvIndex.
  destruct (kv_index_map_ st !! key) as [kv_index|] eqn:Hidx; cbn [ok negb snd];
    [|assumption].
  destruct (Nat.eqb (length (kvi_generations kv_index)) 0); [assumption|].
  destruct (compact_generations R (kvi_generations kv_index)) as [ng del].
  destruct (Nat.eqb (length ng) 0); cbn [DeleteRawKvIndex PutRawKvIndex snd];
    unfold keyed; rewrite delete_revisions_kv_index_map;
    cbn [with_kv_index_map kv_index_map_].
  - apply map_Forall_delete, Hkeyed.
  - apply map_Forall_insert_2; [|assumption]. apply (Hkeyed key kv_index Hidx).
Qed.

(** Revision keys are injective on 64-bit revisions, so distinct revisions
    never share an entry of the revision map. *)
Lemma RevisionToString_inj r1 r2 :
  - 2 ^ 63 <= main r1 < 2 ^ 63 -> - 2 ^ 63 <= sub r1 < 2 ^ 63 ->
  - 2 ^ 63 <= main r2 < 2 ^ 63 -> - 2 ^ 63 <= sub r2 < 2 ^ 63 ->
  RevisionToString r1 = RevisionToString r2 -> r1 = r2.
Proof.
  intros Hm1 Hs1 Hm2 Hs2 Heq.
  rewrite <- (StringToRevision_RevisionToString r1), <- (StringToRevision_RevisionToString r2)
    by assumption.
  rewrite Heq. reflexivity.
Qed.


(** ** The compaction task *)

Lemma CompactionTask_loop_batches keys : forall keys_to_compact issued,
  (length keys_to_compact <= 50)%nat ->
  Forall (fun batch => length batch = 50%nat) issued ->
  (length (fst (CompactionTask_loop keys keys_to_compact issued)) <= 50)%nat
  /\ Forall (fun batch => length batch = 50%nat)
            (snd (CompactionTask_loop keys keys_to_compact issued)).
Proof.
  induction keys as [|key rest IH]; intros ktc issued Hlen Hissued;
    cbn [CompactionTask_loop]; [split; assumption|].
  destruct (Nat.ltb_spec (length ktc) 50).
  - apply IH; [rewrite length_app; cbn; lia|assumption].
  - apply IH; [cbn; lia|]. apply Forall_app. split; [assumption|].
    constructor; [lia|constructor].
Qed.

(** What does hold of the issued commands: every batch has between one and
    fifty keys and carries the revision next_revision minus the retention
    count, with sub revision 0. *)
Lemma CompactionTask_batches st now_revision batch compact_revision :
  (batch, compact_revision) ∈ CompactionTask st now_revision ->
  (0 < length batch <= 50)%nat
  /\ compact_revision
     = mkRevision (now_revision - FLAGS_compaction_retention_rev_count) 0.
Proof.
  unfold CompactionTask.
  destruct FLAGS_auto_compaction; cbn [negb]; [|intros H; inversion H].
  destruct (now_revision <? FLAGS_compaction_retention_rev_count);
    [intros H; inversion H|].
  pose proof (CompactionTask_loop_batches (GetAllKeys (kv_index_map_ st)) [] []
                ltac:(cbn; lia) ltac:(constructor)) as [Hlast Hissued].
  destruct (CompactionTask_loop (GetAllKeys (kv_index_map_ st)) [] [])
    as [ktc issued]. cbn [fst snd] in Hlast, Hissued.
  intros Hin. apply list_elem_of_In, in_map_iff in Hin as (b & Heq & Hb).
  injection Heq as -> <-. split; [|reflexivity].
  apply list_elem_of_In in Hb.
  destruct (Nat.eqb_spec (length ktc) 0); cbn [negb] in Hb.
  - rewrite Forall_forall in Hissued. rewrite (Hissued _ Hb). lia.
  - apply elem_of_app in Hb as [Hb|Hb].
    + rewrite Forall_forall in Hissued. rewrite (Hissued _ Hb). lia.
    + apply list_elem_of_singleton in Hb as ->. lia.
Qed.


(** ** States reached by puts and deletes *)

Lemma elem_of_all_revisions_after_put generations r x :
  x ∈ all_revisions (generations_after_put generations r) ->
  x ∈ all_revisions generations \/ x = r.
Proof.
  intros Hx.
  destruct (generations_after_put_last generations r)
    as (lg' & _ & _ & (old & Hrevs & Hold) & Heq).
  rewrite Heq, all_revisions_app, all_revisions_cons, Hrevs in Hx.
  cbn in Hx. rewrite app_nil_r in Hx.
  apply elem_of_app in Hx as [Hx|Hx].
  - left. apply elem_of_all_revisions in Hx as (g & Hg & Hx).
    apply elem_of_all_revisions. exists g.
    split; [apply elem_of_removelast, Hg|assumption].
  - apply elem_of_app in Hx as [Hx|Hx].
    + left. destruct (last generations) as [lg|] eqn:Hlast; subst old; [|inversion Hx].
      rewrite (all_revisions_removelast _ _ Hlast).
      apply elem_of_app. right. assumption.
    + right. apply list_elem_of_singleton in Hx. assumption.
Qed.

Lemma elem_of_all_revisions_after_delete generations r x :
  x ∈ all_revisions (generations_after_delete generations r) ->
  x ∈ all_revisions generations \/ x = r.
Proof.
  unfold generations_after_delete. intros Hx.
  destruct (last generations) as [lg|] eqn:Hlast.
  - destruct (has_create_revision lg); [|left; assumption].
    rewrite all_revisions_app in Hx. cbn in Hx. rewrite app_nil_r in Hx.
    rewrite (all_revisions_removelast _ _ Hlast).
    apply elem_of_app in Hx as [Hx|Hx]; [left; apply elem_of_app; left; assumption|].
    apply elem_of_app in Hx as [Hx|Hx]; [left; apply elem_of_app; right; assumption|].
    right. apply list_elem_of_singleton in Hx. assumption.
  - cbn in Hx. inversion Hx.
Qed.

Lemma apply_command_reached st c m :
  KvControl_wf st -> keyed st -> revisions_bounded st m ->
  m <= main (cmd_revision c) ->
  KvControl_wf (apply_command st c) /\ keyed (apply_command st c)
  /\ revisions_bounded (apply_command st c) (main (cmd_revision c)).
Proof.
  intros Hwf Hkeyed Hbound Hm. split; [|split].
  - destruct c as [k r il l iv v|k r]; cbn [apply_command cmd_revision] in *;
      [apply KvPutApply_preserves_wf|apply KvDeleteApply_preserves_wf];
      try assumption; intros x Hx; specialize (Hbound k x Hx); lia.
  - destruct c as [k r il l iv v|k r]; cbn [apply_command];
      [apply KvPutApply_preserves_keyed|apply KvDeleteApply_preserves_keyed];
      assumption.
  - intros key x Hx.
    destruct (apply_command_generations st c key) as (Hput & Hdel & _).
    destruct (is_delete_of key c).
    + destruct (Hdel eq_refl) as [Heq|Heq]; rewrite Heq in Hx.
      * specialize (Hbound key x Hx). lia.
      * apply elem_of_all_revisions_after_delete in Hx as [Hx| ->]; [|lia].
        specialize (Hbound key x Hx). lia.
    + destruct (Hput eq_refl) as [Heq|Heq]; rewrite Heq in Hx.
      * specialize (Hbound key x Hx). lia.
      * apply elem_of_all_revisions_after_put in Hx as [Hx| ->]; [|lia].
        specialize (Hbound key x Hx). lia.
Qed.

(** Every state reached from a well-formed one by puts and deletes whose
    main revisions never decrease is well formed, with every key index
    stored under its own id. *)
Lemma apply_commands_reached cmds : forall st m,
  KvControl_wf st -> keyed st -> revisions_bounded st m ->
  StronglySorted (fun a b => main (cmd_revision a) <= main (cmd_revision b)) cmds ->
  Forall (fun c => m <= main (cmd_revision c)) cmds ->
  KvControl_wf (apply_commands st cmds) /\ keyed (apply_commands st cmds).
Proof.
  induction cmds as [|c cmds IH]; intros st m Hwf Hkeyed Hbound Hsorted Hm;
    [split; assumption|].
  apply StronglySorted_cons in Hsorted as [Hc Hsorted].
  apply Forall_cons in Hm as [Hmc _].
  destruct (apply_command_reached st c m Hwf Hkeyed Hbound Hmc)
    as (Hwf' & Hkeyed' & Hbound').
  apply (IH (apply_command st c) (main (cmd_revision c))); assumption.
Qed.

Lemma revisions_bounded_empty m : revisions_bounded KvControl_empty m.
Proof. intros key x Hx. cbn in Hx. inversion Hx. Qed.

(** * Further properties of the code *)

(** ** The state a put leaves behind *)

(** Everything [KvPutApply] changes when it goes through: the key index of
    [key], the record at the put's revision and two entries of the
    meta-writer log. *)
Lemma KvPutApply_written st key r ignore_lease lease_id ignore_value value :
  fst (KvPutApply st key r ignore_lease lease_id ignore_value value) = OK ->
  let st' := snd (KvPutApply st key r ignore_lease lease_id ignore_value value) in
  let '(kv_index, _, new_create_revision, new_version, _) :=
    KvPutApply_index st key r in
  let kv_rev :=
    mkKvRev (RevisionToString r)
      (mkKvInternal key
         (if negb ignore_value then value
          else kv_value (rev_kv (KvPutApply_kv_rev_last st key r)))
         new_create_revision r new_version
         (KvPutApply_lease st key r ignore_lease lease_id) false) in
  kv_index_map_ st' = <[key := kv_index]> (kv_index_map_ st)
  /\ kv_rev_map_ st' = <[RevisionToString r := kv_rev]> (kv_rev_map_ st)
  /\ kv_lease_map_ st' = kv_lease_map_ st
  /\ meta_writer_ st'
     = meta_writer_ st ++ [MetaPutKvIndex kv_index; MetaPutKvRev kv_rev]
  /\ one_time_watch_map_ st' = one_time_watch_map_ st.
Proof.
  unfold KvPutApply.
  destruct (KvPutApply_index st key r) as [[[[kv_index lm] cr] v] pk].
  match goal with |- context [if ?c then _ else _] => destruct c end;
    cbn [fst snd PutRawKvIndex PutRawKvRev ok negb]; [discriminate|].
  intros _.
  match goal with |- context [if ?c then _ else _] => destruct c end;
    cbn [snd]; unfold TriggerOneWatch, with_kv_rev_map, with_kv_index_map;
    cbn [kv_index_map_ kv_rev_map_ kv_lease_map_ meta_writer_ one_time_watch_map_];
    rewrite <- app_assoc; repeat split; reflexivity.
Qed.

(** The key index a put writes: id, mod revision and generations. *)
Lemma KvPutApply_index_shape st key r :
  let '(kv_index, _, new_create_revision, new_version, _) :=
    KvPutApply_index st key r in
  kvi_mod_revision kv_index = r
  /\ kvi_generations kv_index = generations_after_put (generations_of st key) r
  /\ exists lg', last (kvi_generations kv_index) = Some lg'
                 /\ new_create_revision = get_create_revision lg'
                 /\ new_version = verison lg'.
Proof.
  unfold KvPutApply_index, generations_of, generations_after_put, GetRawKvIndex.
  destruct (kv_index_map_ st !! key) as [kv_index|]; cbn [ok negb last].
  2:{ cbn. repeat split. eexists. repeat split. }
  destruct (last (kvi_generations kv_index)) as [lg|].
  2:{ cbn. repeat split. eexists. repeat split. }
  destruct (has_create_revision lg); cbn [kvi_mod_revision kvi_generations];
    rewrite last_snoc; repeat split; eexists; repeat split.
Qed.

Lemma KvPutApply_current st key r ignore_lease lease_id ignore_value value :
  fst (KvPutApply st key r ignore_lease lease_id ignore_value value) = OK ->
  let st' := snd (KvPutApply st key r ignore_lease lease_id ignore_value value) in
  let '(kv_index, _, new_create_revision, new_version, _) :=
    KvPutApply_index st key r in
  kv_index_map_ st' !! key = Some kv_index
  /\ latest_generation_live kv_index = true
  /\ current_KvRev st' key
     = Some (mkKvRev (RevisionToString r)
               (mkKvInternal key
                  (if negb ignore_value then value
                   else kv_value (rev_kv (KvPutApply_kv_rev_last st key r)))
                  new_create_revision r new_version
                  (KvPutApply_lease st key r ignore_lease lease_id) false)).
Proof.
  intros Hok. cbv zeta.
  pose proof (KvPutApply_written st key r ignore_lease lease_id ignore_value value Hok)
    as Hwritten.
  pose proof (KvPutApply_index_shape st key r) as Hshape.
  cbv zeta in Hwritten.
  destruct (KvPutApply_index st key r) as [[[[kv_index lm] cr] v] pk].
  destruct Hwritten as (Hidx & Hrev & _).
  destruct Hshape as (Hmod & Hgens & _).
  assert (Hlive : latest_generation_live kv_index = true).
  { unfold latest_generation_live. rewrite Hgens.
    destruct (generations_after_put_last (generations_of st key) r)
      as (lg' & Hlast & Hc & (old & Hrevs & _) & _).
    rewrite Hlast, Hc, Hrevs, length_app. cbn [length negb orb].
    rewrite Nat.add_1_r. reflexivity. }
  assert (Hlookup : kv_index_map_
            (snd (KvPutApply st key r ignore_lease lease_id ignore_value value))
            !! key = Some kv_index).
  { rewrite Hidx. apply lookup_insert_eq. }
  split; [assumption|]. split; [assumption|].
  unfold current_KvRev. rewrite Hlookup, Hlive, Hmod, Hrev. apply lookup_insert_eq.
Qed.

(** X1: a put that goes through can be read back at once: the point read of
    the key returns exactly one key-value, with the key, the value written
    (the one reused under ignore_value; none for a keys-only read), the
    put's main revision as mod revision and the lease the put resolved. *)
Theorem KvPutApply_read_your_write st key r ignore_lease lease_id ignore_value value
    keys_only :
  fst (KvPutApply st key r ignore_lease lease_id ignore_value value) = OK ->
  let st' := snd (KvPutApply st key r ignore_lease lease_id ignore_value value) in
  exists kv,
    KvRange st' key EmptyString 0 keys_only false [] 0 = (OK, [kv], 1)
    /\ vkv_key kv = key
    /\ vkv_value kv
       = (if keys_only then EmptyString
          else if ignore_value
               then kv_value (rev_kv (KvPutApply_kv_rev_last st key r))
               else value)
    /\ vkv_mod_revision kv = main r
    /\ vkv_lease kv = KvPutApply_lease st key r ignore_lease lease_id.
Proof.
  intros Hok st'.
  pose proof (KvPutApply_current st key r ignore_lease lease_id ignore_value value Hok)
    as Hcur.
  pose proof (KvPutApply_index_shape st key r) as Hshape.
  cbv zeta in Hcur. fold st' in Hcur.
  destruct (KvPutApply_index st key r) as [[[[kv_index lm] cr] v] pk].
  destruct Hcur as (Hidx & Hlive & Hcur). destruct Hshape as (Hmod & _).
  unfold current_KvRev in Hcur. rewrite Hidx, Hlive in Hcur.
  eexists. rewrite KvRange_point, Hidx. cbn [Z.eqb KvRange_loop].
  rewrite Hlive. cbn [negb]. change (wrap_u32 (0 + 1) >? INT64_MAX) with false.
  cbv iota. unfold GetRawKvRev. rewrite Hcur. cbn [ok negb app length].
  split; [reflexivity|]. cbn. repeat split.
  destruct keys_only, ignore_value; reflexivity.
Qed.

(** X2: the record a put stores continues the generation it lands in: when
    the key's latest generation has a create revision, the version is that
    generation's version plus one and the create revision is kept;
    otherwise (unknown key, no generation, or a tombstone) the version is 1
    and the create revision is the put's own revision. *)
Theorem KvPutApply_version_and_create st key r ignore_lease lease_id ignore_value value :
  fst (KvPutApply st key r ignore_lease lease_id ignore_value value) = OK ->
  let st' := snd (KvPutApply st key r ignore_lease lease_id ignore_value value) in
  exists kv_rev,
    current_KvRev st' key = Some kv_rev
    /\ kv_mod_revision (rev_kv kv_rev) = r
    /\ kv_is_deleted (rev_kv kv_rev) = false
    /\ match last (generations_of st key) with
       | Some lg =>
           if has_create_revision lg
           then kv_version (rev_kv kv_rev) = wrap64 (verison lg + 1)
                /\ kv_create_revision (rev_kv kv_rev) = get_create_revision lg
           else kv_version (rev_kv kv_rev) = 1
                /\ kv_create_revision (rev_kv kv_rev) = r
       | None => kv_version (rev_kv kv_rev) = 1
                 /\ kv_create_revision (rev_kv kv_rev) = r
       end.
Proof.
  intros Hok st'.
  pose proof (KvPutApply_current st key r ignore_lease lease_id ignore_value value Hok)
    as Hcur.
  pose proof (KvPutApply_index_shape st key r) as Hshape.
  cbv zeta in Hcur. fold st' in Hcur.
  destruct (KvPutApply_index st key r) as [[[[kv_index lm] cr] v] pk].
  destruct Hcur as (_ & _ & Hcur).
  destruct Hshape as (_ & Hgens & lg' & Hlast' & -> & ->).
  eexists. split; [exact Hcur|]. cbn [rev_kv kv_mod_revision kv_is_deleted
    kv_version kv_create_revision]. split; [reflexivity|]. split; [reflexivity|].
  rewrite Hgens in Hlast'. unfold generations_after_put in Hlast'.
  destruct (last (generations_of st key)) as [lg|].
  - rewrite last_snoc in Hlast'. injection Hlast' as <-.
    destruct (has_create_revision lg) eqn:Hc; cbn; [|split; reflexivity].
    split; [reflexivity|]. destruct lg as [[c|] ver revs]; cbn in *; congruence.
  - cbn in Hlast'. injection Hlast' as <-. cbn. split; reflexivity.
Qed.

(** X3: a put, applied or rejected, touches nothing but the key index of its
    key and the record at its revision: every other key index, every other
    revision record and the lease registry stay as they were. *)
Theorem KvPutApply_frame st key r ignore_lease lease_id ignore_value value :
  let st' := snd (KvPutApply st key r ignore_lease lease_id ignore_value value) in
  (forall k, k <> key -> kv_index_map_ st' !! k = kv_index_map_ st !! k)
  /\ (forall s, s <> RevisionToString r ->
                kv_rev_map_ st' !! s = kv_rev_map_ st !! s)
  /\ kv_lease_map_ st' = kv_lease_map_ st.
Proof.
  cbv zeta.
  destruct (fst (KvPutApply st key r ignore_lease lease_id ignore_value value)) eqn:Hret.
  - pose proof (KvPutApply_written st key r ignore_lease lease_id ignore_value value
                  Hret) as Hwritten.
    cbv zeta in Hwritten.
    destruct (KvPutApply_index st key r) as [[[[kv_index lm] cr] v] pk].
    destruct Hwritten as (Hidx & Hrev & Hlease & _).
    rewrite Hidx, Hrev, Hlease. repeat split.
    + intros k Hk. apply lookup_insert_ne. congruence.
    + intros s Hs. apply lookup_insert_ne. congruence.
  - rewrite KvPutApply_failed by (rewrite Hret; discriminate). repeat split.
Qed.

(** X4: on a key whose index is known and whose record at the previous mod
    revision exists, a put with ignore_value stores that record's value and
    a put with ignore_lease stores that record's lease, whatever value and
    lease id were supplied. *)
Theorem KvPutApply_ignore_flags_reuse st key r ignore_lease lease_id ignore_value value
    kv_index prev :
  kv_index_map_ st !! key = Some kv_index ->
  kv_rev_map_ st !! RevisionToString (kvi_mod_revision kv_index) = Some prev ->
  fst (KvPutApply st key r ignore_lease lease_id ignore_value value) = OK ->
  let st' := snd (KvPutApply st key r ignore_lease lease_id ignore_value value) in
  exists kv_rev,
    current_KvRev st' key = Some kv_rev
    /\ kv_value (rev_kv kv_rev)
       = (if ignore_value then kv_value (rev_kv prev) else value)
    /\ kv_lease (rev_kv kv_rev)
       = (if ignore_lease then kv_lease (rev_kv prev) else lease_id).
Proof.
  intros Hidx Hprev Hok st'.
  pose proof (KvPutApply_current st key r ignore_lease lease_id ignore_value value Hok)
    as Hcur.
  cbv zeta in Hcur. fold st' in Hcur.
  assert (Hlast : KvPutApply_kv_rev_last st key r = prev).
  { rewrite (KvPutApply_last_mod_revision _ _ _ _ Hidx).
    unfold GetRawKvRev. rewrite Hprev. reflexivity. }
  unfold KvPutApply_lease in Hcur. rewrite Hlast in Hcur.
  destruct (KvPutApply_index st key r) as [[[[kv_index' lm] cr] v] pk].
  destruct Hcur as (_ & _ & Hcur).
  eexists. split; [exact Hcur|]. cbn. split; [destruct ignore_value|]; reflexivity.
Qed.

(** ** The state a delete leaves behind *)

Lemma KvDeleteApply_written st key r kv_index :
  kv_index_map_ st !! key = Some kv_index ->
  let st' := snd (KvDeleteApply st key r) in
  let '(kv_index', _, new_create_revision, new_version, _) :=
    KvDeleteApply_index kv_index r in
  let kv_rev :=
    mkKvRev (RevisionToString r)
      (mkKvInternal key EmptyString new_create_revision r new_version 0 true) in
  fst (KvDeleteApply st key r) = OK
  /\ kv_index_map_ st' = <[key := kv_index']> (kv_index_map_ st)
  /\ kv_rev_map_ st' = <[RevisionToString r := kv_rev]> (kv_rev_map_ st)
  /\ kv_lease_map_ st' = kv_lease_map_ st
  /\ meta_writer_ st'
     = meta_writer_ st ++ [MetaPutKvIndex kv_index'; MetaPutKvRev kv_rev]
  /\ one_time_watch_map_ st' = one_time_watch_map_ st.
Proof.
  intros Hidx. unfold KvDeleteApply, GetRawKvIndex. rewrite Hidx. cbn [ok negb].
  destruct (KvDeleteApply_index kv_index r) as [[[[kv_index' lm] cr] v] pk].
  cbn [PutRawKvIndex PutRawKvRev ok negb].
  match goal with |- context [if ?c then _ else _] => destruct c end;
    cbn [fst snd]; unfold TriggerOneWatch, with_kv_rev_map, with_kv_index_map;
    cbn [kv_index_map_ kv_rev_map_ kv_lease_map_ meta_writer_ one_time_watch_map_];
    rewrite <- app_assoc; repeat split; reflexivity.
Qed.

Lemma KvDeleteApply_index_shape kv_index r :
  let '(kv_index', _, _, _, _) := KvDeleteApply_index kv_index r in
  kvi_id kv_index' = kvi_id kv_index
  /\ kvi_mod_revision kv_index' = r
  /\ kvi_generations kv_index'
     = generations_after_delete (kvi_generations kv_index) r.
Proof.
  unfold KvDeleteApply_index, generations_after_delete.
  destruct (last (kvi_generations kv_index)) as [lg|]; [|repeat split].
  destruct (has_create_revision lg); repeat split.
Qed.

Lemma generations_after_delete_not_live generations r :
  exists lg, last (generations_after_delete generations r) = Some lg
             /\ has_create_revision lg = false.
Proof.
  unfold generations_after_delete.
  destruct (last generations) as [lg|] eqn:Hlast.
  - destruct (has_create_revision lg) eqn:Hc.
    + exists Generation_default. split; [|reflexivity].
      change (removelast generations ++ [?a; ?b])
        with (removelast generations ++ [a] ++ [b]).
      rewrite app_assoc. apply last_snoc.
    + exists lg. split; assumption.
  - exists Generation_default. split; reflexivity.
Qed.

(** X5: after a delete is applied the key cannot be read, whatever the state
    was: it has no current record, and a point read of it returns nothing
    more than what the caller passed in. *)
Theorem KvDeleteApply_then_unreadable st key r limit keys_only count_only kv total :
  let st' := snd (KvDeleteApply st key r) in
  current_KvRev st' key = None
  /\ snd (fst (KvRange st' key EmptyString limit keys_only count_only kv total)) = kv.
Proof.
  cbv zeta.
  assert (Hdead : forall kv_index',
             kv_index_map_ (snd (KvDeleteApply st key r)) !! key = Some kv_index' ->
             latest_generation_live kv_index' = false).
  { intros kv_index' Hidx'.
    destruct (kv_index_map_ st !! key) as [kv_index|] eqn:Hidx.
    - pose proof (KvDeleteApply_written st key r kv_index Hidx) as Hwritten.
      pose proof (KvDeleteApply_index_shape kv_index r) as Hshape.
      cbv zeta in Hwritten.
      destruct (KvDeleteApply_index kv_index r) as [[[[kv_index2 lm] cr] v] pk].
      destruct Hwritten as (_ & Hmap & _). destruct Hshape as (_ & _ & Hgens).
      rewrite Hmap, lookup_insert_eq in Hidx'. injection Hidx' as <-.
      unfold latest_generation_live. rewrite Hgens.
      destruct (generations_after_delete_not_live (kvi_generations kv_index) r)
        as (lg & -> & ->). reflexivity.
    - rewrite KvDeleteApply_unknown in Hidx' by assumption. congruence. }
  split.
  - unfold current_KvRev.
    destruct (kv_index_map_ (snd (KvDeleteApply st key r)) !! key) as [kv_index'|]
      eqn:Hidx'; [|reflexivity].
    rewrite (Hdead _ eq_refl). reflexivity.
  - rewrite KvRange_point.
    destruct (kv_index_map_ (snd (KvDeleteApply st key r)) !! key) as [kv_index'|]
      eqn:Hidx'; [|reflexivity].
    cbn [fst snd KvRange_loop]. rewrite (Hdead _ eq_refl). reflexivity.
Qed.

(** X6: a delete of a key whose index is known always returns OK, sets the
    mod revision of the index to its revision and stores at that revision a
    record marked deleted, with empty value and lease 0; this also holds for
    a key that is already deleted (its latest generation is a tombstone),
    whose generations are then left as they are. *)
Theorem KvDeleteApply_marker st key r kv_index :
  kv_index_map_ st !! key = Some kv_index ->
  let st' := snd (KvDeleteApply st key r) in
  fst (KvDeleteApply st key r) = OK
  /\ (exists kv_index',
        kv_index_map_ st' !! key = Some kv_index'
        /\ kvi_mod_revision kv_index' = r
        /\ (forall lg, last (kvi_generations kv_index) = Some lg ->
                       has_create_revision lg = false ->
                       kvi_generations kv_index' = kvi_generations kv_index))
  /\ (exists kv_rev,
        kv_rev_map_ st' !! RevisionToString r = Some kv_rev
        /\ rev_id kv_rev = RevisionToString r
        /\ kv_id (rev_kv kv_rev) = key
        /\ kv_is_deleted (rev_kv kv_rev) = true
        /\ kv_value (rev_kv kv_rev) = EmptyString
        /\ kv_lease (rev_kv kv_rev) = 0
        /\ kv_mod_revision (rev_kv kv_rev) = r).
Proof.
  intros Hidx. cbv zeta.
  pose proof (KvDeleteApply_written st key r kv_index Hidx) as Hwritten.
  pose proof (KvDeleteApply_index_shape kv_index r) as Hshape.
  cbv zeta in Hwritten.
  destruct (KvDeleteApply_index kv_index r) as [[[[kv_index' lm] cr] v] pk].
  destruct Hwritten as (Hok & Hmap & Hrev & _). destruct Hshape as (_ & Hmod & Hgens).
  split; [assumption|]. split.
  - exists kv_index'. rewrite Hmap, lookup_insert_eq. repeat split; [assumption|].
    intros lg Hlast Hc. rewrite Hgens. unfold generations_after_delete.
    rewrite Hlast, Hc. reflexivity.
  - eexists. rewrite Hrev, lookup_insert_eq. repeat split.
Qed.

(** X7: a delete touches nothing but the key index of its key and the record
    at its revision, and a delete of a key without key index changes
    nothing at all. *)
Theorem KvDeleteApply_frame st key r :
  let st' := snd (KvDeleteApply st key r) in
  (forall k, k <> key -> kv_index_map_ st' !! k = kv_index_map_ st !! k)
  /\ (forall s, s <> RevisionToString r ->
                kv_rev_map_ st' !! s = kv_rev_map_ st !! s)
  /\ kv_lease_map_ st' = kv_lease_map_ st
  /\ (kv_index_map_ st !! key = None -> KvDeleteApply st key r = (OK, st)).
Proof.
  cbv zeta.
  destruct (kv_index_map_ st !! key) as [kv_index|] eqn:Hidx.
  - pose proof (KvDeleteApply_written st key r kv_index Hidx) as Hwritten.
    cbv zeta in Hwritten.
    destruct (KvDeleteApply_index kv_index r) as [[[[kv_index' lm] cr] v] pk].
    destruct Hwritten as (_ & Hmap & Hrev & Hlease & _).
    rewrite Hmap, Hrev, Hlease. repeat split.
    + intros k Hk. apply lookup_insert_ne. congruence.
    + intros s Hs. apply lookup_insert_ne. congruence.
    + discriminate.
  - assert (Heq : KvDeleteApply st key r = (OK, st)).
    { unfold KvDeleteApply, GetRawKvIndex. rewrite Hidx. reflexivity. }
    rewrite Heq. repeat split.
Qed.

(** ** What compaction leaves in place *)

Lemma delete_revisions_lookup to_delete : forall st s,
  kv_rev_map_ (delete_revisions st to_delete) !! s
  = if bool_decide (s ∈ map RevisionToString to_delete) then None
    else kv_rev_map_ st !! s.
Proof.
  induction to_delete as [|r l IH]; intros st s; cbn [delete_revisions map].
  - rewrite bool_decide_eq_false_2; [reflexivity|]. apply not_elem_of_nil.
  - unfold DeleteRawKvRev. rewrite IH. cbn [with_kv_rev_map kv_rev_map_].
    destruct (decide (s ∈ map RevisionToString l)) as [Hin|Hnin].
    + rewrite !bool_decide_eq_true_2; [reflexivity| |assumption].
      apply elem_of_cons. right. assumption.
    + rewrite (bool_decide_eq_false_2 _ Hnin).
      destruct (decide (s = RevisionToString r)) as [->|Hne].
      * rewrite bool_decide_eq_true_2 by apply list_elem_of_here.
        apply lookup_delete_eq.
      * rewrite bool_decide_eq_false_2.
        -- apply lookup_delete_ne. congruence.
        -- intros [Heq|Hin]%elem_of_cons; contradiction.
Qed.

Lemma delete_revisions_kv_lease_map to_delete : forall st,
  kv_lease_map_ (delete_revisions st to_delete) = kv_lease_map_ st.
Proof.
  induction to_delete as [|r l IH]; intros st; cbn [delete_revisions]; [reflexivity|].
  unfold DeleteRawKvRev. rewrite IH. reflexivity.
Qed.

(** What [KvCompactApply] does to the two maps for a key index with at
    least one generation. *)
Lemma KvCompactApply_maps st key R kv_index :
  kv_index_map_ st !! key = Some kv_index ->
  kvi_generations kv_index <> [] ->
  let '(new_generations, to_delete) :=
    compact_generations R (kvi_generations kv_index) in
  let st' := snd (KvCompactApply st key R) in
  fst (KvCompactApply st key R) = OK
  /\ kv_index_map_ st'
     = (if Nat.eqb (length new_generations) 0
        then delete key (kv_index_map_ st)
        else <[key := mkKvIndex (kvi_id kv_index) (kvi_mod_revision kv_index)
                                new_generations]> (kv_index_map_ st))
  /\ (forall s, kv_rev_map_ st' !! s
                = if bool_decide (s ∈ map RevisionToString to_delete) then None
                  else kv_rev_map_ st !! s)
  /\ kv_lease_map_ st' = kv_lease_map_ st.
Proof.
  intros Hidx Hne. unfold KvCompactApply, GetRawKvIndex. rewrite Hidx. cbn [ok negb].
  destruct (Nat.eqb_spec (length (kvi_generations kv_index)) 0) as [Hlen|Hlen].
  { destruct (kvi_generations kv_index); [contradiction|discriminate]. }
  destruct (compact_generations R (kvi_generations kv_index)) as [ng del].
  destruct (Nat.eqb (length ng) 0);
    cbn [DeleteRawKvIndex PutRawKvIndex fst snd];
    rewrite delete_revisions_kv_index_map, delete_revisions_kv_lease_map;
    (split; [reflexivity|]); (split; [reflexivity|]);
    (split; [|reflexivity]); intros s; rewrite delete_revisions_lookup; reflexivity.
Qed.

(** The revisions compaction deletes are listed by the key index before its
    final revision. *)
Lemma compact_generations_to_delete R history lg r :
  KvIndex_wf (history ++ [lg]) ->
  r ∈ snd (compact_generations R (history ++ [lg])) ->
  r ∈ all_revisions history ++ removelast (revisions lg).
Proof.
  intros Hwf Hr.
  destruct (compact_generations_wf R history lg Hwf)
    as [(_ & _ & _ & Heq)|[(init & l & _ & Hrevs & _ & Heq)
                          |(pre & h & t & Hsplit & _ & _ & Heq)]];
    rewrite Heq in Hr; cbn [snd] in Hr; apply elem_of_app.
  - left. assumption.
  - apply elem_of_app in Hr as [Hr|Hr]; [left; assumption|right].
    rewrite Hrevs, removelast_last. apply elem_of_List_filter in Hr. tauto.
  - left. rewrite Hsplit, all_revisions_app, all_revisions_cons.
    apply elem_of_app in Hr as [Hr|Hr]; apply elem_of_app; [left; assumption|right].
    apply elem_of_app. left. apply elem_of_List_filter in Hr. tauto.
Qed.

(** X8: compaction never loses the value of a live key: when the key index
    is well formed, its latest generation is live, its mod revision is the
    last revision it lists and no two listed revisions share a revision
    key, the current record of the key is the same after [KvCompactApply]
    at any compact revision. *)
Theorem KvCompactApply_keeps_current st key R kv_index :
  kv_index_map_ st !! key = Some kv_index ->
  KvIndex_wf (kvi_generations kv_index) ->
  latest_generation_live kv_index = true ->
  last (all_revisions (kvi_generations kv_index)) = Some (kvi_mod_revision kv_index) ->
  NoDup (map RevisionToString (all_revisions (kvi_generations kv_index))) ->
  fst (KvCompactApply st key R) = OK
  /\ current_KvRev (snd (KvCompactApply st key R)) key = current_KvRev st key.
Proof.
  intros Hidx Hwf Hlive Hmod Hnodup.
  pose proof (KvCompactApply_maps st key R kv_index Hidx (wf_nonempty _ Hwf)) as Hmaps.
  destruct (proj2 (last_is_Some _) (wf_nonempty _ Hwf)) as [lg Hlast].
  apply last_Some in Hlast as [history Hgens].
  rewrite Hgens in Hwf, Hmod, Hnodup.
  pose proof (compact_generations_to_delete R history lg) as Hdel.
  assert (Hlg : has_create_revision lg = true /\ revisions lg <> []).
  { unfold latest_generation_live in Hlive. rewrite Hgens, last_snoc in Hlive.
    destruct (has_create_revision lg); [|discriminate]. split; [reflexivity|].
    destruct (revisions lg); [discriminate|discriminate]. }
  destruct Hlg as (Hc & Hrne).
  destruct (proj2 (last_is_Some _) Hrne) as [l Hl].
  apply last_Some in Hl as [init Hrevs].
  assert (Hl : l = kvi_mod_revision kv_index).
  { rewrite all_revisions_app in Hmod.
    unfold all_revisions in Hmod at 2. cbn [map concat] in Hmod.
    rewrite app_nil_r, Hrevs, !app_assoc, last_snoc in Hmod. congruence. }
  assert (Hnew : exists g, last (fst (compact_generations R (history ++ [lg]))) = Some g
                           /\ has_create_revision g = true /\ revisions g <> []).
  { destruct (compact_generations_wf R history lg Hwf)
      as [(Hcf & _)|[(init' & l' & _ & _ & _ & Heq)
                    |(pre & h & t & _ & _ & _ & Heq)]];
      [congruence| |]; rewrite Heq; cbn [fst].
    - eexists. split; [reflexivity|]. cbn. split; [reflexivity|].
      intros Hnil. apply app_eq_nil in Hnil as [_ Hnil]. discriminate.
    - exists lg. rewrite app_comm_cons, last_snoc. auto. }
  rewrite Hgens in Hmaps.
  destruct (compact_generations R (history ++ [lg])) as [ng del].
  cbn [fst snd] in Hnew, Hdel. cbv zeta in Hmaps.
  destruct Hmaps as (Hok & Hmap & Hrev & _). split; [assumption|].
  destruct Hnew as (g & Hglast & Hgc & Hgne).
  assert (Hng : Nat.eqb (length ng) 0 = false).
  { destruct ng; [discriminate|reflexivity]. }
  rewrite Hng in Hmap.
  unfold current_KvRev. rewrite Hmap, lookup_insert_eq, Hidx, Hlive.
  unfold latest_generation_live. cbn [kvi_generations kvi_mod_revision].
  rewrite Hglast, Hgc. destruct (revisions g) as [|x xs] eqn:Hrg; [contradiction|].
  cbn [negb orb length Nat.eqb]. rewrite Hrev.
  rewrite bool_decide_eq_false_2; [reflexivity|].
  intros Hin. apply list_elem_of_fmap in Hin as (r & Heq & Hr).
  apply (Hdel r Hwf) in Hr. rewrite Hrevs, removelast_last in Hr.
  rewrite all_revisions_app in Hnodup.
  unfold all_revisions in Hnodup at 2. cbn [map concat] in Hnodup.
  rewrite app_nil_r, Hrevs, !app_assoc, map_app in Hnodup.
  apply NoDup_app in Hnodup as (_ & Hdisj & _).
  apply (Hdisj (RevisionToString r)).
  - apply list_elem_of_fmap. exists r. split; [reflexivity|assumption].
  - cbn [map]. rewrite <- Heq, Hl. apply list_elem_of_here.
Qed.

(** X9: compaction of one key leaves the key indexes of all other keys and
    the lease registry as they are, adds no revision record and changes
    none; for a key without key index it returns the lookup error and
    leaves the state as it is. *)
Theorem KvCompactApply_frame st key R :
  let st' := snd (KvCompactApply st key R) in
  (forall k, k <> key -> kv_index_map_ st' !! k = kv_index_map_ st !! k)
  /\ (forall s kv_rev, kv_rev_map_ st' !! s = Some kv_rev ->
                       kv_rev_map_ st !! s = Some kv_rev)
  /\ kv_lease_map_ st' = kv_lease_map_ st
  /\ (kv_index_map_ st !! key = None ->
      KvCompactApply st key R = (Err EINVAL "GetRawKvIndex not found", st)).
Proof.
  cbv zeta.
  destruct (kv_index_map_ st !! key) as [kv_index|] eqn:Hidx.
  - destruct (decide (kvi_generations kv_index = [])) as [Hnil|Hne].
    { assert (Heq : KvCompactApply st key R = (OK, st)).
      { unfold KvCompactApply, GetRawKvIndex. rewrite Hidx, Hnil. reflexivity. }
      rewrite Heq. cbn [snd]. repeat split; auto. discriminate. }
    pose proof (KvCompactApply_maps st key R kv_index Hidx Hne) as Hmaps.
    destruct (compact_generations R (kvi_generations kv_index)) as [ng del].
    cbv zeta in Hmaps. destruct Hmaps as (_ & Hmap & Hrev & Hlease).
    split; [|split; [|split; [assumption|discriminate]]].
    + intros k Hk. rewrite Hmap. destruct (Nat.eqb (length ng) 0).
      * apply lookup_delete_ne. congruence.
      * apply lookup_insert_ne. congruence.
    + intros s kv_rev. rewrite Hrev.
      destruct (bool_decide (s ∈ map RevisionToString del)); [discriminate|auto].
  - assert (Heq : KvCompactApply st key R
                  = (Err EINVAL "GetRawKvIndex not found", st)).
    { unfold KvCompactApply, GetRawKvIndex. rewrite Hidx. reflexivity. }
    rewrite Heq. cbn [snd]. repeat split; auto.
Qed.

(** X10: a deleted key whose history lies below the compact revision
    disappears: when the latest generation of a well-formed key index is a
    tombstone and every listed revision has a main revision below the
    compact revision, [KvCompactApply] erases the key index and the record
    of every listed revision. *)
Theorem KvCompactApply_erases_deleted_key st key R kv_index lg :
  kv_index_map_ st !! key = Some kv_index ->
  KvIndex_wf (kvi_generations kv_index) ->
  last (kvi_generations kv_index) = Some lg ->
  has_create_revision lg = false ->
  (forall r, r ∈ all_revisions (kvi_generations kv_index) -> main r < main R) ->
  let st' := snd (KvCompactApply st key R) in
  kv_index_map_ st' !! key = None
  /\ forall r, r ∈ all_revisions (kvi_generations kv_index) ->
               kv_rev_map_ st' !! RevisionToString r = None.
Proof.
  intros Hidx Hwf Hlast Hc Hbelow. cbv zeta.
  pose proof (KvCompactApply_maps st key R kv_index Hidx (wf_nonempty _ Hwf)) as Hmaps.
  apply last_Some in Hlast as [history Hgens].
  rewrite Hgens in Hwf, Hbelow, Hmaps |- *.
  destruct (compact_generations_wf R history lg Hwf)
    as [(_ & Hrevs & _ & Heq)|[(init & l & Hc' & _)
                              |(pre & h & t & Hsplit & Hkeep & _ & _)]];
    [|congruence|].
  - rewrite Heq in Hmaps. cbv zeta in Hmaps. cbn [length Nat.eqb] in Hmaps.
    destruct Hmaps as (_ & Hmap & Hrev & _).
    split; [rewrite Hmap; apply lookup_delete_eq|].
    intros r Hr. rewrite Hrev, bool_decide_eq_true_2; [reflexivity|].
    apply list_elem_of_fmap. exists r. split; [reflexivity|].
    rewrite all_revisions_app in Hr. unfold all_revisions in Hr at 2.
    cbn [map concat] in Hr. rewrite Hrevs, app_nil_r in Hr. assumption.
  - exfalso. apply Hkeep.
    destruct (List.filter (keeps R) (revisions h)) as [|x rest] eqn:Hf; [reflexivity|].
    assert (Hx : x ∈ List.filter (keeps R) (revisions h)).
    { rewrite Hf. apply list_elem_of_here. }
    apply elem_of_List_filter in Hx as (Hx & Hk). apply keeps_iff in Hk.
    unfold at_or_above in Hk.
    assert (main x < main R); [|lia].
    apply Hbelow. rewrite Hsplit, !all_revisions_app, all_revisions_cons.
    apply elem_of_app. left. apply elem_of_app. right. apply elem_of_app. left.
    assumption.
Qed.

Lemma filter_keeps_all R l :
  (forall r, r ∈ l -> main R <= main r) ->
  List.filter (keeps R) l = l /\ List.filter (drops R) l = [].
Proof.
  induction l as [|x l IH]; intros Hl; [split; reflexivity|].
  cbn [List.filter].
  assert (Hx : main R <= main x) by (apply Hl, list_elem_of_here).
  destruct IH as (IH1 & IH2).
  { intros r Hr. apply Hl. apply list_elem_of_further. assumption. }
  unfold keeps, drops in IH1, IH2 |- *.
  destruct (Z.ltb_spec (main x) (main R)); [lia|]. cbn [negb].
  rewrite IH1, IH2. split; reflexivity.
Qed.

Lemma none_below_and_above R (l : list RevisionInternal) :
  Forall (fun r => main r < main R) l ->
  (forall r, r ∈ l -> main R <= main r) -> l = [].
Proof.
  destruct l as [|x l]; intros Hf Hl; [reflexivity|]. exfalso.
  apply Forall_cons in Hf as (Hx & _).
  specialize (Hl x (list_elem_of_here _ _)). lia.
Qed.

(** A well-formed list of generations that lists no revision below the
    compact revision, and at least one revision, is left as it is. *)
Lemma compact_generations_nothing_below R generations :
  KvIndex_wf generations ->
  all_revisions generations <> [] ->
  (forall r, r ∈ all_revisions generations -> main R <= main r) ->
  compact_generations R generations = (generations, []).
Proof.
  intros Hwf Hsome Habove.
  destruct (proj2 (last_is_Some _) (wf_nonempty _ Hwf)) as [lg Hlast].
  apply last_Some in Hlast as [history Hgens]. subst generations.
  pose proof (wf_open_nonempty _ Hwf) as Hopen.
  pose proof (wf_history_open _ Hwf) as Hhist. rewrite removelast_last in Hhist.
  destruct (compact_generations_wf R history lg Hwf)
    as [(Hcf & Hrevs & Hb & Heq)|[(init & l & Hc & Hrevs & Hb & Heq)
                                 |(pre & h & t & Hsplit & Hkeep & Hb & Heq)]];
    rewrite Heq.
  - exfalso. apply Hsome. rewrite all_revisions_app. unfold all_revisions at 2.
    cbn [map concat]. rewrite Hrevs, app_nil_r.
    apply (none_below_and_above R); [assumption|].
    intros r Hr. apply Habove. rewrite all_revisions_app. apply elem_of_app.
    left. assumption.
  - assert (Hh : all_revisions history = []).
    { apply (none_below_and_above R); [assumption|]. intros r Hr. apply Habove.
      rewrite all_revisions_app. apply elem_of_app. left. assumption. }
    assert (Hhn : history = []).
    { destruct history as [|g rest]; [reflexivity|]. exfalso.
      assert (Hg : g ∈ (g :: rest) ++ [lg]) by (apply list_elem_of_here).
      pose proof (proj1 (Hopen g Hg) (Hhist g (list_elem_of_here _ _))) as Hgne.
      rewrite all_revisions_cons in Hh. apply app_eq_nil in Hh as [Hh _].
      apply Hgne, Hh. }
    rewrite Hhn. cbn [app all_revisions map concat].
    destruct (filter_keeps_all R init) as (Hk & Hd).
    { intros r Hr. apply Habove. rewrite all_revisions_app. apply elem_of_app.
      right. unfold all_revisions. cbn [map concat]. rewrite app_nil_r, Hrevs.
      apply elem_of_app. left. assumption. }
    rewrite Hk, Hd, <- Hrevs.
    destruct lg as [[c|] v revs]; [reflexivity|discriminate Hc].
  - assert (Hp : all_revisions pre = []).
    { apply (none_below_and_above R); [assumption|]. intros r Hr. apply Habove.
      rewrite Hsplit, !all_revisions_app. apply elem_of_app. left.
      apply elem_of_app. left. assumption. }
    assert (Hpn : pre = []).
    { destruct pre as [|g rest]; [reflexivity|]. exfalso.
      assert (Hg : g ∈ history).
      { rewrite Hsplit. apply list_elem_of_here. }
      assert (Hg' : g ∈ history ++ [lg]) by (apply elem_of_app; left; assumption).
      pose proof (proj1 (Hopen g Hg') (Hhist g Hg)) as Hgne.
      rewrite all_revisions_cons in Hp. apply app_eq_nil in Hp as [Hp _].
      apply Hgne, Hp. }
    rewrite Hpn in Hsplit |- *. cbn [app] in Hsplit.
    cbn [all_revisions map concat app].
    destruct (filter_keeps_all R (revisions h)) as (Hk & Hd).
    { intros r Hr. apply Habove. rewrite Hsplit, all_revisions_app.
      apply elem_of_app. left. rewrite all_revisions_cons. apply elem_of_app.
      left. assumption. }
    rewrite Hk, Hd, Hsplit.
    assert (Hhc : has_create_revision h = true).
    { apply Hhist. rewrite Hsplit. apply list_elem_of_here. }
    destruct h as [[c|] v revs]; [reflexivity|discriminate Hhc].
Qed.

(** X11: compaction at a revision that no listed revision lies below changes
    neither map: when a well-formed key index lists at least one revision
    and every listed revision has a main revision at or above the compact
    revision, the key-index map and the revision map are the same after
    [KvCompactApply]. *)
Theorem KvCompactApply_nothing_below st key R kv_index :
  kv_index_map_ st !! key = Some kv_index ->
  KvIndex_wf (kvi_generations kv_index) ->
  all_revisions (kvi_generations kv_index) <> [] ->
  (forall r, r ∈ all_revisions (kvi_generations kv_index) -> main R <= main r) ->
  let st' := snd (KvCompactApply st key R) in
  kv_index_map_ st' = kv_index_map_ st /\ kv_rev_map_ st' = kv_rev_map_ st.
Proof.
  intros Hidx Hwf Hsome Habove. cbv zeta.
  pose proof (KvCompactApply_maps st key R kv_index Hidx (wf_nonempty _ Hwf)) as Hmaps.
  rewrite (compact_generations_nothing_below R _ Hwf Hsome Habove) in Hmaps.
  cbv zeta in Hmaps. destruct Hmaps as (_ & Hmap & Hrev & _).
  assert (Hlen : Nat.eqb (length (kvi_generations kv_index)) 0 = false).
  { pose proof (wf_nonempty _ Hwf) as Hne. destruct (kvi_generations kv_index);
      [contradiction|reflexivity]. }
  rewrite Hlen in Hmap. split.
  - rewrite Hmap. destruct kv_index as [id m gens]. apply insert_id. assumption.
  - apply map_eq. intros s. rewrite Hrev. cbn [map].
    rewrite bool_decide_eq_false_2; [reflexivity|]. apply not_elem_of_nil.
Qed.

(** ** Invariants of the states built by the apply functions *)

Lemma reachable_keyed st m : reachable st m -> keyed st.
Proof.
  induction 1 as [leases watches m|st m key r il l iv v _ IH _
                 |st m key r _ IH _|st m key R _ IH].
  - apply map_Forall_empty.
  - apply KvPutApply_preserves_keyed, IH.
  - apply KvDeleteApply_preserves_keyed, IH.
  - apply KvCompactApply_preserves_keyed, IH.
Qed.

Lemma KvCompactApply_revisions st key R k x :
  KvControl_wf st ->
  x ∈ all_revisions (generations_of (snd (KvCompactApply st key R)) k) ->
  x ∈ all_revisions (generations_of st k).
Proof.
  intros Hwf Hx.
  destruct (kv_index_map_ st !! key) as [kv_index|] eqn:Hidx.
  2:{ unfold KvCompactApply, GetRawKvIndex in Hx. rewrite Hidx in Hx. exact Hx. }
  destruct (decide (kvi_generations kv_index = [])) as [Hnil|Hne].
  { unfold KvCompactApply, GetRawKvIndex in Hx. rewrite Hidx, Hnil in Hx. exact Hx. }
  pose proof (KvCompactApply_maps st key R kv_index Hidx Hne) as Hmaps.
  pose proof (compact_generations_spec R (kvi_generations kv_index)) as Hspec.
  destruct (compact_generations R (kvi_generations kv_index)) as [ng del].
  cbv zeta in Hmaps. destruct Hmaps as (_ & Hmap & _).
  destruct (Hspec ng del (Hwf key kv_index Hidx) eq_refl)
    as (_ & _ & _ & _ & _ & _ & Hsub).
  destruct (decide (k = key)) as [->|Hk].
  - unfold generations_of in Hx |- *. rewrite Hmap in Hx. rewrite Hidx.
    destruct (Nat.eqb (length ng) 0).
    + rewrite lookup_delete_eq in Hx. inversion Hx.
    + rewrite lookup_insert_eq in Hx. cbn [kvi_generations] in Hx.
      apply elem_of_all_revisions in Hx as (g' & Hg' & Hxg).
      destruct (Hsub g' Hg') as (g & Hg & _ & _ & Hin).
      apply elem_of_all_revisions. exists g. auto.
  - unfold generations_of in Hx |- *. rewrite Hmap in Hx.
    destruct (Nat.eqb (length ng) 0);
      [rewrite lookup_delete_ne in Hx by congruence
      |rewrite lookup_insert_ne in Hx by congruence]; exact Hx.
Qed.

(** X12: every state built from a store without keys by puts, deletes and
    compactions, with the puts and deletes in the order of their main
    revisions, has well-formed key indexes, each stored under its own id,
    and lists no main revision above the last one used. *)
Theorem reachable_well_formed st m :
  reachable st m ->
  KvControl_wf st /\ keyed st /\ revisions_bounded st m.
Proof.
  intros Hreach.
  assert (Hboth : KvControl_wf st /\ revisions_bounded st m);
    [|split; [apply Hboth|split; [apply (reachable_keyed st m Hreach)|apply Hboth]]].
  induction Hreach as [leases watches m|st m key r il l iv v Hreach IH Hm
                      |st m key r Hreach IH Hm|st m key R Hreach IH].
  - split.
    + intros key kv_index Hidx. cbn [kv_index_map_] in Hidx.
      rewrite lookup_empty in Hidx. discriminate.
    + intros key x Hx. unfold generations_of in Hx. cbn [kv_index_map_] in Hx.
      rewrite lookup_empty in Hx. inversion Hx.
  - destruct IH as (Hwf & Hbound).
    destruct (apply_command_reached st (CmdPut key r il l iv v) m Hwf
                (reachable_keyed st m Hreach) Hbound Hm) as (Hwf' & _ & Hbound').
    split; assumption.
  - destruct IH as (Hwf & Hbound).
    destruct (apply_command_reached st (CmdDelete key r) m Hwf
                (reachable_keyed st m Hreach) Hbound Hm) as (Hwf' & _ & Hbound').
    split; assumption.
  - destruct IH as (Hwf & Hbound). split.
    + apply KvCompactApply_preserves_wf, Hwf.
    + intros k x Hx. apply (Hbound k).
      apply (KvCompactApply_revisions st key R k x Hwf Hx).
Qed.

(** Each raw write keeps the log in step with the maps, provided the message
    carries the id it is stored under. *)
Lemma replay_snoc log w : replay (log ++ [w]) = replay_write (replay log) w.
Proof. unfold replay. rewrite fold_left_app. reflexivity. Qed.

Lemma PutRawKvIndex_mirrored st key kv_index :
  mirrored st -> kvi_id kv_index = key ->
  mirrored (snd (PutRawKvIndex st key kv_index)).
Proof.
  unfold mirrored, PutRawKvIndex. intros Hm Hid.
  cbn [snd with_kv_index_map with_kv_rev_map meta_writer_ kv_index_map_ kv_rev_map_].
  rewrite replay_snoc, Hm, <- Hid. reflexivity.
Qed.

Lemma DeleteRawKvIndex_mirrored st key kv_index :
  mirrored st -> kvi_id kv_index = key ->
  mirrored (snd (DeleteRawKvIndex st key kv_index)).
Proof.
  unfold mirrored, DeleteRawKvIndex. intros Hm Hid.
  cbn [snd with_kv_index_map with_kv_rev_map meta_writer_ kv_index_map_ kv_rev_map_].
  rewrite replay_snoc, Hm, <- Hid. reflexivity.
Qed.

Lemma PutRawKvRev_mirrored st r kv_rev :
  mirrored st -> rev_id kv_rev = RevisionToString r ->
  mirrored (snd (PutRawKvRev st r kv_rev)).
Proof.
  unfold mirrored, PutRawKvRev. intros Hm Hid.
  cbn [snd with_kv_index_map with_kv_rev_map meta_writer_ kv_index_map_ kv_rev_map_].
  rewrite replay_snoc, Hm, <- Hid. reflexivity.
Qed.

Lemma DeleteRawKvRev_mirrored st r kv_rev :
  mirrored st -> rev_id kv_rev = RevisionToString r ->
  mirrored (snd (DeleteRawKvRev st r kv_rev)).
Proof.
  unfold mirrored, DeleteRawKvRev. intros Hm Hid.
  cbn [snd with_kv_index_map with_kv_rev_map meta_writer_ kv_index_map_ kv_rev_map_].
  rewrite replay_snoc, Hm, <- Hid. reflexivity.
Qed.

Lemma delete_revisions_mirrored to_delete : forall st,
  mirrored st -> mirrored (delete_revisions st to_delete).
Proof.
  induction to_delete as [|r l IH]; intros st Hm; cbn [delete_revisions];
    [assumption|].
  pose proof (DeleteRawKvRev_mirrored st r
                (mkKvRev (RevisionToString r) KvInternal_default) Hm eq_refl) as Hm'.
  destruct (DeleteRawKvRev st r (mkKvRev (RevisionToString r) KvInternal_default))
    as [ret st1].
  apply IH, Hm'.
Qed.

Lemma KvPutApply_mirrored st key r ignore_lease lease_id ignore_value value :
  keyed st -> mirrored st ->
  mirrored (snd (KvPutApply st key r ignore_lease lease_id ignore_value value)).
Proof.
  intros Hkeyed Hm. unfold KvPutApply.
  assert (Hid : kvi_id (fst (fst (fst (fst (KvPutApply_index st key r))))) = key).
  { unfold KvPutApply_index, GetRawKvIndex.
    destruct (kv_index_map_ st !! key) as [kv_index|] eqn:Hidx; cbn [ok negb];
      [|reflexivity].
    pose proof (Hkeyed key kv_index Hidx) as Hk. cbn beta in Hk.
    destruct (last (kvi_generations kv_index)) as [lg|]; [|exact Hk].
    destruct (has_create_revision lg); exact Hk. }
  destruct (KvPutApply_index st key r) as [[[[kv_index lm] cr] v] pk].
  cbn [fst] in Hid.
  match goal with |- context [if ?c then _ else _] => destruct c end;
    cbn [snd]; [assumption|].
  pose proof (PutRawKvIndex_mirrored st key kv_index Hm Hid) as Hm1.
  destruct (PutRawKvIndex st key kv_index) as [ret1 st1]. cbn [snd] in Hm1.
  match goal with |- context [PutRawKvRev st1 r ?kv_rev] =>
    pose proof (PutRawKvRev_mirrored st1 r kv_rev Hm1 eq_refl) as Hm2;
    destruct (PutRawKvRev st1 r kv_rev) as [ret2 st2] eqn:Hput end.
  cbn [snd] in Hm2.
  assert (Hret : ret2 = OK) by (unfold PutRawKvRev in Hput; congruence).
  subst ret2. cbn [ok negb snd].
  match goal with |- context [if ?c then _ else _] => destruct c end;
    exact Hm2.
Qed.

Lemma KvDeleteApply_mirrored st key r :
  keyed st -> mirrored st -> mirrored (snd (KvDeleteApply st key r)).
Proof.
  intros Hkeyed Hm. unfold KvDeleteApply, GetRawKvIndex.
  destruct (kv_index_map_ st !! key) as [kv_index|] eqn:Hidx; cbn [ok negb snd];
    [|assumption].
  pose proof (KvDeleteApply_index_shape kv_index r) as Hshape.
  destruct (KvDeleteApply_index kv_index r) as [[[[kv_index' lm] cr] v] pk].
  destruct Hshape as (Hid & _).
  pose proof (Hkeyed key kv_index Hidx) as Hk. cbn beta in Hk.
  rewrite Hk in Hid.
  pose proof (PutRawKvIndex_mirrored st key kv_index' Hm Hid) as Hm1.
  destruct (PutRawKvIndex st key kv_index') as [ret1 st1]. cbn [snd] in Hm1.
  match goal with |- context [PutRawKvRev st1 r ?kv_rev] =>
    pose proof (PutRawKvRev_mirrored st1 r kv_rev Hm1 eq_refl) as Hm2;
    destruct (PutRawKvRev st1 r kv_rev) as [ret2 st2] eqn:Hput end.
  cbn [snd] in Hm2.
  assert (Hret : ret2 = OK) by (unfold PutRawKvRev in Hput; congruence).
  subst ret2. cbn [ok negb snd].
  match goal with |- context [if ?c then _ else _] => destruct c end;
    exact Hm2.
Qed.

Lemma KvCompactApply_mirrored st key R :
  keyed st -> mirrored st -> mirrored (snd (KvCompactApply st key R)).
Proof.
  intros Hkeyed Hm. unfold KvCompactApply, GetRawKvIndex.
  destruct (kv_index_map_ st !! key) as [kv_index|] eqn:Hidx; cbn [ok negb snd];
    [|assumption].
  destruct (Nat.eqb (length (kvi_generations kv_index)) 0); [assumption|].
  destruct (compact_generations R (kvi_generations kv_index)) as [ng del].
  pose proof (Hkeyed key kv_index Hidx) as Hk. cbn beta in Hk.
  destruct (Nat.eqb (length ng) 0).
  - pose proof (DeleteRawKvIndex_mirrored st key
                  (mkKvIndex (kvi_id kv_index) (kvi_mod_revision kv_index) ng)
                  Hm Hk) as Hm1.
    destruct (DeleteRawKvIndex st key _) as [ret1 st1]. cbn [snd] in *.
    apply delete_revisions_mirrored, Hm1.
  - pose proof (PutRawKvIndex_mirrored st key
                  (mkKvIndex (kvi_id kv_index) (kvi_mod_revision kv_index) ng)
                  Hm Hk) as Hm1.
    destruct (PutRawKvIndex st key _) as [ret1 st1]. cbn [snd] in *.
    apply delete_revisions_mirrored, Hm1.
Qed.

(** X13: in every state built from a store without keys by puts, deletes
    and compactions, the meta-writer log accounts for both maps: replaying
    the logged puts and deletes, each under the id its message carries,
    gives the key-index map and the revision map of the state. *)
Theorem reachable_mirrored st m :
  reachable st m -> mirrored st.
Proof.
  intros Hreach.
  induction Hreach as [leases watches m|st m key r il l iv v Hreach IH Hm
                      |st m key r Hreach IH Hm|st m key R Hreach IH].
  - reflexivity.
  - apply KvPutApply_mirrored; [apply (reachable_keyed st m Hreach)|assumption].
  - apply KvDeleteApply_mirrored; [apply (reachable_keyed st m Hreach)|assumption].
  - apply KvCompactApply_mirrored; [apply (reachable_keyed st m Hreach)|assumption].
Qed.

(** ** Reads: limits, keys-only and count-only *)

Lemma wrap_u32_range z : 0 <= wrap_u32 z < 2 ^ 32.
Proof. unfold wrap_u32. apply Z.mod_pos_bound. lia. Qed.

Lemma omap_cons_eq {A B} (f : A -> option B) x l :
  omap f (x :: l) = match f x with Some y => y :: omap f l | None => omap f l end.
Proof. reflexivity. Qed.

Lemma KvRange_loop_uncut st limit keys_only kv_index_values :
  2 ^ 32 - 1 <= limit ->
  forall limit_count kv,
    KvRange_loop st limit keys_only false kv_index_values limit_count kv
    = kv ++ omap (KvRange_read st keys_only) kv_index_values.
Proof.
  intros Hlimit.
  induction kv_index_values as [|kv_index rest IH]; intros limit_count kv;
    [cbn [KvRange_loop]; apply eq_sym, app_nil_r|].
  cbn [KvRange_loop]. rewrite omap_cons_eq. unfold KvRange_read at 1.
  destruct (latest_generation_live kv_index); cbn [negb]; [|apply IH].
  pose proof (wrap_u32_range (limit_count + 1)) as Hw.
  destruct (Z.gtb_spec (wrap_u32 (limit_count + 1)) limit) as [Hgt|_]; [lia|].
  unfold GetRawKvRev.
  destruct (kv_rev_map_ st !! RevisionToString (kvi_mod_revision kv_index));
    cbn [ok negb]; rewrite IH; [|reflexivity].
  rewrite <- app_assoc. reflexivity.
Qed.

Lemma KvRange_loop_cut st limit keys_only kv_index_values :
  limit < 2 ^ 32 - 1 ->
  forall limit_count kv,
    0 <= limit_count <= limit ->
    exists returned,
      KvRange_loop st limit keys_only false kv_index_values limit_count kv
      = kv ++ returned
      /\ Z.of_nat (length returned) <= limit - limit_count
      /\ returned `prefix_of` omap (KvRange_read st keys_only) kv_index_values.
Proof.
  intros Hlimit.
  induction kv_index_values as [|kv_index rest IH]; intros limit_count kv Hcount;
    cbn [KvRange_loop].
  { exists []. rewrite app_nil_r. cbn [length]. split; [reflexivity|].
    split; [lia|reflexivity]. }
  rewrite omap_cons_eq. unfold KvRange_read at 1.
  destruct (latest_generation_live kv_index); cbn [negb]; [|apply IH, Hcount].
  assert (Hw : wrap_u32 (limit_count + 1) = limit_count + 1).
  { unfold wrap_u32. apply Z.mod_small. lia. }
  rewrite Hw.
  destruct (Z.gtb_spec (limit_count + 1) limit) as [Hgt|Hle].
  { exists []. rewrite app_nil_r. cbn [length]. split; [reflexivity|].
    split; [lia|apply prefix_nil]. }
  unfold GetRawKvRev.
  destruct (kv_rev_map_ st !! RevisionToString (kvi_mod_revision kv_index))
    as [kv_rev|]; cbn [ok negb].
  - destruct (IH (limit_count + 1) (kv ++ [Kv_of_KvRev kv_rev keys_only]))
      as (returned & Heq & Hlen & Hpre); [lia|].
    exists (Kv_of_KvRev kv_rev keys_only :: returned).
    rewrite Heq, <- app_assoc. cbn [app length]. split; [reflexivity|].
    split; [lia|]. apply prefix_cons, Hpre.
  - destruct (IH (limit_count + 1) kv) as (returned & Heq & Hlen & Hpre); [lia|].
    exists returned. split; [assumption|]. split; [lia|assumption].
Qed.

Lemma KvRange_returned st key range_end limit keys_only count_only kv total :
  snd (fst (KvRange st key range_end limit keys_only count_only kv total))
  = KvRange_loop st (if limit =? 0 then INT64_MAX else limit) keys_only count_only
                 (KvRange_lookup_values st key range_end) 0 kv.
Proof.
  unfold KvRange, KvRange_lookup_values.
  destruct (KvRange_lookup st key range_end) as [[ret kv_index_values]|] eqn:Hlookup;
    [|reflexivity].
  destruct (ok ret); reflexivity.
Qed.

(** X14: a read with limit 0, or with a limit of 2^32 - 1 or more, is never
    cut short: it appends, in the order of the lookup, the record at the
    mod revision of every key index whose latest generation is live and
    whose record exists. *)
Theorem KvRange_uncut st key range_end limit keys_only kv total :
  limit = 0 \/ 2 ^ 32 - 1 <= limit ->
  snd (fst (KvRange st key range_end limit keys_only false kv total))
  = kv ++ omap (KvRange_read st keys_only) (KvRange_lookup_values st key range_end).
Proof.
  intros Hlimit. rewrite KvRange_returned. apply KvRange_loop_uncut.
  destruct (Z.eqb_spec limit 0); [unfold INT64_MAX; lia|lia].
Qed.

(** X15: a read with a limit between 1 and 2^32 - 2 returns at most that
    many key-values, and what it returns is an initial part of what the
    same read returns with limit 0. *)
Theorem KvRange_limited st key range_end limit keys_only total :
  0 < limit < 2 ^ 32 - 1 ->
  let limited :=
    snd (fst (KvRange st key range_end limit keys_only false [] total)) in
  let uncut := snd (fst (KvRange st key range_end 0 keys_only false [] total)) in
  Z.of_nat (length limited) <= limit /\ limited `prefix_of` uncut.
Proof.
  intros Hlimit. cbv zeta. rewrite !KvRange_returned.
  destruct (Z.eqb_spec limit 0) as [Hz|_]; [lia|]. cbn [Z.eqb].
  rewrite (KvRange_loop_uncut st INT64_MAX) by (unfold INT64_MAX; lia).
  destruct (KvRange_loop_cut st limit keys_only
              (KvRange_lookup_values st key range_end) ltac:(lia) 0 [] ltac:(lia))
    as (returned & Heq & Hlen & Hpre).
  rewrite Heq. cbn [app]. split; [lia|assumption].
Qed.

Lemma KvRange_loop_keys_only st limit count_only kv_index_values :
  forall limit_count kv,
    KvRange_loop st limit true count_only kv_index_values limit_count
                 (map without_value kv)
    = map without_value
          (KvRange_loop st limit false count_only kv_index_values limit_count kv).
Proof.
  induction kv_index_values as [|kv_index rest IH]; intros limit_count kv;
    cbn [KvRange_loop]; [reflexivity|].
  destruct (latest_generation_live kv_index); cbn [negb]; [|apply IH].
  destruct (wrap_u32 (limit_count + 1) >? limit); [reflexivity|].
  destruct count_only; [apply IH|].
  destruct (GetRawKvRev st (kvi_mod_revision kv_index) KvRevInternal_default)
    as [ret kv_rev].
  destruct (negb (ok ret)); [apply IH|].
  rewrite <- IH, map_app. reflexivity.
Qed.

(** X16: a keys-only read returns the key-values of the full read with the
    value left unset: same keys, create and mod revisions, versions and
    leases, in the same order, for every limit. *)
Theorem KvRange_keys_only st key range_end limit count_only total :
  snd (fst (KvRange st key range_end limit true count_only [] total))
  = map without_value
        (snd (fst (KvRange st key range_end limit false count_only [] total))).
Proof.
  rewrite !KvRange_returned.
  apply (KvRange_loop_keys_only st _ count_only _ 0 []).
Qed.

Lemma KvRange_loop_nothing st limit keys_only count_only kv_index_values :
  count_only = true \/ limit < 0 ->
  forall limit_count kv,
    KvRange_loop st limit keys_only count_only kv_index_values limit_count kv = kv.
Proof.
  intros Hwhy.
  induction kv_index_values as [|kv_index rest IH]; intros limit_count kv;
    cbn [KvRange_loop]; [reflexivity|].
  destruct (latest_generation_live kv_index); cbn [negb]; [|apply IH].
  pose proof (wrap_u32_range (limit_count + 1)) as Hw.
  destruct (Z.gtb_spec (wrap_u32 (limit_count + 1)) limit) as [_|Hle];
    [reflexivity|].
  destruct Hwhy as [->|Hneg]; [apply IH|lia].
Qed.

(** A range lookup fails exactly when its scan returns a negative code. *)
Lemma KvRange_lookup_status st key range_end :
  KvRange_lookup st key range_end
  = if String.eqb range_end EmptyString
    then match kv_index_map_ st !! key with
         | Some kv_index => Some (OK, [kv_index])
         | None => None
         end
    else if GetRangeValues_ret st key (RangeRawKvIndex_upper_bound key range_end)
            <? 0
         then Some (Err EINVAL "RangeRawKvIndex failed", [])
         else Some (OK, snd (RangeRawKvIndex st key range_end [])).
Proof.
  unfold KvRange_lookup, GetRawKvIndex, RangeRawKvIndex.
  destruct (String.eqb range_end EmptyString).
  - destruct (kv_index_map_ st !! key); reflexivity.
  - destruct (GetRangeValues_ret st key (RangeRawKvIndex_upper_bound key range_end)
              <? 0); reflexivity.
Qed.

(** X17: a read fails only when the scan of a range lookup fails: a point
    read, and a range read whose scan returns a non-negative code, return
    OK, while a range read whose scan returns a negative code returns the
    error of RangeRawKvIndex and leaves the output list and the total as
    they were passed in; with count_only, or with a negative limit, a read
    returns no key-value: the output list is left as it was passed in. *)
Theorem KvRange_status st key range_end limit keys_only count_only kv total :
  (range_end = EmptyString
   \/ 0 <= GetRangeValues_ret st key (RangeRawKvIndex_upper_bound key range_end) ->
   fst (fst (KvRange st key range_end limit keys_only count_only kv total)) = OK)
  /\ (range_end <> EmptyString ->
      GetRangeValues_ret st key (RangeRawKvIndex_upper_bound key range_end) < 0 ->
      KvRange st key range_end limit keys_only count_only kv total
      = (Err EINVAL "RangeRawKvIndex failed", kv, total))
  /\ (count_only = true \/ limit < 0 ->
      snd (fst (KvRange st key range_end limit keys_only count_only kv total)) = kv).
Proof.
  split; [|split].
  - intros Hwhy. unfold KvRange. rewrite KvRange_lookup_status.
    destruct (String.eqb_spec range_end EmptyString) as [He|He].
    + destruct (kv_index_map_ st !! key); reflexivity.
    + destruct Hwhy as [Hwhy|Hwhy]; [contradiction|].
      destruct (Z.ltb_spec (GetRangeValues_ret st key
                  (RangeRawKvIndex_upper_bound key range_end)) 0); [lia|].
      reflexivity.
  - intros He Hret. unfold KvRange. rewrite KvRange_lookup_status.
    apply String.eqb_neq in He. rewrite He.
    destruct (Z.ltb_spec (GetRangeValues_ret st key
                (RangeRawKvIndex_upper_bound key range_end)) 0); [|lia].
    reflexivity.
  - intros Hwhy. rewrite KvRange_returned. apply KvRange_loop_nothing.
    destruct Hwhy as [Hc|Hneg]; [left; assumption|right].
    destruct (Z.eqb_spec limit 0); [lia|assumption].
Qed.

(** ** KvPut: what a request produces *)

(** The two ways [KvPut] ends: it leaves with a status that is not OK and
    its in-out parameters, the granted lease apart, as they were passed
    in; or it returns OK after all checks. *)
Lemma KvPut_outcome st key value lease_id need_prev_kv ignore_value ignore_lease
    main_revision sub_revision prev_kv lease_grant_id meta_increment :
  let res := KvPut st key value lease_id need_prev_kv ignore_value ignore_lease
                   main_revision sub_revision prev_kv lease_grant_id meta_increment in
  let check_lease := negb ignore_lease && negb (lease_id =? 0) in
  let kvs_temp := snd (fst (KvRange st key EmptyString 1 false false [] 0)) in
  (ok (put_status res) = false
   /\ put_sub_revision res = sub_revision
   /\ put_prev_kv res = prev_kv
   /\ put_meta_increment res = meta_increment)
  \/ (String.eqb key EmptyString = false
      /\ (FLAGS_max_kv_key_size <? String.length key)%nat = false
      /\ (ignore_value = false ->
          String.eqb value EmptyString = false
          /\ (FLAGS_max_kv_value_size <? String.length value)%nat = false)
      /\ (check_lease = true -> ok (LeaseQuery st lease_id) = true)
      /\ (ignore_lease = true -> kvs_temp <> [])
      /\ (ignore_lease = false -> forall kv rest, kvs_temp = kv :: rest ->
                                                  vkv_lease kv = lease_id)
      /\ res = mkKvPutResult OK (wrap64 (sub_revision + 1))
                 (if need_prev_kv then hd Kv_default kvs_temp else prev_kv)
                 (put_lease_grant_id res)
                 (meta_increment
                  ++ [mkKvIndexIncrement key KV_INDEX_EVENT_TYPE_PUT
                        (mkRevision main_revision sub_revision) ignore_lease
                        (put_lease_grant_id res) false
                        (if negb ignore_value then value else EmptyString)])
      /\ put_lease_grant_id res
         = match kvs_temp with
           | kv :: _ => vkv_lease kv
           | [] => if check_lease then lease_id else lease_grant_id
           end
      /\ (put_lease_grant_id res <> 0 ->
          ok (LeaseAddKeys st (put_lease_grant_id res) key) = true)).
Proof.
  cbv zeta. unfold KvPut.
  destruct (String.eqb key EmptyString); [left; repeat split|].
  destruct (FLAGS_max_kv_key_size <? String.length key)%nat; [left; repeat split|].
  destruct (negb ignore_value && String.eqb value EmptyString) eqn:Hv1;
    [left; repeat split|].
  destruct (negb ignore_value && (FLAGS_max_kv_value_size <? String.length value)%nat)
    eqn:Hv2; [left; repeat split|].
  destruct (negb (ok (if negb ignore_lease && negb (lease_id =? 0)
                      then LeaseQuery st lease_id else OK))) eqn:Hq.
  { left. cbn [put_status put_sub_revision put_prev_kv put_meta_increment].
    apply negb_true_iff in Hq. repeat split. assumption. }
  apply negb_false_iff in Hq.
  destruct (KvRange st key EmptyString 1 false false [] 0) as [[ret kvs_temp] total]
    eqn:Hrange.
  cbn [fst snd].
  destruct kvs_temp as [|kv rest]; cbn [length Nat.eqb negb hd].
  - rewrite andb_true_r, andb_false_r. cbn [andb].
    destruct ignore_lease; [left; repeat split|]. cbn [negb andb] in *.
    match goal with |- context [negb (ok ?r)] => destruct (negb (ok r)) eqn:Ha end.
    { left. apply negb_true_iff in Ha. repeat split. assumption. }
    apply negb_false_iff in Ha. right. rewrite Hrange. cbn [fst snd hd].
    cbn [put_lease_grant_id].
    split; [reflexivity|]. split; [reflexivity|].
    split; [intros ->; cbn [negb andb] in Hv1, Hv2; split; assumption|].
    split; [intros Hc; rewrite Hc in Hq; assumption|].
    split; [discriminate|]. split; [discriminate|].
    split; [destruct need_prev_kv; reflexivity|]. split; [reflexivity|].
    intros Hne. apply Z.eqb_neq in Hne. rewrite Hne in Ha. assumption.
  - rewrite andb_false_r, andb_true_r.
    destruct (negb ignore_lease && negb (vkv_lease kv =? lease_id)) eqn:Hmatch;
      [left; repeat split|].
    match goal with |- context [negb (ok ?r)] => destruct (negb (ok r)) eqn:Ha end.
    { left. apply negb_true_iff in Ha. repeat split. assumption. }
    apply negb_false_iff in Ha. right. cbn [put_lease_grant_id].
    split; [reflexivity|]. split; [reflexivity|].
    split; [intros ->; cbn [negb andb] in Hv1, Hv2; split; assumption|].
    split; [intros Hc; rewrite Hc in Hq; assumption|].
    split; [discriminate|].
    split.
    { intros -> kv' rest' Heq. cbn [negb andb] in Hmatch.
      apply negb_false_iff, Z.eqb_eq in Hmatch. congruence. }
    split; [reflexivity|]. split; [reflexivity|].
    intros Hne. apply Z.eqb_neq in Hne. rewrite Hne in Ha. assumption.
Qed.

(** X18: a put request that is rejected proposes nothing: the sub revision,
    [prev_kv] and the meta increment come back as they were passed in. *)
Theorem KvPut_rejected_outputs st key value lease_id need_prev_kv ignore_value
    ignore_lease main_revision sub_revision prev_kv lease_grant_id meta_increment :
  let res := KvPut st key value lease_id need_prev_kv ignore_value ignore_lease
                   main_revision sub_revision prev_kv lease_grant_id meta_increment in
  put_status res <> OK ->
  put_sub_revision res = sub_revision
  /\ put_prev_kv res = prev_kv
  /\ put_meta_increment res = meta_increment.
Proof.
  cbv zeta. intros Hrejected.
  destruct (KvPut_outcome st key value lease_id need_prev_kv ignore_value ignore_lease
              main_revision sub_revision prev_kv lease_grant_id meta_increment)
    as [(_ & Hsame)|(_ & _ & _ & _ & _ & _ & Hres & _)]; [exact Hsame|].
  rewrite Hres in Hrejected. cbn [put_status] in Hrejected. contradiction.
Qed.

(** X19: a put request that is accepted has a non-empty key within the key
    size limit and, unless ignore_value is set, a non-empty value within
    the value size limit; it appends exactly one PUT entry to the meta
    increment, for its key at revision (main_revision, sub_revision), with
    the granted lease, with ignore_value unset and with the value, or no
    value under ignore_value; and it advances the sub revision by one. *)
Theorem KvPut_accepted_increment st key value lease_id need_prev_kv ignore_value
    ignore_lease main_revision sub_revision prev_kv lease_grant_id meta_increment :
  let res := KvPut st key value lease_id need_prev_kv ignore_value ignore_lease
                   main_revision sub_revision prev_kv lease_grant_id meta_increment in
  put_status res = OK ->
  key <> EmptyString
  /\ (String.length key <= FLAGS_max_kv_key_size)%nat
  /\ (ignore_value = false ->
      value <> EmptyString /\ (String.length value <= FLAGS_max_kv_value_size)%nat)
  /\ put_sub_revision res = wrap64 (sub_revision + 1)
  /\ put_meta_increment res
     = meta_increment
       ++ [mkKvIndexIncrement key KV_INDEX_EVENT_TYPE_PUT
             (mkRevision main_revision sub_revision) ignore_lease
             (put_lease_grant_id res) false
             (if ignore_value then EmptyString else value)].
Proof.
  cbv zeta. intros Haccepted.
  destruct (KvPut_outcome st key value lease_id need_prev_kv ignore_value ignore_lease
              main_revision sub_revision prev_kv lease_grant_id meta_increment)
    as [(Hno & _)|(Hkey & Hklen & Hvalue & _ & _ & _ & Hres & _)].
  { rewrite Haccepted in Hno. discriminate. }
  split; [apply String.eqb_neq, Hkey|].
  split; [apply Nat.ltb_ge, Hklen|].
  split.
  { intros Hiv. destruct (Hvalue Hiv) as (Hv & Hvlen).
    split; [apply String.eqb_neq, Hv|apply Nat.ltb_ge, Hvlen]. }
  rewrite Hres at 1 2. cbn [put_sub_revision put_meta_increment].
  split; [reflexivity|]. destruct ignore_value; reflexivity.
Qed.

(** X20: the lease an accepted put request grants. For a key with a current
    record it is the lease of that record, which the request must name
    unless ignore_lease is set, and [prev_kv], when asked for, is that
    record; for a key without current record ignore_lease is not set, the
    lease is the requested one, or for a request without lease the value
    passed in, and [prev_kv], when asked for, is the default key-value. *)
Theorem KvPut_granted_lease st key value lease_id need_prev_kv ignore_value
    ignore_lease main_revision sub_revision prev_kv lease_grant_id meta_increment :
  let res := KvPut st key value lease_id need_prev_kv ignore_value ignore_lease
                   main_revision sub_revision prev_kv lease_grant_id meta_increment in
  put_status res = OK ->
  match current_KvRev st key with
  | Some kv_rev =>
      put_lease_grant_id res = kv_lease (rev_kv kv_rev)
      /\ (ignore_lease = false -> lease_id = kv_lease (rev_kv kv_rev))
      /\ (need_prev_kv = true -> put_prev_kv res = Kv_of_KvRev kv_rev false)
  | None =>
      ignore_lease = false
      /\ put_lease_grant_id res = (if lease_id =? 0 then lease_grant_id else lease_id)
      /\ (need_prev_kv = true -> put_prev_kv res = Kv_default)
  end.
Proof.
  cbv zeta. intros Haccepted.
  destruct (KvPut_outcome st key value lease_id need_prev_kv ignore_value ignore_lease
              main_revision sub_revision prev_kv lease_grant_id meta_increment)
    as [(Hno & _)|(_ & _ & _ & _ & Hfound & Hmatch & Hres & Hgrant & _)].
  { rewrite Haccepted in Hno. discriminate. }
  rewrite KvRange_point_current in Hfound, Hmatch, Hres, Hgrant.
  destruct (current_KvRev st key) as [kv_rev|].
  - split; [exact Hgrant|]. split.
    + intros Hil. symmetry. apply (Hmatch Hil _ [] eq_refl).
    + intros ->. rewrite Hres. reflexivity.
  - split; [destruct ignore_lease; [exfalso; apply Hfound; reflexivity|reflexivity]|].
    split.
    + rewrite Hgrant. destruct ignore_lease; [exfalso; apply Hfound; reflexivity|].
      cbn [negb andb]. destruct (lease_id =? 0); reflexivity.
    + intros ->. rewrite Hres. reflexivity.
Qed.

(** ** KvDeleteRange: what a request produces *)

Lemma wrap64_range z : - 2 ^ 63 <= wrap64 z < 2 ^ 63.
Proof.
  unfold wrap64. pose proof (Z.mod_pos_bound (z + 2 ^ 63) (2 ^ 64) ltac:(lia)). lia.
Qed.

Lemma wrap64_small z : - 2 ^ 63 <= z < 2 ^ 63 -> wrap64 z = z.
Proof. intros Hz. unfold wrap64. rewrite Z.mod_small; lia. Qed.

Lemma wrap64_add_l a b : wrap64 (wrap64 a + b) = wrap64 (a + b).
Proof.
  unfold wrap64. f_equal.
  replace ((a + 2 ^ 63) mod 2 ^ 64 - 2 ^ 63 + b + 2 ^ 63)
    with ((a + 2 ^ 63) mod 2 ^ 64 + b) by lia.
  rewrite Zplus_mod_idemp_l. f_equal. lia.
Qed.

(** The DELETE entry of the [i]-th key-value to delete. *)
Lemma KvDeleteRange_loop_increments kvs_to_delete main_revision :
  forall sub_revision keys_to_remove_lease meta_increment,
    - 2 ^ 63 <= sub_revision < 2 ^ 63 ->
    let '(sub_revision', _, meta_increment') :=
      KvDeleteRange_loop kvs_to_delete main_revision sub_revision
                         keys_to_remove_lease meta_increment in
    sub_revision' = wrap64 (sub_revision + Z.of_nat (length kvs_to_delete))
    /\ meta_increment'
       = meta_increment
         ++ imap (fun i kv =>
                    mkKvIndexIncrement (vkv_key kv) KV_INDEX_EVENT_TYPE_DELETE
                      (mkRevision main_revision (wrap64 (sub_revision + Z.of_nat i)))
                      false 0 false EmptyString)
                 kvs_to_delete.
Proof.
  induction kvs_to_delete as [|kv rest IH];
    intros sub_revision keys_to_remove_lease meta_increment Hsub;
    cbn [KvDeleteRange_loop length].
  { rewrite Z.add_0_r, wrap64_small, app_nil_r by assumption. split; reflexivity. }
  assert (Hstep : forall m,
    let '(sub_revision', _, meta_increment') :=
      KvDeleteRange_loop rest main_revision (wrap64 (sub_revision + 1)) m
        (meta_increment
         ++ [mkKvIndexIncrement (vkv_key kv) KV_INDEX_EVENT_TYPE_DELETE
               (mkRevision main_revision sub_revision) false 0 false EmptyString]) in
    sub_revision' = wrap64 (sub_revision + Z.of_nat (S (length rest)))
    /\ meta_increment'
       = meta_increment
         ++ imap (fun i kv =>
                    mkKvIndexIncrement (vkv_key kv) KV_INDEX_EVENT_TYPE_DELETE
                      (mkRevision main_revision (wrap64 (sub_revision + Z.of_nat i)))
                      false 0 false EmptyString)
                 (kv :: rest)).
  { intros m.
    specialize (IH (wrap64 (sub_revision + 1)) m
                   (meta_increment
                    ++ [mkKvIndexIncrement (vkv_key kv) KV_INDEX_EVENT_TYPE_DELETE
                          (mkRevision main_revision sub_revision) false 0 false
                          EmptyString])
                   (wrap64_range _)).
    destruct (KvDeleteRange_loop rest main_revision (wrap64 (sub_revision + 1)) m _)
      as [[sub' m'] inc'].
    destruct IH as (-> & ->). split.
    - rewrite wrap64_add_l. f_equal. lia.
    - rewrite <- app_assoc. f_equal. cbn [app imap].
      change (Z.of_nat 0) with 0.
      rewrite Z.add_0_r, (wrap64_small sub_revision Hsub). f_equal.
      apply imap_ext. intros i x _. cbn. rewrite wrap64_add_l.
      do 3 f_equal. lia. }
  destruct (vkv_lease kv =? 0); apply Hstep.
Qed.

(** The lease map the loop builds holds, for each lease other than 0, the
    key of the last key-value with that lease. *)
Lemma KvDeleteRange_loop_lease_keys kvs_to_delete main_revision lease :
  forall sub_revision keys_to_remove_lease meta_increment,
    snd (fst (KvDeleteRange_loop kvs_to_delete main_revision sub_revision
                                 keys_to_remove_lease meta_increment)) !! lease
    = match last (List.filter (fun kv => negb (vkv_lease kv =? 0)
                                         && (vkv_lease kv =? lease))
                              kvs_to_delete) with
      | Some kv => Some ({[vkv_key kv]} : gset string)
      | None => keys_to_remove_lease !! lease
      end.
Proof.
  induction kvs_to_delete as [|kv rest IH];
    intros sub_revision keys_to_remove_lease meta_increment;
    cbn [KvDeleteRange_loop List.filter last]; [reflexivity|].
  destruct (Z.eqb_spec (vkv_lease kv) 0) as [Hz|Hnz]; cbn [negb andb].
  - apply IH.
  - rewrite IH.
    destruct (Z.eqb_spec (vkv_lease kv) lease) as [Heq|Hne].
    + set (l := List.filter _ rest).
      change (last (kv :: l)) with (match l with [] => Some kv | _ :: _ => last l end).
      destruct l as [|x l'] eqn:Hl.
      * cbn [last]. rewrite Heq. apply lookup_insert_eq.
      * destruct (last (x :: l')) eqn:Hlast; [reflexivity|].
        apply last_None in Hlast. discriminate.
    + destruct (last _); [reflexivity|]. apply lookup_insert_ne. assumption.
Qed.

Lemma KvDeleteRange_loop_length kvs_to_delete main_revision :
  forall sub_revision keys_to_remove_lease meta_increment,
    length (snd (KvDeleteRange_loop kvs_to_delete main_revision sub_revision
                                    keys_to_remove_lease meta_increment))
    = (length meta_increment + length kvs_to_delete)%nat.
Proof.
  induction kvs_to_delete as [|kv rest IH];
    intros sub_revision keys_to_remove_lease meta_increment;
    cbn [KvDeleteRange_loop length snd]; [lia|].
  destruct (vkv_lease kv =? 0); rewrite IH, length_app; cbn [length]; lia.
Qed.

Lemma KvDeleteRange_loop_no_keys main_revision sub_revision keys_to_remove_lease
    meta_increment :
  KvDeleteRange_loop [] main_revision sub_revision keys_to_remove_lease meta_increment
  = (sub_revision, keys_to_remove_lease, meta_increment).
Proof. reflexivity. Qed.

(** The read of a delete request: it goes through, or the scan of a range
    lookup fails and nothing is read. *)
Lemma KvDeleteRange_reads st key range_end key_only :
  (exists total,
      KvRange st key range_end INT64_MAX key_only false [] 0
      = (OK,
         snd (fst (KvRange st key range_end INT64_MAX key_only false [] 0)),
         total))
  \/ (range_end <> EmptyString
      /\ GetRangeValues_ret st key (RangeRawKvIndex_upper_bound key range_end) < 0
      /\ KvRange st key range_end INT64_MAX key_only false [] 0
         = (Err EINVAL "RangeRawKvIndex failed", [], 0)).
Proof.
  unfold KvRange. rewrite KvRange_lookup_status.
  destruct (String.eqb_spec range_end EmptyString) as [He|He].
  - left. destruct (kv_index_map_ st !! key); eexists; reflexivity.
  - destruct (Z.ltb_spec (GetRangeValues_ret st key
                (RangeRawKvIndex_upper_bound key range_end)) 0) as [Hret|Hret].
    + right. repeat split; assumption.
    + left. eexists. reflexivity.
Qed.

(** X21: for a sub revision within the 64-bit range, a delete request
    appends one DELETE entry per key-value it reads, in reading order, the
    i-th at revision (main_revision, sub_revision + i) with 64-bit
    wrap-around, and advances the sub revision by their number; this also
    holds when the request fails. *)
Theorem KvDeleteRange_increments st key range_end need_prev_kv main_revision
    sub_revision need_lease_remove_keys deleted_count prev_kvs meta_increment :
  - 2 ^ 63 <= sub_revision < 2 ^ 63 ->
  let kvs_to_delete :=
    snd (fst (KvRange st key range_end INT64_MAX (negb need_prev_kv) false [] 0)) in
  let res := KvDeleteRange st key range_end need_prev_kv main_revision sub_revision
               need_lease_remove_keys deleted_count prev_kvs meta_increment in
  del_sub_revision res = wrap64 (sub_revision + Z.of_nat (length kvs_to_delete))
  /\ del_meta_increment res
     = meta_increment
       ++ imap (fun i kv =>
                  mkKvIndexIncrement (vkv_key kv) KV_INDEX_EVENT_TYPE_DELETE
                    (mkRevision main_revision (wrap64 (sub_revision + Z.of_nat i)))
                    false 0 false EmptyString)
               kvs_to_delete.
Proof.
  intros Hsub. cbv zeta. unfold KvDeleteRange.
  destruct (KvDeleteRange_reads st key range_end (negb need_prev_kv))
    as [[total ->]|(_ & _ & ->)].
  2:{ cbn [fst snd ok negb del_sub_revision del_meta_increment length imap].
      rewrite Z.add_0_r, wrap64_small, app_nil_r by assumption.
      split; reflexivity. }
  cbn [fst snd ok negb].
  set (kvs := snd (fst (KvRange st key range_end INT64_MAX (negb need_prev_kv)
                                false [] 0))).
  pose proof (KvDeleteRange_loop_increments kvs main_revision sub_revision ∅
                meta_increment Hsub) as Hloop.
  destruct (KvDeleteRange_loop kvs main_revision sub_revision ∅ meta_increment)
    as [[sub' m'] inc'].
  match goal with |- context [if negb (ok ?r) then _ else _] =>
    destruct (negb (ok r)) end; exact Hloop.
Qed.

(** X22: a delete request fails in two ways only. Its read fails, because
    the scan of a range lookup failed: it then returns the error of
    RangeRawKvIndex with every output as it was passed in and without
    calling the lease removal. Or the lease removal it calls fails: it then
    returns the status of that call, and the deleted count and [prev_kvs]
    are left as they were passed in, although there was something to
    delete and one entry per key-value read has already been appended to
    the meta increment. *)
Theorem KvDeleteRange_failure st key range_end need_prev_kv main_revision
    sub_revision need_lease_remove_keys deleted_count prev_kvs meta_increment :
  let kvs_to_delete :=
    snd (fst (KvRange st key range_end INT64_MAX (negb need_prev_kv) false [] 0)) in
  let res := KvDeleteRange st key range_end need_prev_kv main_revision sub_revision
               need_lease_remove_keys deleted_count prev_kvs meta_increment in
  del_status res <> OK ->
  (range_end <> EmptyString
   /\ GetRangeValues_ret st key (RangeRawKvIndex_upper_bound key range_end) < 0
   /\ res = mkKvDeleteRangeResult (Err EINVAL "RangeRawKvIndex failed")
              sub_revision deleted_count prev_kvs meta_increment None)
  \/ ((range_end = EmptyString
       \/ 0 <= GetRangeValues_ret st key
                 (RangeRawKvIndex_upper_bound key range_end))
      /\ need_lease_remove_keys = true
      /\ (exists keys_to_remove_lease,
            del_lease_keys res = Some keys_to_remove_lease
            /\ keys_to_remove_lease <> ∅
            /\ del_status res = LeaseRemoveMultiLeaseKeys st keys_to_remove_lease)
      /\ kvs_to_delete <> []
      /\ del_deleted_count res = deleted_count
      /\ del_prev_kvs res = prev_kvs
      /\ length (del_meta_increment res)
         = (length meta_increment + length kvs_to_delete)%nat).
Proof.
  cbv zeta. unfold KvDeleteRange.
  assert (Hscan : fst (fst (KvRange st key range_end INT64_MAX (negb need_prev_kv)
                                    false [] 0)) = OK ->
                  range_end = EmptyString
                  \/ 0 <= GetRangeValues_ret st key
                            (RangeRawKvIndex_upper_bound key range_end)).
  { unfold KvRange. rewrite KvRange_lookup_status.
    destruct (String.eqb_spec range_end EmptyString) as [He|He]; [auto|].
    destruct (Z.ltb_spec (GetRangeValues_ret st key
                (RangeRawKvIndex_upper_bound key range_end)) 0); [|auto].
    cbn. discriminate. }
  destruct (KvDeleteRange_reads st key range_end (negb need_prev_kv))
    as [[total Hread]|(He & Hret & ->)].
  2:{ cbn [fst snd ok negb]. intros _. left. repeat split; assumption. }
  rewrite Hread in Hscan |- *. cbn [fst] in Hscan. specialize (Hscan eq_refl).
  cbn [fst snd ok negb].
  set (kvs := snd (fst (KvRange st key range_end INT64_MAX (negb need_prev_kv)
                                false [] 0))).
  pose proof (KvDeleteRange_loop_length kvs main_revision sub_revision ∅
                meta_increment) as Hlen.
  assert (Hnil : kvs = [] ->
                 snd (fst (KvDeleteRange_loop kvs main_revision sub_revision ∅
                                              meta_increment)) = ∅).
  { intros ->. reflexivity. }
  destruct (KvDeleteRange_loop kvs main_revision sub_revision ∅ meta_increment)
    as [[sub' m'] inc'].
  cbn [fst snd] in Hlen, Hnil.
  destruct need_lease_remove_keys; cbn [andb];
    [|cbn [ok negb del_status]; intros Hfail; contradiction].
  destruct (decide (m' = ∅)) as [Hempty|Hnonempty].
  { rewrite (bool_decide_eq_true_2 _ Hempty). cbn [negb ok del_status].
    intros Hfail. contradiction. }
  rewrite (bool_decide_eq_false_2 _ Hnonempty). cbn [negb].
  destruct (LeaseRemoveMultiLeaseKeys st m') as [|code msg] eqn:Hcall;
    cbn [ok negb del_status del_lease_keys del_deleted_count del_prev_kvs
         del_meta_increment];
    intros Hfail; [contradiction|].
  right. split; [assumption|]. split; [reflexivity|]. split.
  { exists m'. split; [reflexivity|]. split; [assumption|]. symmetry. assumption. }
  split; [|split; [reflexivity|split; [reflexivity|assumption]]].
  intros Hkvs. apply Hnonempty, Hnil, Hkvs.
Qed.

(** X23: the keys a delete request hands to the lease removal: for every
    lease other than 0 that a key-value read carries, the key of the last
    such key-value only, and nothing for any other lease. *)
Theorem KvDeleteRange_lease_keys st key range_end need_prev_kv main_revision
    sub_revision need_lease_remove_keys deleted_count prev_kvs meta_increment
    keys_to_remove_lease :
  let kvs_to_delete :=
    snd (fst (KvRange st key range_end INT64_MAX (negb need_prev_kv) false [] 0)) in
  let res := KvDeleteRange st key range_end need_prev_kv main_revision sub_revision
               need_lease_remove_keys deleted_count prev_kvs meta_increment in
  del_lease_keys res = Some keys_to_remove_lease ->
  forall lease,
    keys_to_remove_lease !! lease
    = match last (List.filter (fun kv => negb (vkv_lease kv =? 0)
                                         && (vkv_lease kv =? lease))
                              kvs_to_delete) with
      | Some kv => Some ({[vkv_key kv]} : gset string)
      | None => None
      end.
Proof.
  cbv zeta. unfold KvDeleteRange.
  destruct (KvDeleteRange_reads st key range_end (negb need_prev_kv))
    as [[total ->]|(_ & _ & ->)];
    [|cbn [fst snd ok negb del_lease_keys]; discriminate].
  cbn [fst snd ok negb].
  set (kvs := snd (fst (KvRange st key range_end INT64_MAX (negb need_prev_kv)
                                false [] 0))).
  intros Hcall lease.
  pose proof (KvDeleteRange_loop_lease_keys kvs main_revision lease sub_revision ∅
                meta_increment) as Hloop.
  destruct (KvDeleteRange_loop kvs main_revision sub_revision ∅ meta_increment)
    as [[sub' m'] inc'].
  cbn [fst snd] in Hloop. rewrite lookup_empty in Hloop.
  assert (Hm : m' = keys_to_remove_lease).
  { destruct (need_lease_remove_keys && negb (bool_decide (m' = ∅)));
      [|cbn [ok negb del_lease_keys] in Hcall; discriminate].
    destruct (negb (ok (LeaseRemoveMultiLeaseKeys st m')));
      cbn [del_lease_keys] in Hcall; congruence. }
  subst m'. exact Hloop.
Qed.

(** X24: a delete request for a single key without current record proposes
    nothing: it returns OK without calling the lease removal, the sub
    revision, the deleted count and the meta increment are left as they
    were, and [prev_kvs], when asked for, comes back empty. *)
Theorem KvDeleteRange_unreadable_key st key need_prev_kv main_revision
    sub_revision need_lease_remove_keys deleted_count prev_kvs meta_increment :
  current_KvRev st key = None ->
  KvDeleteRange st key EmptyString need_prev_kv main_revision sub_revision
                need_lease_remove_keys deleted_count prev_kvs meta_increment
  = mkKvDeleteRangeResult OK sub_revision deleted_count
      (if need_prev_kv then [] else prev_kvs) meta_increment None.
Proof.
  intros Hcur. unfold KvDeleteRange.
  destruct (KvDeleteRange_reads st key EmptyString (negb need_prev_kv))
    as [[total ->]|(He & _)]; [|contradiction].
  assert (Hread : snd (fst (KvRange st key EmptyString INT64_MAX (negb need_prev_kv)
                                    false [] 0)) = []).
  { rewrite KvRange_point. unfold current_KvRev in Hcur.
    destruct (kv_index_map_ st !! key) as [kv_index|]; [|reflexivity].
    cbn [fst snd]. change (INT64_MAX =? 0) with false. cbv iota.
    rewrite KvRange_loop_uncut by (unfold INT64_MAX; lia).
    rewrite omap_cons_eq. unfold KvRange_read.
    destruct (latest_generation_live kv_index); [|reflexivity].
    rewrite Hcur. reflexivity. }
  rewrite Hread. cbn [ok negb KvDeleteRange_loop andb length Nat.eqb].
  rewrite bool_decide_eq_true_2 by reflexivity. rewrite andb_false_r.
  cbn [ok negb]. reflexivity.
Qed.

(** ** The raw key listing *)

(** X25: the raw key listing of a single key reports the key as soon as it
    has a key index, also right after the key was deleted, and reports
    nothing for a key without key index; the listing of a range whose scan
    does not fail reports the ids of key indexes of the map whose latest
    generation is live, and no other; when the scan fails the listing
    returns the error of RangeRawKvIndex and reports nothing. *)
Theorem KvRangeRawKeys_listing st key range_end keys r :
  (forall kv_index,
      kv_index_map_ st !! key = Some kv_index ->
      KvRangeRawKeys st key EmptyString keys = (OK, keys ++ [key])
      /\ KvRangeRawKeys (snd (KvDeleteApply st key r)) key EmptyString keys
         = (OK, keys ++ [key]))
  /\ (kv_index_map_ st !! key = None ->
      KvRangeRawKeys st key EmptyString keys = (OK, keys))
  /\ (range_end <> EmptyString ->
      0 <= GetRangeValues_ret st key (RangeRawKvIndex_upper_bound key range_end) ->
      exists kv_index_values,
        KvRangeRawKeys st key range_end keys
        = (OK, keys ++ map kvi_id kv_index_values)
        /\ forall kv_index,
             kv_index ∈ kv_index_values ->
             latest_generation_live kv_index = true
             /\ exists k, kv_index_map_ st !! k = Some kv_index)
  /\ (range_end <> EmptyString ->
      GetRangeValues_ret st key (RangeRawKvIndex_upper_bound key range_end) < 0 ->
      KvRangeRawKeys st key range_end keys
      = (Err EINVAL "RangeRawKvIndex failed", keys)).
Proof.
  split; [|split; [|split]].
  - intros kv_index Hidx. split.
    + unfold KvRangeRawKeys, GetRawKvIndex. cbn [String.eqb]. rewrite Hidx.
      reflexivity.
    + pose proof (KvDeleteApply_written st key r kv_index Hidx) as Hwritten.
      cbv zeta in Hwritten.
      destruct (KvDeleteApply_index kv_index r) as [[[[kv_index' lm] cr] v] pk].
      destruct Hwritten as (_ & Hmap & _).
      unfold KvRangeRawKeys, GetRawKvIndex. cbn [String.eqb].
      rewrite Hmap, lookup_insert_eq. reflexivity.
  - intros Hidx. unfold KvRangeRawKeys, GetRawKvIndex. cbn [String.eqb].
    rewrite Hidx. reflexivity.
  - intros Hne Hret. apply String.eqb_neq in Hne.
    unfold KvRangeRawKeys, RangeRawKvIndex. rewrite Hne.
    destruct (Z.ltb_spec (GetRangeValues_ret st key
                (RangeRawKvIndex_upper_bound key range_end)) 0); [lia|].
    cbn [ok negb app].
    eexists. split; [reflexivity|].
    intros kv_index Hin. apply GetRangeValues_elem in Hin as (k & Hk & _ & _ & Hf).
    split; [|exists k; assumption].
    destruct (latest_generation_live kv_index); [reflexivity|discriminate].
  - intros Hne Hret. apply String.eqb_neq in Hne.
    unfold KvRangeRawKeys, RangeRawKvIndex. rewrite Hne.
    destruct (Z.ltb_spec (GetRangeValues_ret st key
                (RangeRawKvIndex_upper_bound key range_end)) 0); [|lia].
    reflexivity.
Qed.

(** ** The compaction task: which keys are handed over *)

(** The keys of the batches issued so far and of the batch being filled,
    after the loop has run over [keys]: the keys met while the batch is
    full are left out. *)
Lemma CompactionTask_loop_flat keys : forall keys_to_compact issued,
  (length keys_to_compact <= 50)%nat ->
  let '(keys_to_compact', issued') :=
    CompactionTask_loop keys keys_to_compact issued in
  concat issued' ++ keys_to_compact'
  = concat issued ++ keys_to_compact
    ++ concat (imap (fun i key =>
                       if Nat.eqb ((length keys_to_compact + i) mod 51) 50
                       then [] else [key])
                    keys).
Proof.
  induction keys as [|key rest IH]; intros keys_to_compact issued Hlen;
    cbn [CompactionTask_loop imap concat].
  { rewrite app_nil_r. reflexivity. }
  destruct (Nat.ltb_spec (length keys_to_compact) 50) as [Hlt|Hge].
  - specialize (IH (keys_to_compact ++ [key]) issued).
    rewrite length_app in IH. cbn [length] in IH. specialize (IH ltac:(lia)).
    destruct (CompactionTask_loop rest (keys_to_compact ++ [key]) issued)
      as [ktc' issued'].
    rewrite IH, Nat.add_0_r, Nat.mod_small by lia.
    destruct (Nat.eqb_spec (length keys_to_compact) 50) as [Heq|_]; [lia|].
    rewrite <- !app_assoc. cbn [app]. do 4 f_equal.
    apply imap_ext. intros i x _. cbn.
    replace (length keys_to_compact + 1 + i)%nat
      with (length keys_to_compact + S i)%nat by lia.
    reflexivity.
  - assert (Hfull : length keys_to_compact = 50%nat) by lia.
    specialize (IH [] (issued ++ [keys_to_compact]) ltac:(cbn; lia)).
    destruct (CompactionTask_loop rest [] (issued ++ [keys_to_compact]))
      as [ktc' issued'].
    rewrite IH, Hfull, concat_app. cbn [concat app length].
    rewrite app_nil_r, <- app_assoc. do 2 f_equal.
    change ((50 + 0) mod 51)%nat with 50%nat. cbn [Nat.eqb app].
    f_equal. apply imap_ext. intros i x _. unfold compose. cbn [length].
    rewrite Nat.add_0_l.
    replace (50 + S i)%nat with (i + 1 * 51)%nat by lia.
    rewrite Nat.Div0.mod_add. reflexivity.
Qed.

(** X26: when the task runs, the keys it hands to compaction are the keys
    of the key-index map in key order with every fifty-first key left out:
    the key at position i (counted from 0) is handed over exactly when
    i mod 51 is not 50. *)
Theorem CompactionTask_keys st now_revision :
  FLAGS_auto_compaction = true ->
  FLAGS_compaction_retention_rev_count <= now_revision ->
  concat (map fst (CompactionTask st now_revision))
  = concat (imap (fun i key => if Nat.eqb (i mod 51) 50 then [] else [key])
                 (GetAllKeys (kv_index_map_ st))).
Proof.
  intros Hauto Hnow. unfold CompactionTask. rewrite Hauto. cbn [negb].
  destruct (Z.ltb_spec now_revision FLAGS_compaction_retention_rev_count); [lia|].
  pose proof (CompactionTask_loop_flat (GetAllKeys (kv_index_map_ st)) [] []
                ltac:(cbn; lia)) as Hflat.
  destruct (CompactionTask_loop (GetAllKeys (kv_index_map_ st)) [] [])
    as [keys_to_compact issued].
  cbn [concat app length Nat.add] in Hflat. rewrite <- Hflat.
  rewrite map_map. cbn [fst]. rewrite map_id.
  destruct keys_to_compact as [|k l]; cbn [length Nat.eqb negb].
  - rewrite app_nil_r. reflexivity.
  - rewrite concat_app. cbn [concat]. rewrite app_nil_r. reflexivity.
Qed.

(** X27: with at most fifty keys in the key-index map, and at least one,
    a run of the task submits a single meta increment, which holds one
    COMPACTION entry per key of the map, in key order, each at revision
    (now_revision - FLAGS_compaction_retention_rev_count, 0). *)
Theorem CompactionTask_small_store st now_revision :
  FLAGS_auto_compaction = true ->
  FLAGS_compaction_retention_rev_count <= now_revision ->
  (0 < length (GetAllKeys (kv_index_map_ st)) <= 50)%nat ->
  CompactionTask_submitted st now_revision
  = [map (fun key =>
            mkKvIndexIncrement key KV_INDEX_EVENT_TYPE_COMPACTION
              (mkRevision (now_revision - FLAGS_compaction_retention_rev_count) 0)
              false 0 false EmptyString)
         (GetAllKeys (kv_index_map_ st))].
Proof.
  intros Hauto Hnow Hlen. unfold CompactionTask_submitted, CompactionTask.
  rewrite Hauto. cbn [negb].
  destruct (Z.ltb_spec now_revision FLAGS_compaction_retention_rev_count); [lia|].
  assert (Hloop : forall keys keys_to_compact issued,
             (length keys_to_compact + length keys <= 50)%nat ->
             CompactionTask_loop keys keys_to_compact issued
             = (keys_to_compact ++ keys, issued)).
  { induction keys as [|key rest IH]; intros keys_to_compact issued Hle;
      cbn [CompactionTask_loop]; [rewrite app_nil_r; reflexivity|].
    cbn [length] in Hle.
    destruct (Nat.ltb_spec (length keys_to_compact) 50) as [_|Hge]; [|lia].
    rewrite IH, <- app_assoc by (rewrite length_app; cbn [length]; lia).
    reflexivity. }
  rewrite Hloop by (cbn [length]; lia). cbn [app].
  destruct (GetAllKeys (kv_index_map_ st)) as [|key rest] eqn:Hkeys;
    [cbn [length] in Hlen; lia|].
  reflexivity.
Qed.

(** ** Watch events *)

(** X28: a put that goes through calls the watch bus exactly when a one-time
    watch is pending, and then once, with a PUT event for its key; the new
    key-value of the event is the one a point read returns after the put,
    and when the put continues a generation whose create revision has a
    positive main revision, the previous key-value of the event carries the
    value and lease of the record at the previous mod revision, that mod
    revision, and the version of the new key-value. *)
Theorem KvPutApply_watch_event st key r ignore_lease lease_id ignore_value value :
  fst (KvPutApply st key r ignore_lease lease_id ignore_value value) = OK ->
  let st' := snd (KvPutApply st key r ignore_lease lease_id ignore_value value) in
  let kv_rev_last := KvPutApply_kv_rev_last st key r in
  (one_time_watch_map_ st = ∅ -> watch_triggers_ st' = watch_triggers_ st)
  /\ (one_time_watch_map_ st <> ∅ ->
      exists new_kv prev_kv,
        watch_triggers_ st'
        = watch_triggers_ st
          ++ [mkWatchTrigger key Event_EventType_PUT new_kv prev_kv]
        /\ KvRange st' key EmptyString 0 false false [] 0 = (OK, [new_kv], 1)
        /\ forall kv_index lg,
             kv_index_map_ st !! key = Some kv_index ->
             last (kvi_generations kv_index) = Some lg ->
             has_create_revision lg = true ->
             0 < main (get_create_revision lg) ->
             prev_kv
             = mkKv key (kv_value (rev_kv kv_rev_last))
                    (main (get_create_revision lg))
                    (main (kvi_mod_revision kv_index))
                    (vkv_version new_kv)
                    (kv_lease (rev_kv kv_rev_last))).
Proof.
  intros Hok. cbv zeta.
  pose proof (KvPutApply_current st key r ignore_lease lease_id ignore_value value Hok)
    as Hcur.
  pose proof (KvPutApply_index_shape st key r) as Hshape.
  cbv zeta in Hcur.
  assert (Hprev : forall kv_index lg,
             kv_index_map_ st !! key = Some kv_index ->
             last (kvi_generations kv_index) = Some lg ->
             has_create_revision lg = true ->
             KvPutApply_index st key r
             = (mkKvIndex (kvi_id kv_index) r
                  (removelast (kvi_generations kv_index)
                   ++ [mkGeneration (create_revision lg) (wrap64 (verison lg + 1))
                                    (revisions lg ++ [r])]),
                kvi_mod_revision kv_index, get_create_revision lg,
                wrap64 (verison lg + 1),
                mkKv EmptyString EmptyString (main (get_create_revision lg))
                     (main (kvi_mod_revision kv_index))
                     (wrap64 (verison lg + 1)) 0)).
  { intros kv_index lg Hidx Hlast Hc.
    unfold KvPutApply_index, GetRawKvIndex. rewrite Hidx. cbn [ok negb].
    rewrite Hlast, Hc. reflexivity. }
  revert Hok Hcur. unfold KvPutApply.
  destruct (KvPutApply_index st key r) as [[[[kv_index' lm] cr] v] pk].
  destruct Hshape as (Hmod & _).
  match goal with |- context [if ?c then _ else _] => destruct c end;
    [cbn [fst]; discriminate|].
  cbn [PutRawKvIndex PutRawKvRev ok negb fst snd with_kv_index_map with_kv_rev_map
       one_time_watch_map_].
  intros _.
  destruct (decide (one_time_watch_map_ st = ∅)) as [Hempty|Hpending].
  - rewrite (bool_decide_eq_true_2 _ Hempty). cbn [negb watch_triggers_].
    intros _. split; [reflexivity|contradiction].
  - rewrite (bool_decide_eq_false_2 _ Hpending). cbn [negb].
    intros (Hidx' & Hlive & Hcur). split; [contradiction|]. intros _.
    eexists _, _. split; [reflexivity|]. split.
    + rewrite KvRange_point, Hidx'. cbn [Z.eqb KvRange_loop].
      rewrite Hlive. cbn [negb]. change (wrap_u32 (0 + 1) >? INT64_MAX) with false.
      cbv iota. unfold current_KvRev in Hcur. rewrite Hidx', Hlive in Hcur.
      unfold GetRawKvRev. rewrite Hcur. cbn [ok negb app length].
      reflexivity.
    + intros kv_index lg Hidx Hlast Hc Hpos.
      specialize (Hprev kv_index lg Hidx Hlast Hc).
      injection Hprev as _ _ _ Hv Hpk. subst pk v.
      unfold prev_kv_for_watch. cbn [vkv_create_revision vkv_mod_revision vkv_version].
      destruct (Z.gtb_spec (main (get_create_revision lg)) 0) as [_|Hle]; [|lia].
      reflexivity.
Qed.

(** X29: a delete of a key with a key index calls the watch bus exactly when
    a one-time watch is pending, and then once, with a DELETE event for its
    key whose new key-value has no value, lease 0 and the delete's main
    revision as mod revision; when the latest generation was a tombstone
    already, the previous key-value of the event is the default one. *)
Theorem KvDeleteApply_watch_event st key r kv_index :
  kv_index_map_ st !! key = Some kv_index ->
  let st' := snd (KvDeleteApply st key r) in
  (one_time_watch_map_ st = ∅ -> watch_triggers_ st' = watch_triggers_ st)
  /\ (one_time_watch_map_ st <> ∅ ->
      exists new_kv prev_kv,
        watch_triggers_ st'
        = watch_triggers_ st
          ++ [mkWatchTrigger key Event_EventType_DELETE new_kv prev_kv]
        /\ vkv_key new_kv = key
        /\ vkv_value new_kv = EmptyString
        /\ vkv_lease new_kv = 0
        /\ vkv_mod_revision new_kv = main r
        /\ (forall lg, last (kvi_generations kv_index) = Some lg ->
                       has_create_revision lg = false ->
                       prev_kv = Kv_default)).
Proof.
  intros Hidx. cbv zeta. unfold KvDeleteApply, GetRawKvIndex. rewrite Hidx.
  cbn [ok negb].
  assert (Hprev : forall lg, last (kvi_generations kv_index) = Some lg ->
                             has_create_revision lg = false ->
                             snd (KvDeleteApply_index kv_index r) = Kv_default).
  { intros lg Hlast Hc. unfold KvDeleteApply_index. rewrite Hlast, Hc. reflexivity. }
  destruct (KvDeleteApply_index kv_index r) as [[[[kv_index' lm] cr] v] pk].
  cbn [snd] in Hprev.
  cbn [PutRawKvIndex PutRawKvRev ok negb snd with_kv_index_map with_kv_rev_map
       one_time_watch_map_].
  destruct (decide (one_time_watch_map_ st = ∅)) as [Hempty|Hpending].
  - rewrite (bool_decide_eq_true_2 _ Hempty). cbn [negb watch_triggers_].
    split; [reflexivity|contradiction].
  - rewrite (bool_decide_eq_false_2 _ Hpending). cbn [negb].
    split; [contradiction|]. intros _.
    eexists _, _. split; [reflexivity|]. cbn [vkv_key vkv_value vkv_lease
      vkv_mod_revision kv_value kv_lease].
    repeat split.
    intros lg Hlast Hc. rewrite (Hprev lg Hlast Hc). reflexivity.
Qed.

End KvControl.

(** * Instances on concrete stores *)

Lemma KvPutApply_lease_not_found_witness :
  KvPutApply lease_revoked "a" (mkRevision 3 0) true 0 false "x"
  = (Err EINVAL "KvPutApply kv_lease_map_.Exists failed", lease_revoked).
Proof.
  apply (KvPutApply_lease_not_found lease_revoked "a" (mkRevision 3 0) true 0
           false "x" 5).
  - exists (mkKvIndex "a" (mkRevision 1 0)
                      [mkGeneration (Some (mkRevision 1 0)) 1 [mkRevision 1 0]]),
           (mkKvRev (RevisionToString (mkRevision 1 0))
                    (mkKvInternal "a" "1" (mkRevision 1 0) (mkRevision 1 0) 1 5 false)).
    split; [vm_compute; reflexivity|]. split; [vm_compute; reflexivity|reflexivity].
  - reflexivity.
  - vm_compute. intros H. inversion H.
Defined.

(** The same rejection on the supplied lease id: lease 7 is unknown to the
    empty store. *)
Example KvPutApply_supplied_lease_not_found :
  KvPutApply KvControl_empty "k" (mkRevision 1 0) false 7 false "v"
  = (Err EINVAL "KvPutApply kv_lease_map_.Exists failed", KvControl_empty).
Proof. vm_compute. reflexivity. Qed.

(** With ignore_lease the supplied lease id is not looked at: the put of
    "a" above is rejected although lease 0 is supplied, and it goes through
    once the lease of the previous record is back in the registry. *)
Example KvPutApply_ignore_lease_uses_previous_record :
  fst (KvPutApply lease_revoked "a" (mkRevision 3 0) false 0 false "x") = OK
  /\ fst (KvPutApply two_leased_keys "a" (mkRevision 3 0) true 0 false "x") = OK.
Proof. vm_compute. split; reflexivity. Qed.

(** C8 (code defect): on the empty store, where "k" has no current
    revision record, a put of the empty value with ignore_value is accepted,
    while the same put with ignore_lease as well is rejected for the missing
    record, and the put without ignore_value is rejected for the empty
    value. The entry the accepted put adds to the meta increment carries
    ignore_value = false and the empty value, and KvPutApply run on those
    fields stores the empty value as the current value of "k". *)
Theorem KvPut_ignore_value_on_absent_key :
  current_KvRev KvControl_empty "k" = None
  /\ KvPut default_max_kv_key_size default_max_kv_value_size
           PrefixNext_sample GetRangeValues_ret_sample false
           LeaseQuery_sample LeaseAddKeys_sample
           KvControl_empty "k" EmptyString 0 false true false 1 0 Kv_default 0 []
     = mkKvPutResult OK 1 Kv_default 0
         [mkKvIndexIncrement "k" KV_INDEX_EVENT_TYPE_PUT (mkRevision 1 0)
                             false 0 false EmptyString]
  /\ put_status
       (KvPut default_max_kv_key_size default_max_kv_value_size
              PrefixNext_sample GetRangeValues_ret_sample false
              LeaseQuery_sample LeaseAddKeys_sample
              KvControl_empty "k" EmptyString 0 false true true 1 0 Kv_default 0 [])
     = Err EINVAL "KvPut ignore_lease, but not found key"
  /\ put_status
       (KvPut default_max_kv_key_size default_max_kv_value_size
              PrefixNext_sample GetRangeValues_ret_sample false
              LeaseQuery_sample LeaseAddKeys_sample
              KvControl_empty "k" EmptyString 0 false false false 1 0 Kv_default 0 [])
     = Err EINVAL "KvPut value is empty"
  /\ fst (KvPutApply KvControl_empty "k" (mkRevision 1 0) false 0 false EmptyString)
     = OK
  /\ option_map (fun kv_rev => kv_value (rev_kv kv_rev))
       (current_KvRev
          (snd (KvPutApply KvControl_empty "k" (mkRevision 1 0) false 0 false
                           EmptyString)) "k")
     = Some EmptyString.
Proof. vm_compute. repeat split. Qed.

(** The same loss on a key that has a value: a put of "k" with ignore_value
    on the store where "k" holds "v" is accepted with an entry that carries
    ignore_value = false and the empty value, and applying that entry
    replaces "v" by the empty value. *)
Example KvPut_ignore_value_drops_value :
  put_meta_increment
    (KvPut default_max_kv_key_size default_max_kv_value_size
           PrefixNext_sample GetRangeValues_ret_sample false
           LeaseQuery_sample LeaseAddKeys_sample
           put_once "k" "w" 0 false true false 2 0 Kv_default 0 [])
  = [mkKvIndexIncrement "k" KV_INDEX_EVENT_TYPE_PUT (mkRevision 2 0)
                        false 0 false EmptyString]
  /\ option_map (fun kv_rev => kv_value (rev_kv kv_rev)) (current_KvRev put_once "k")
     = Some "v"%string
  /\ option_map (fun kv_rev => kv_value (rev_kv kv_rev))
       (current_KvRev
          (snd (KvPutApply put_once "k" (mkRevision 2 0) false 0 false EmptyString))
          "k")
     = Some EmptyString.
Proof. vm_compute. repeat split. Qed.

(** C1 (code defect): with two live keys in the requested range, a read with
    limit 1 reports a total of 1 and a count-only read reports a total of 0,
    while the range holds 2 live keys. *)
Theorem KvRange_total_count_follows_returned_kvs :
  spec_total_count_in_range two_live_keys "a" zero_byte_string = 2
  /\ snd (KvRange default_max_kv_key_size PrefixNext_sample
                  GetRangeValues_ret_sample false two_live_keys
                  "a" zero_byte_string 1 false false [] 0) = 1
  /\ snd (KvRange default_max_kv_key_size PrefixNext_sample
                  GetRangeValues_ret_sample false two_live_keys
                  "a" zero_byte_string 0 false true [] 0) = 0
  /\ snd (KvRange default_max_kv_key_size PrefixNext_sample
                  GetRangeValues_ret_sample false two_live_keys
                  "a" zero_byte_string 0 false false [] 0) = 2.
Proof. vm_compute. repeat split. Qed.

(** C6 (code defect): with fifty-one keys in the key-index map the task
    issues a single batch holding the first fifty keys; the fifty-first key
    is in the map and in no batch. *)
Theorem CompactionTask_skips_fifty_first_key :
  is_Some (kv_index_map_ fifty_one_keys !! nth_key 50)
  /\ CompactionTask default_compaction_retention_rev_count true fifty_one_keys 2000
     = [(map nth_key (seq 0 50), mkRevision 1000 0)]
  /\ Forall (fun issued => nth_key 50 ∉ fst issued)
            (CompactionTask default_compaction_retention_rev_count true
                            fifty_one_keys 2000).
Proof.
  split; [|split].
  - vm_compute. eexists. reflexivity.
  - vm_compute. reflexivity.
  - apply (bool_decide_unpack _). vm_compute. exact I.
Qed.


(** The one key the unbounded lookup depends on the scan for: the key of
    [default_max_kv_key_size] bytes 0xff, which KvPut admits, is the upper
    bound of the scan; the lookup returns it exactly when the scan returns
    the entry at its upper bound. The key one byte longer is not admitted
    by KvPut. *)
Example range_unbounded_upper_bound_key :
  map kvi_id (KvRange_lookup_values default_max_kv_key_size PrefixNext_sample
                                    GetRangeValues_ret_sample false
                                    with_all_ff_keys "a" zero_byte_string)
  = ["a"%string]
  /\ map kvi_id (KvRange_lookup_values default_max_kv_key_size PrefixNext_sample
                                       GetRangeValues_ret_sample true
                                       with_all_ff_keys "a" zero_byte_string)
     = ["a"%string; all_ff_key default_max_kv_key_size]
  /\ put_status
       (KvPut default_max_kv_key_size default_max_kv_value_size
              PrefixNext_sample GetRangeValues_ret_sample false
              LeaseQuery_sample LeaseAddKeys_sample
              KvControl_empty (all_ff_key (S default_max_kv_key_size)) "3" 0
              false false false 1 0 Kv_default 0 [])
     = Err EINVAL "KvPut key is too long"
  /\ put_status
       (KvPut default_max_kv_key_size default_max_kv_value_size
              PrefixNext_sample GetRangeValues_ret_sample false
              LeaseQuery_sample LeaseAddKeys_sample
              KvControl_empty (all_ff_key default_max_kv_key_size) "2" 0
              false false false 1 0 Kv_default 0 [])
     = OK.
Proof. vm_compute. repeat split. Qed.

Lemma put_generation_iff_no_delete_witness :
  in_same_generation
    (generations_of
       (snd (KvPutApply
               (apply_steps
                  (snd (KvPutApply KvControl_empty "k" (mkRevision 1 0) false 0 false "a"))
                  [StepCommand (CmdPut "k" (mkRevision 2 0) false 0 false "b");
                   StepCompact "k" (mkRevision 1 0)])
               "k" (mkRevision 3 0) false 0 false "c"))
       "k")
    (mkRevision 1 0) (mkRevision 3 0).
Proof.
  destruct (put_generation_iff_no_delete KvControl_empty "k" (mkRevision 1 0)
              false 0 false "a"
              [StepCommand (CmdPut "k" (mkRevision 2 0) false 0 false "b");
               StepCompact "k" (mkRevision 1 0)]
              (mkRevision 3 0) false 0 false "c") as (Hiff & Hlisted & _).
  - intros r Hr. vm_compute in Hr. inversion Hr.
  - unfold revision_lt. simpl. lia.
  - intros c Hc. apply elem_of_cons in Hc as [Hc|Hc].
    + injection Hc as ->. unfold revision_lt. simpl. lia.
    + apply list_elem_of_singleton in Hc. discriminate Hc.
  - reflexivity.
  - reflexivity.
  - assert (Hnodel : forall s,
              s ∈ [StepCommand (CmdPut "k" (mkRevision 2 0) false 0 false "b");
                   StepCompact "k" (mkRevision 1 0)] ->
              step_deletes "k" s = false).
    { intros s Hs. apply elem_of_cons in Hs as [->|Hs]; [reflexivity|].
      apply list_elem_of_singleton in Hs as ->. reflexivity. }
    apply Hiff. split; [exact Hnodel|]. apply Hlisted; [exact Hnodel|].
    intros s Hs. apply elem_of_cons in Hs as [->|Hs]; [reflexivity|].
    apply list_elem_of_singleton in Hs as ->. reflexivity.
Defined.

(** C4, as stated, fails: after puts of "k" at revisions (1,0) and (2,0), a
    compaction of "k" at (2,0) and a put at (3,0), all applied and none of
    them a delete, the key index no longer lists (1,0), so (3,0) shares no
    generation with it. *)
Lemma compaction_separates_puts :
  ~ put_generation_claim KvControl_empty "k" (mkRevision 1 0) "a"
      [StepCommand (CmdPut "k" (mkRevision 2 0) false 0 false "b");
       StepCompact "k" (mkRevision 2 0)]
      (mkRevision 3 0) "c".
Proof.
  unfold put_generation_claim. intros Hclaim.
  destruct (Hclaim eq_refl eq_refl) as [_ Hback].
  destruct Hback as (g & Hg & Hr1 & _).
  - intros s Hs. apply elem_of_cons in Hs as [->|Hs]; [reflexivity|].
    apply list_elem_of_singleton in Hs as ->. reflexivity.
  - vm_compute in Hg. apply list_elem_of_singleton in Hg. subst g.
    cbn [revisions] in Hr1.
    apply elem_of_cons in Hr1 as [Hr1|Hr1]; [discriminate Hr1|].
    apply list_elem_of_singleton in Hr1. discriminate Hr1.
Qed.

Example compaction_separates_puts_run :
  fst (KvPutApply KvControl_empty "k" (mkRevision 1 0) false 0 false "a") = OK
  /\ fst (KvCompactApply
            (apply_commands KvControl_empty
               [CmdPut "k" (mkRevision 1 0) false 0 false "a";
                CmdPut "k" (mkRevision 2 0) false 0 false "b"])
            "k" (mkRevision 2 0)) = OK
  /\ generations_of
       (apply_steps KvControl_empty
          [StepCommand (CmdPut "k" (mkRevision 1 0) false 0 false "a");
           StepCommand (CmdPut "k" (mkRevision 2 0) false 0 false "b");
           StepCompact "k" (mkRevision 2 0);
           StepCommand (CmdPut "k" (mkRevision 3 0) false 0 false "c")]) "k"
     = [mkGeneration (Some (mkRevision 1 0)) 3 [mkRevision 2 0; mkRevision 3 0]].
Proof. vm_compute. repeat split. Qed.

Lemma KvCompactApply_retention_witness :
  kv_rev_map_ (snd (KvCompactApply put_then_delete "k" (mkRevision 2 0)))
    !! RevisionToString (mkRevision 1 0) = None.
Proof.
  set (kv_index :=
         mkKvIndex "k" (mkRevision 2 0)
           [mkGeneration (Some (mkRevision 1 0)) 2 [mkRevision 1 0; mkRevision 2 0];
            Generation_default]).
  assert (Hidx : kv_index_map_ put_then_delete !! "k" = Some kv_index)
    by (vm_compute; reflexivity).
  assert (Hwf : KvIndex_wf (kvi_generations kv_index))
    by (apply KvIndex_wf_check_sound; vm_compute; reflexivity).
  destruct (KvCompactApply_retention put_then_delete "k" (mkRevision 2 0)
              kv_index Hidx Hwf) as (_ & _ & _ & _ & _ & _ & Herased & _).
  apply Herased.
  - vm_compute. apply list_elem_of_here.
  - vm_compute. intros Hin. apply list_elem_of_singleton in Hin. discriminate Hin.
Defined.

(** C3, as stated, fails: compacting the put-then-deleted key at revision
    (2,0) keeps the trailing tombstone generation, which holds no revision
    at all. *)
Lemma compaction_keeps_tombstone :
  ~ compact_retains_only_claim (mkRevision 2 0)
      (generations_of (snd (KvCompactApply put_then_delete "k" (mkRevision 2 0))) "k").
Proof.
  intros Hclaim.
  destruct (Hclaim Generation_default) as (r & Hr & _).
  - vm_compute. apply list_elem_of_further, list_elem_of_here.
  - inversion Hr.
Qed.

Lemma RevisionToString_order_iff_witness :
  String.length (RevisionToString (mkRevision 1 255)) = 17%nat
  /\ String.length (RevisionToString (mkRevision 2 0)) = 17%nat
  /\ (String.ltb (RevisionToString (mkRevision 1 255)) (RevisionToString (mkRevision 2 0))
      = true
      <-> revision_lt (mkRevision 1 255) (mkRevision 2 0)).
Proof.
  apply (RevisionToString_order_iff (mkRevision 1 255) (mkRevision 2 0));
    simpl; lia.
Defined.

Lemma StringToRevision_roundtrip_witness :
  StringToRevision (RevisionToString (mkRevision 258 7)) = mkRevision 258 7
  /\ StringToRevision "too short" = mkRevision 0 0.
Proof.
  split.
  - apply (proj1 StringToRevision_roundtrip); simpl; lia.
  - apply (proj2 StringToRevision_roundtrip). simpl. lia.
Defined.

(** ** The scenarios of the specification, run on the model *)

Example RevisionToString_sample :
  RevisionToString (mkRevision 1 2) =
  string_of_list_ascii
    (map ascii_of_nat [0;0;0;0;0;0;0;1;95;0;0;0;0;0;0;0;2]%nat).
Proof. reflexivity. Qed.

Example put_twice_then_range :
  KvRange default_max_kv_key_size PrefixNext_sample
    GetRangeValues_ret_sample false
    (apply_commands KvControl_empty
       [CmdPut "a" (mkRevision 1 0) false 0 false "1";
        CmdPut "a" (mkRevision 2 0) false 0 false "2"])
    "a" EmptyString 0 false false [] 0
  = (OK, [mkKv "a" "2" 1 2 2 0], 1).
Proof. vm_compute. reflexivity. Qed.

Example put_delete_put_then_range :
  KvRange default_max_kv_key_size PrefixNext_sample
    GetRangeValues_ret_sample false
    (apply_commands KvControl_empty
       [CmdPut "a" (mkRevision 1 0) false 0 false "1";
        CmdDelete "a" (mkRevision 2 0);
        CmdPut "a" (mkRevision 3 0) false 0 false "2"])
    "a" EmptyString 0 false false [] 0
  = (OK, [mkKv "a" "2" 3 3 1 0], 1).
Proof. vm_compute. reflexivity. Qed.

Example half_open_range :
  map vkv_key
    (snd (fst (KvRange default_max_kv_key_size PrefixNext_sample
                 GetRangeValues_ret_sample false
                 (apply_commands KvControl_empty
                    [CmdPut "a" (mkRevision 1 0) false 0 false "1";
                     CmdPut "b" (mkRevision 2 0) false 0 false "2";
                     CmdPut "c" (mkRevision 3 0) false 0 false "3";
                     CmdPut "d" (mkRevision 4 0) false 0 false "4";
                     CmdPut "e" (mkRevision 5 0) false 0 false "5"])
                 "a" "c" 0 false false [] 0)))
  = ["a"%string; "b"%string].
Proof. vm_compute. reflexivity. Qed.

Example compaction_keeps_latest_value :
  let st := apply_commands KvControl_empty
              [CmdPut "k" (mkRevision 1 0) false 0 false "1";
               CmdPut "k" (mkRevision 2 0) false 0 false "2";
               CmdPut "k" (mkRevision 3 0) false 0 false "3"] in
  let st' := snd (KvCompactApply st "k" (mkRevision 9 0)) in
  size (kv_rev_map_ st') = 1%nat
  /\ KvRange default_max_kv_key_size PrefixNext_sample
             GetRangeValues_ret_sample false st' "k" EmptyString 0
             false false [] 0
     = (OK, [mkKv "k" "3" 1 3 3 0], 1).
Proof. vm_compute. split; reflexivity. Qed.

(** ** Instances of the further properties *)

Lemma KvPutApply_read_your_write_witness :
  exists kv,
    KvRange default_max_kv_key_size PrefixNext_sample
            GetRangeValues_ret_sample false
            (snd (KvPutApply KvControl_empty "k" (mkRevision 1 0) false 0 false "v"))
            "k" EmptyString 0 false false [] 0
    = (OK, [kv], 1)
    /\ vkv_key kv = "k"%string
    /\ vkv_value kv = "v"%string
    /\ vkv_mod_revision kv = 1
    /\ vkv_lease kv = 0.
Proof.
  apply (KvPutApply_read_your_write default_max_kv_key_size PrefixNext_sample
           GetRangeValues_ret_sample false
           KvControl_empty "k" (mkRevision 1 0) false 0 false "v" false).
  reflexivity.
Defined.

Lemma KvPutApply_version_and_create_witness :
  exists kv_rev,
    current_KvRev (snd (KvPutApply put_once "k" (mkRevision 2 0) false 0 false "w")) "k"
    = Some kv_rev
    /\ kv_mod_revision (rev_kv kv_rev) = mkRevision 2 0
    /\ kv_is_deleted (rev_kv kv_rev) = false
    /\ kv_version (rev_kv kv_rev) = 2
    /\ kv_create_revision (rev_kv kv_rev) = mkRevision 1 0.
Proof.
  apply (KvPutApply_version_and_create put_once "k" (mkRevision 2 0) false 0 false "w").
  reflexivity.
Defined.

Lemma KvPutApply_ignore_flags_reuse_witness :
  exists kv_rev,
    current_KvRev (snd (KvPutApply put_once "k" (mkRevision 2 0) true 9 true "")) "k"
    = Some kv_rev
    /\ kv_value (rev_kv kv_rev) = "v"%string
    /\ kv_lease (rev_kv kv_rev) = 0.
Proof.
  apply (KvPutApply_ignore_flags_reuse put_once "k" (mkRevision 2 0) true 9 true ""
           (mkKvIndex "k" (mkRevision 1 0)
                      [mkGeneration (Some (mkRevision 1 0)) 1 [mkRevision 1 0]])
           (mkKvRev (RevisionToString (mkRevision 1 0))
                    (mkKvInternal "k" "v" (mkRevision 1 0) (mkRevision 1 0) 1 0 false)));
    reflexivity.
Defined.

Lemma KvDeleteApply_marker_witness :
  fst (KvDeleteApply put_then_delete "k" (mkRevision 3 0)) = OK
  /\ generations_of (snd (KvDeleteApply put_then_delete "k" (mkRevision 3 0))) "k"
     = generations_of put_then_delete "k".
Proof.
  destruct (KvDeleteApply_marker put_then_delete "k" (mkRevision 3 0)
              (mkKvIndex "k" (mkRevision 2 0)
                 [mkGeneration (Some (mkRevision 1 0)) 2
                               [mkRevision 1 0; mkRevision 2 0];
                  Generation_default])
              eq_refl)
    as (Hok & (kv_index' & Hidx' & _ & Hgens) & _).
  split; [exact Hok|].
  unfold generations_of at 1. rewrite Hidx'.
  rewrite (Hgens Generation_default eq_refl eq_refl). reflexivity.
Defined.

Lemma KvCompactApply_keeps_current_witness :
  fst (KvCompactApply put_twice "k" (mkRevision 5 0)) = OK
  /\ current_KvRev (snd (KvCompactApply put_twice "k" (mkRevision 5 0))) "k"
     = current_KvRev put_twice "k".
Proof.
  apply (KvCompactApply_keeps_current put_twice "k" (mkRevision 5 0)
           (mkKvIndex "k" (mkRevision 2 0)
              [mkGeneration (Some (mkRevision 1 0)) 2
                            [mkRevision 1 0; mkRevision 2 0]])).
  - reflexivity.
  - apply KvIndex_wf_check_sound. vm_compute. reflexivity.
  - reflexivity.
  - reflexivity.
  - apply (bool_decide_unpack _). vm_compute. exact I.
Defined.

Lemma KvCompactApply_erases_deleted_key_witness :
  kv_index_map_ (snd (KvCompactApply put_then_delete "k" (mkRevision 3 0))) !! "k"
  = None
  /\ kv_rev_map_ (snd (KvCompactApply put_then_delete "k" (mkRevision 3 0)))
       !! RevisionToString (mkRevision 2 0) = None.
Proof.
  destruct (KvCompactApply_erases_deleted_key put_then_delete "k" (mkRevision 3 0)
              (mkKvIndex "k" (mkRevision 2 0)
                 [mkGeneration (Some (mkRevision 1 0)) 2
                               [mkRevision 1 0; mkRevision 2 0];
                  Generation_default])
              Generation_default) as (Hindex & Hrecords).
  - reflexivity.
  - apply KvIndex_wf_check_sound. vm_compute. reflexivity.
  - reflexivity.
  - reflexivity.
  - intros r Hr. apply list_elem_of_In in Hr. simpl in Hr.
    destruct Hr as [<-|[<-|[]]]; simpl; lia.
  - split; [exact Hindex|]. apply Hrecords.
    apply list_elem_of_further, list_elem_of_here.
Defined.

Lemma KvCompactApply_nothing_below_witness :
  kv_index_map_ (snd (KvCompactApply put_twice "k" (mkRevision 1 0)))
  = kv_index_map_ put_twice
  /\ kv_rev_map_ (snd (KvCompactApply put_twice "k" (mkRevision 1 0)))
     = kv_rev_map_ put_twice.
Proof.
  apply (KvCompactApply_nothing_below put_twice "k" (mkRevision 1 0)
           (mkKvIndex "k" (mkRevision 2 0)
              [mkGeneration (Some (mkRevision 1 0)) 2
                            [mkRevision 1 0; mkRevision 2 0]])).
  - reflexivity.
  - apply KvIndex_wf_check_sound. vm_compute. reflexivity.
  - discriminate.
  - intros r Hr. apply list_elem_of_In in Hr. simpl in Hr.
    destruct Hr as [<-|[<-|[]]]; simpl; lia.
Defined.

Lemma reachable_well_formed_witness :
  KvControl_wf (snd (KvCompactApply put_then_delete "k" (mkRevision 2 0)))
  /\ keyed (snd (KvCompactApply put_then_delete "k" (mkRevision 2 0)))
  /\ revisions_bounded (snd (KvCompactApply put_then_delete "k" (mkRevision 2 0))) 2.
Proof.
  apply (reachable_well_formed
           (snd (KvCompactApply put_then_delete "k" (mkRevision 2 0))) 2).
  apply reachable_compact.
  apply (reachable_delete
           (snd (KvPutApply KvControl_empty "k" (mkRevision 1 0) false 0 false "v"))
           1 "k" (mkRevision 2 0)); [|simpl; lia].
  apply (reachable_put KvControl_empty 0 "k" (mkRevision 1 0) false 0 false "v");
    [|simpl; lia].
  apply reachable_start.
Defined.

Lemma reachable_mirrored_witness :
  mirrored (snd (KvCompactApply put_then_delete "k" (mkRevision 2 0))).
Proof.
  apply (reachable_mirrored
           (snd (KvCompactApply put_then_delete "k" (mkRevision 2 0))) 2).
  apply reachable_compact.
  apply (reachable_delete
           (snd (KvPutApply KvControl_empty "k" (mkRevision 1 0) false 0 false "v"))
           1 "k" (mkRevision 2 0)); [|simpl; lia].
  apply (reachable_put KvControl_empty 0 "k" (mkRevision 1 0) false 0 false "v");
    [|simpl; lia].
  apply reachable_start.
Defined.

Lemma KvRange_uncut_witness :
  snd (fst (KvRange default_max_kv_key_size PrefixNext_sample
                    GetRangeValues_ret_sample false two_live_keys
                    "a" zero_byte_string (2 ^ 32 - 1) false false [] 0))
  = [] ++ omap (KvRange_read two_live_keys false)
               (KvRange_lookup_values default_max_kv_key_size PrefixNext_sample
                                      GetRangeValues_ret_sample false
                                      two_live_keys "a" zero_byte_string).
Proof.
  apply (KvRange_uncut default_max_kv_key_size PrefixNext_sample
           GetRangeValues_ret_sample false two_live_keys
           "a" zero_byte_string (2 ^ 32 - 1) false [] 0).
  right. lia.
Defined.

Lemma KvRange_limited_witness :
  Z.of_nat
    (length (snd (fst (KvRange default_max_kv_key_size PrefixNext_sample
                               GetRangeValues_ret_sample false
                               two_live_keys "a" zero_byte_string 1 false false
                               [] 0)))) <= 1
  /\ snd (fst (KvRange default_max_kv_key_size PrefixNext_sample
                       GetRangeValues_ret_sample false two_live_keys
                       "a" zero_byte_string 1 false false [] 0))
     `prefix_of`
     snd (fst (KvRange default_max_kv_key_size PrefixNext_sample
                       GetRangeValues_ret_sample false two_live_keys
                       "a" zero_byte_string 0 false false [] 0)).
Proof.
  apply (KvRange_limited default_max_kv_key_size PrefixNext_sample
           GetRangeValues_ret_sample false two_live_keys
           "a" zero_byte_string 1 false 0).
  lia.
Defined.

Lemma KvPut_rejected_outputs_witness :
  put_sub_revision
    (KvPut default_max_kv_key_size default_max_kv_value_size PrefixNext_sample
           GetRangeValues_ret_sample false
           LeaseQuery_sample LeaseAddKeys_sample
           KvControl_empty "k" "v" 7 true false false 1 0 Kv_default 0 []) = 0
  /\ put_prev_kv
       (KvPut default_max_kv_key_size default_max_kv_value_size PrefixNext_sample
              GetRangeValues_ret_sample false
              LeaseQuery_sample LeaseAddKeys_sample
              KvControl_empty "k" "v" 7 true false false 1 0 Kv_default 0 [])
     = Kv_default
  /\ put_meta_increment
       (KvPut default_max_kv_key_size default_max_kv_value_size PrefixNext_sample
              GetRangeValues_ret_sample false
              LeaseQuery_sample LeaseAddKeys_sample
              KvControl_empty "k" "v" 7 true false false 1 0 Kv_default 0 []) = [].
Proof.
  apply (KvPut_rejected_outputs default_max_kv_key_size default_max_kv_value_size
           PrefixNext_sample
               GetRangeValues_ret_sample false LeaseQuery_sample LeaseAddKeys_sample
           KvControl_empty "k" "v" 7 true false false 1 0 Kv_default 0 []).
  vm_compute. discriminate.
Defined.

Lemma KvPut_accepted_increment_witness :
  "k"%string <> EmptyString
  /\ (String.length "k" <= default_max_kv_key_size)%nat
  /\ (false = false ->
      "v"%string <> EmptyString
      /\ (String.length "v" <= default_max_kv_value_size)%nat)
  /\ put_sub_revision
       (KvPut default_max_kv_key_size default_max_kv_value_size PrefixNext_sample
              GetRangeValues_ret_sample false
              LeaseQuery_sample LeaseAddKeys_sample
              KvControl_empty "k" "v" 0 false false false 1 0 Kv_default 0 [])
     = wrap64 (0 + 1)
  /\ put_meta_increment
       (KvPut default_max_kv_key_size default_max_kv_value_size PrefixNext_sample
              GetRangeValues_ret_sample false
              LeaseQuery_sample LeaseAddKeys_sample
              KvControl_empty "k" "v" 0 false false false 1 0 Kv_default 0 [])
     = [] ++ [mkKvIndexIncrement "k" KV_INDEX_EVENT_TYPE_PUT (mkRevision 1 0) false
                0 false "v"].
Proof.
  apply (KvPut_accepted_increment default_max_kv_key_size default_max_kv_value_size
           PrefixNext_sample
               GetRangeValues_ret_sample false LeaseQuery_sample LeaseAddKeys_sample
           KvControl_empty "k" "v" 0 false false false 1 0 Kv_default 0 []).
  vm_compute. reflexivity.
Defined.

Lemma KvPut_granted_lease_witness :
  put_lease_grant_id
    (KvPut default_max_kv_key_size default_max_kv_value_size PrefixNext_sample
           GetRangeValues_ret_sample false
           LeaseQuery_sample LeaseAddKeys_sample
           two_leased_keys "a" "3" 0 true false true 3 0 Kv_default 0 []) = 5
  /\ put_prev_kv
       (KvPut default_max_kv_key_size default_max_kv_value_size PrefixNext_sample
              GetRangeValues_ret_sample false
              LeaseQuery_sample LeaseAddKeys_sample
              two_leased_keys "a" "3" 0 true false true 3 0 Kv_default 0 [])
     = mkKv "a" "1" 1 1 1 5.
Proof.
  pose proof (KvPut_granted_lease default_max_kv_key_size default_max_kv_value_size
                PrefixNext_sample
                    GetRangeValues_ret_sample false LeaseQuery_sample LeaseAddKeys_sample
                two_leased_keys "a" "3" 0 true false true 3 0 Kv_default 0 [])
    as Hgrant.
  cbv zeta in Hgrant.
  assert (Hcur : current_KvRev two_leased_keys "a"
                 = Some (mkKvRev (RevisionToString (mkRevision 1 0))
                           (mkKvInternal "a" "1" (mkRevision 1 0) (mkRevision 1 0)
                                         1 5 false)))
    by (vm_compute; reflexivity).
  rewrite Hcur in Hgrant.
  destruct (Hgrant ltac:(vm_compute; reflexivity)) as (Hlease & _ & Hprev).
  split; [exact Hlease|exact (Hprev eq_refl)].
Defined.

Lemma KvDeleteRange_increments_witness :
  del_sub_revision
    (KvDeleteRange default_max_kv_key_size PrefixNext_sample
       GetRangeValues_ret_sample false
       LeaseRemoveMultiLeaseKeys_sample two_live_keys "a" "c" false 3 0 true 0 [] [])
  = wrap64
      (0 + Z.of_nat
             (length (snd (fst (KvRange default_max_kv_key_size PrefixNext_sample
                                        GetRangeValues_ret_sample false
                                        two_live_keys "a" "c" INT64_MAX
                                        (negb false) false [] 0)))))
  /\ del_meta_increment
       (KvDeleteRange default_max_kv_key_size PrefixNext_sample
          GetRangeValues_ret_sample false
          LeaseRemoveMultiLeaseKeys_sample two_live_keys "a" "c" false 3 0 true 0 []
          [])
     = [] ++ imap (fun i kv =>
                     mkKvIndexIncrement (vkv_key kv) KV_INDEX_EVENT_TYPE_DELETE
                       (mkRevision 3 (wrap64 (0 + Z.of_nat i)))
                       false 0 false EmptyString)
                  (snd (fst (KvRange default_max_kv_key_size PrefixNext_sample
                                     GetRangeValues_ret_sample false
                                     two_live_keys "a" "c" INT64_MAX
                                     (negb false) false [] 0))).
Proof.
  apply (KvDeleteRange_increments default_max_kv_key_size PrefixNext_sample
           GetRangeValues_ret_sample false
           LeaseRemoveMultiLeaseKeys_sample two_live_keys "a" "c" false 3 0 true 0
           [] []).
  lia.
Defined.

Lemma KvDeleteRange_failure_witness :
  del_deleted_count
    (KvDeleteRange default_max_kv_key_size PrefixNext_sample
       GetRangeValues_ret_sample false
       LeaseRemoveMultiLeaseKeys_sample lease_revoked "a" "c" true 3 0 true 0 [] [])
  = 0
  /\ del_prev_kvs
       (KvDeleteRange default_max_kv_key_size PrefixNext_sample
          GetRangeValues_ret_sample false
          LeaseRemoveMultiLeaseKeys_sample lease_revoked "a" "c" true 3 0 true 0 []
          []) = []
  /\ length
       (del_meta_increment
          (KvDeleteRange default_max_kv_key_size PrefixNext_sample
             GetRangeValues_ret_sample false
             LeaseRemoveMultiLeaseKeys_sample lease_revoked "a" "c" true 3 0 true 0
             [] []))
     = (length (@nil KvIndexIncrement)
        + length (snd (fst (KvRange default_max_kv_key_size PrefixNext_sample
                                    GetRangeValues_ret_sample false
                                    lease_revoked "a" "c" INT64_MAX (negb true)
                                    false [] 0))))%nat.
Proof.
  destruct (KvDeleteRange_failure default_max_kv_key_size PrefixNext_sample
              GetRangeValues_ret_sample false
              LeaseRemoveMultiLeaseKeys_sample lease_revoked "a" "c" true 3 0 true
              0 [] [])
    as [(_ & Hret & _)|(_ & _ & _ & _ & Hcount & Hprev & Hlen)].
  - vm_compute. discriminate.
  - unfold GetRangeValues_ret_sample in Hret. lia.
  - split; [exact Hcount|]. split; [exact Hprev|exact Hlen].
Defined.

(** A failed scan, on the store of the two live keys: the range read, the
    raw key listing and the delete request return the error of
    RangeRawKvIndex with their outputs as passed in, while the point read
    and the point delete request, which do not scan, go through. *)
Example scan_failed_on_two_live_keys :
  KvRange default_max_kv_key_size PrefixNext_sample GetRangeValues_ret_failed false
          two_live_keys "a" "c" 0 false false [Kv_default] 7
  = (Err EINVAL "RangeRawKvIndex failed", [Kv_default], 7)
  /\ KvRangeRawKeys default_max_kv_key_size PrefixNext_sample
                    GetRangeValues_ret_failed false two_live_keys "a" "c" ["z"%string]
     = (Err EINVAL "RangeRawKvIndex failed", ["z"%string])
  /\ KvDeleteRange default_max_kv_key_size PrefixNext_sample
                   GetRangeValues_ret_failed false LeaseRemoveMultiLeaseKeys_sample
                   two_live_keys "a" "c" false 3 0 true 0 [] []
     = mkKvDeleteRangeResult (Err EINVAL "RangeRawKvIndex failed") 0 0 [] [] None
  /\ KvRange default_max_kv_key_size PrefixNext_sample GetRangeValues_ret_failed false
             two_live_keys "a" EmptyString 0 false false [] 0
     = (OK, [mkKv "a" "1" 1 1 1 0], 1)
  /\ del_status
       (KvDeleteRange default_max_kv_key_size PrefixNext_sample
                      GetRangeValues_ret_failed false LeaseRemoveMultiLeaseKeys_sample
                      two_live_keys "a" EmptyString false 3 0 true 0 [] [])
     = OK.
Proof. vm_compute. repeat split. Qed.

Lemma KvDeleteRange_lease_keys_witness :
  ({[5 := {["b"%string]}]} : gmap Z (gset string)) !! 5
  = match last (List.filter (fun kv => negb (vkv_lease kv =? 0) && (vkv_lease kv =? 5))
                            (snd (fst (KvRange default_max_kv_key_size
                                               PrefixNext_sample
                                                   GetRangeValues_ret_sample false two_leased_keys
                                               "a" "c" INT64_MAX (negb false) false
                                               [] 0)))) with
    | Some kv => Some ({[vkv_key kv]} : gset string)
    | None => None
    end.
Proof.
  apply (KvDeleteRange_lease_keys default_max_kv_key_size PrefixNext_sample
           GetRangeValues_ret_sample false
           LeaseRemoveMultiLeaseKeys_sample two_leased_keys "a" "c" false 3 0 true
           0 [] [] {[5 := {["b"%string]}]}).
  vm_compute. reflexivity.
Defined.

Lemma KvDeleteRange_unreadable_key_witness :
  KvDeleteRange default_max_kv_key_size PrefixNext_sample
    GetRangeValues_ret_sample false
    LeaseRemoveMultiLeaseKeys_sample put_then_delete "k" EmptyString true 3 0 true
    0 [Kv_default] []
  = mkKvDeleteRangeResult OK 0 0 [] [] None.
Proof.
  apply (KvDeleteRange_unreadable_key default_max_kv_key_size PrefixNext_sample
           GetRangeValues_ret_sample false
           LeaseRemoveMultiLeaseKeys_sample put_then_delete "k" true 3 0 true 0
           [Kv_default] []).
  reflexivity.
Defined.

Lemma CompactionTask_keys_witness :
  concat (map fst (CompactionTask default_compaction_retention_rev_count true
                                  fifty_one_keys 2000))
  = concat (imap (fun i key => if Nat.eqb (i mod 51) 50 then [] else [key])
                 (GetAllKeys (kv_index_map_ fifty_one_keys))).
Proof.
  apply (CompactionTask_keys default_compaction_retention_rev_count true
           fifty_one_keys 2000).
  - reflexivity.
  - unfold default_compaction_retention_rev_count. lia.
Defined.

Lemma CompactionTask_small_store_witness :
  CompactionTask_submitted default_compaction_retention_rev_count true
                           two_live_keys 2000
  = [map (fun key =>
            mkKvIndexIncrement key KV_INDEX_EVENT_TYPE_COMPACTION
              (mkRevision (2000 - default_compaction_retention_rev_count) 0)
              false 0 false EmptyString)
         (GetAllKeys (kv_index_map_ two_live_keys))].
Proof.
  apply (CompactionTask_small_store default_compaction_retention_rev_count true
           two_live_keys 2000).
  - reflexivity.
  - unfold default_compaction_retention_rev_count. lia.
  - vm_compute. lia.
Defined.

Lemma KvPutApply_watch_event_witness :
  exists new_kv prev_kv,
    watch_triggers_
      (snd (KvPutApply watched_put_once "k" (mkRevision 2 0) false 0 false "w"))
    = watch_triggers_ watched_put_once
      ++ [mkWatchTrigger "k" Event_EventType_PUT new_kv prev_kv]
    /\ KvRange default_max_kv_key_size PrefixNext_sample
               GetRangeValues_ret_sample false
               (snd (KvPutApply watched_put_once "k" (mkRevision 2 0) false 0 false
                                "w"))
               "k" EmptyString 0 false false [] 0
       = (OK, [new_kv], 1)
    /\ prev_kv = mkKv "k" "v" 1 1 (vkv_version new_kv) 0.
Proof.
  destruct (KvPutApply_watch_event default_max_kv_key_size PrefixNext_sample
              GetRangeValues_ret_sample false
              watched_put_once "k" (mkRevision 2 0) false 0 false "w" eq_refl)
    as (_ & Hpending).
  destruct Hpending as (new_kv & prev_kv & Htrigger & Hread & Hprev).
  - apply (bool_decide_unpack _). vm_compute. exact I.
  - exists new_kv, prev_kv. split; [exact Htrigger|]. split; [exact Hread|].
    apply (Hprev (mkKvIndex "k" (mkRevision 1 0)
                    [mkGeneration (Some (mkRevision 1 0)) 1 [mkRevision 1 0]])
                 (mkGeneration (Some (mkRevision 1 0)) 1 [mkRevision 1 0]));
      [reflexivity|reflexivity|reflexivity|simpl; lia].
Defined.

Lemma KvDeleteApply_watch_event_witness :
  exists new_kv prev_kv,
    watch_triggers_ (snd (KvDeleteApply watched_put_once "k" (mkRevision 2 0)))
    = watch_triggers_ watched_put_once
      ++ [mkWatchTrigger "k" Event_EventType_DELETE new_kv prev_kv]
    /\ vkv_key new_kv = "k"%string
    /\ vkv_value new_kv = EmptyString
    /\ vkv_lease new_kv = 0
    /\ vkv_mod_revision new_kv = 2.
Proof.
  destruct (KvDeleteApply_watch_event watched_put_once "k" (mkRevision 2 0)
              (mkKvIndex "k" (mkRevision 1 0)
                 [mkGeneration (Some (mkRevision 1 0)) 1 [mkRevision 1 0]])
              eq_refl)
    as (_ & Hpending).
  destruct Hpending
    as (new_kv & prev_kv & Htrigger & Hkey & Hvalue & Hlease & Hmod & _).
  - apply (bool_decide_unpack _). vm_compute. exact I.
  - exists new_kv, prev_kv. repeat split; assumption.
Defined.
